(** * Blokus: a shallow embedding of the rules engine (src/blokus.py) and of
    the grid serialisation helpers (src/grid.py).

    Python objects become records, methods become functions of the object,
    exceptions become an explicit error result, and the methods that assign
    to attributes of [self] live in a state-and-exception monad in which the
    state reached so far survives a raise, as it does in Python. *)

From stdpp Require Import gmap strings list.
From Stdlib Require Import ZArith Lia Ascii DecimalString.

Local Open Scope Z_scope.

(** ** The Python run time *)

Inductive PyError :=
| ValueError (msg : string)
| KeyError
| IndexError
| ZeroDivisionError
| AttributeError (name : string)
| UnanchoredError.

(** The result of an expression that reads but never assigns. *)
Inductive res (A : Type) :=
| Val (a : A)
| Exn (e : PyError).
Arguments Val {A} a.
Arguments Exn {A} e.

Definition res_bind {A B} (m : res A) (k : A -> res B) : res B :=
  match m with
  | Val a => k a
  | Exn e => Exn e
  end.

Notation "'let!' x ':=' c1 'in' c2" := (res_bind c1 (fun x => c2))
  (at level 10, x name, c1 at level 100, c2 at level 200).

(** [len(l)] *)
Definition len {A} (l : list A) : Z := Z.of_nat (length l).

(** [l[i]]: a negative index counts from the end, anything outside
    [-len, len) raises [IndexError]. *)
Definition py_norm_index {A} (l : list A) (i : Z) : res nat :=
  let j := if i <? 0 then i + len l else i in
  if (0 <=? j) && (j <? len l) then Val (Z.to_nat j) else Exn IndexError.

Definition py_index {A} (l : list A) (i : Z) : res A :=
  let! j := py_norm_index l i in
  match l !! j with
  | Some a => Val a
  | None => Exn IndexError
  end.

(** [l[i] = a] *)
Definition py_setitem {A} (l : list A) (i : Z) (a : A) : res (list A) :=
  let! j := py_norm_index l i in
  Val (<[j := a]> l).

(** [a % b] on integers: the sign of the result is the sign of [b], which is
    what [Z.modulo] computes. *)
Definition py_mod (a b : Z) : res Z :=
  if b =? 0 then Exn ZeroDivisionError else Val (a mod b).

(** [d[k]] on a dict. *)
Definition dict_get {V} (d : gmap Z V) (k : Z) : res V :=
  match d !! k with
  | Some v => Val v
  | None => Exn KeyError
  end.

(** [max(l)] *)
Definition py_max (l : list Z) : res Z :=
  match l with
  | [] => Exn (ValueError "max() arg is an empty sequence")
  | x :: r => Val (foldl Z.max x r)
  end.

(** [range(a, b)] *)
Definition py_range (a b : Z) : list Z := seqZ a (b - a).

(** [enumerate(l)] *)
Definition enumerate {A} (l : list A) : list (Z * A) :=
  zip (seqZ 0 (len l)) l.

(** ** Shapes and pieces *)

(** The members of the enumeration [ShapeKind], as the sources name them
    (the key table of src/tui.py lists all twenty-one). *)
Module ShapeKind.
Inductive t :=
| ONE | TWO | THREE | C | FOUR | SEVEN | S | LETTER_O | A | F | FIVE
| L | N | P | T | U | V | W | X | Y | Z.

#[global] Instance eq_dec : EqDecision t.
Proof. solve_decision. Defined.
End ShapeKind.

Abbreviation Point := (Z * Z)%type.

Module Shape.
(** [shape.kind] and [shape.squares], the canonical offsets of the kind. *)
Record t := { kind : ShapeKind.t; squares : list Point }.
End Shape.

Module Piece.
(** A piece refers to its shape, carries the offsets of its current
    orientation, and an anchor once [set_anchor] was called. *)
Record t := {
  shape : Shape.t;
  orientation : list Point;
  anchor : option Point
}.

Definition translate (a : Point) (d : Point) : Point :=
  (a.1 + d.1, a.2 + d.2).

(** Modelled from the spec: piece.py is not among the sources.  "anchor +
    each offset of the piece's current orientation, undefined (fails with
    UnanchoredError) if no anchor is set". *)
Definition squares (p : t) : res (list Point) :=
  match anchor p with
  | None => Exn UnanchoredError
  | Some a => Val (map (translate a) (orientation p))
  end.

Definition cardinal_of (q : Point) : list Point :=
  [(q.1 - 1, q.2); (q.1 + 1, q.2); (q.1, q.2 - 1); (q.1, q.2 + 1)].

Definition intercardinal_of (q : Point) : list Point :=
  [(q.1 - 1, q.2 - 1); (q.1 - 1, q.2 + 1);
   (q.1 + 1, q.2 - 1); (q.1 + 1, q.2 + 1)].

(** Modelled from the spec: piece.py is not among the sources.  "for every
    occupied square, the 4 orthogonally adjacent points, excluding the
    piece's own squares". *)
Definition cardinal_neighbors (p : t) : res (list Point) :=
  let! sqs := squares p in
  Val (remove_dups
         (filter (fun q => q ∉ sqs) (concat (map cardinal_of sqs)))).

(** Modelled from the spec: piece.py is not among the sources.  "for every
    occupied square, the 4 diagonally adjacent points, excluding the piece's
    own squares and excluding any point already counted as a cardinal
    neighbor of the piece". *)
Definition intercardinal_neighbors (p : t) : res (list Point) :=
  let! sqs := squares p in
  let! card := cardinal_neighbors p in
  Val (remove_dups
         (filter (fun q => (q ∉ sqs) ∧ (q ∉ card))
                 (concat (map intercardinal_of sqs)))).
End Piece.

(** ** The game object *)

Abbreviation Cell := (option (Z * ShapeKind.t)).
Abbreviation Grid := (list (list Cell)).

(** The attributes of a [Blokus] instance.  [_shapes] is a dict whose keys
    are iterated in insertion order, hence an association list; sets whose
    members are only tested are [gset]s. *)
Record Blokus := {
  _num_players : Z;
  _start_positions : gset Point;
  _size : Z;
  _curr_player : Z;
  _shapes : list (ShapeKind.t * Shape.t);
  _shapes_played : gmap Z (list ShapeKind.t);
  _grid : Grid;
  _retired : gset Z
}.

Definition with_curr_player (v : Z) (self : Blokus) : Blokus :=
  {| _num_players := _num_players self;
     _start_positions := _start_positions self;
     _size := _size self;
     _curr_player := v;
     _shapes := _shapes self;
     _shapes_played := _shapes_played self;
     _grid := _grid self;
     _retired := _retired self |}.

Definition with_grid (g : Grid) (self : Blokus) : Blokus :=
  {| _num_players := _num_players self;
     _start_positions := _start_positions self;
     _size := _size self;
     _curr_player := _curr_player self;
     _shapes := _shapes self;
     _shapes_played := _shapes_played self;
     _grid := g;
     _retired := _retired self |}.

Definition with_shapes_played (d : gmap Z (list ShapeKind.t)) (self : Blokus)
  : Blokus :=
  {| _num_players := _num_players self;
     _start_positions := _start_positions self;
     _size := _size self;
     _curr_player := _curr_player self;
     _shapes := _shapes self;
     _shapes_played := d;
     _grid := _grid self;
     _retired := _retired self |}.

Definition with_retired (r : gset Z) (self : Blokus) : Blokus :=
  {| _num_players := _num_players self;
     _start_positions := _start_positions self;
     _size := _size self;
     _curr_player := _curr_player self;
     _shapes := _shapes self;
     _shapes_played := _shapes_played self;
     _grid := _grid self;
     _retired := r |}.

(** *** Methods that only read *)

(** [self.shapes[k]] *)
Fixpoint shapes_get (d : list (ShapeKind.t * Shape.t)) (k : ShapeKind.t)
  : res Shape.t :=
  match d with
  | [] => Exn KeyError
  | (k', sh) :: d' => if decide (k' = k) then Val sh else shapes_get d' k
  end.

(** The comprehension of [remaining_shapes]: the played-list of the player
    is looked up once per key, so a missing player raises [KeyError] only
    when there is a key to test. *)
Fixpoint remaining_comp (played : gmap Z (list ShapeKind.t)) (player : Z)
    (keys : list ShapeKind.t) : res (list ShapeKind.t) :=
  match keys with
  | [] => Val []
  | shape :: keys' =>
      let! pl := dict_get played player in
      let! rest := remaining_comp played player keys' in
      Val (if bool_decide (shape ∈ pl) then rest else shape :: rest)
  end.

Definition remaining_shapes (player : Z) (self : Blokus)
  : res (list ShapeKind.t) :=
  remaining_comp (_shapes_played self) player (map fst (_shapes self)).

(** The two guards that open [any_wall_collisions], [any_collisions] and
    [legal_to_place]. *)
Definition check_piece (piece : Piece.t) (self : Blokus) : res unit :=
  match Piece.anchor piece with
  | None => Exn (ValueError "Piece anchor is not set.")
  | Some _ =>
      let! rs := remaining_shapes (_curr_player self) self in
      if bool_decide (Shape.kind (Piece.shape piece) ∈ rs) then Val tt
      else Exn (ValueError "Player does not have the specified piece.")
  end.

Definition off_board (size : Z) (q : Point) : bool :=
  (q.1 <? 0) || (q.1 >=? size) || (q.2 <? 0) || (q.2 >=? size).

Definition any_wall_collisions (piece : Piece.t) (self : Blokus) : res bool :=
  let! _ := check_piece piece self in
  let! sqs := Piece.squares piece in
  Val (existsb (off_board (_size self)) sqs).

(** [self.grid[x][y]] *)
Definition grid_at (g : Grid) (q : Point) : res Cell :=
  let! row := py_index g q.1 in
  py_index row q.2.

Fixpoint occupied_loop (g : Grid) (sqs : list Point) : res bool :=
  match sqs with
  | [] => Val false
  | q :: rest =>
      let! cell := grid_at g q in
      match cell with
      | Some _ => Val true
      | None => occupied_loop g rest
      end
  end.

Definition any_collisions (piece : Piece.t) (self : Blokus) : res bool :=
  let! _ := check_piece piece self in
  let! wall := any_wall_collisions piece self in
  if wall then Val true
  else
    let! sqs := Piece.squares piece in
    occupied_loop (_grid self) sqs.

(** [min(self.size - 1, max(0, x))] *)
Definition clamp (size v : Z) : Z := Z.min (size - 1) (Z.max 0 v).

Definition clamp_point (size : Z) (q : Point) : Point :=
  (clamp size q.1, clamp size q.2).

(** [cell and cell[0] == player] *)
Definition owned_by (player : Z) (cell : Cell) : bool :=
  match cell with
  | Some (p, _) => p =? player
  | None => false
  end.

(** The loop of the edges rule; [true] when the loop returns [False] from
    [legal_to_place]. *)
Fixpoint edges_rule (self : Blokus) (edges : list Point) : res bool :=
  match edges with
  | [] => Val false
  | q :: rest =>
      let! edge_on_grid := grid_at (_grid self) (clamp_point (_size self) q) in
      if owned_by (_curr_player self) edge_on_grid then Val true
      else edges_rule self rest
  end.

(** The loop of the corners rule, threading [touching_corner]. *)
Fixpoint corners_rule (self : Blokus) (corners : list Point)
    (touching_corner : bool) : res bool :=
  match corners with
  | [] => Val touching_corner
  | q :: rest =>
      let! corner_on_grid :=
        grid_at (_grid self) (clamp_point (_size self) q) in
      if owned_by (_curr_player self) corner_on_grid
      then corners_rule self rest true
      else corners_rule self rest touching_corner
  end.

Fixpoint start_loop (starts : gset Point) (sqs : list Point)
    (touching_start : bool) : bool :=
  match sqs with
  | [] => touching_start
  | square :: rest =>
      if bool_decide (square ∈ starts) then start_loop starts rest true
      else start_loop starts rest touching_start
  end.

Definition legal_to_place (piece : Piece.t) (self : Blokus) : res bool :=
  let! _ := check_piece piece self in
  let! collides := any_collisions piece self in
  if collides then Val false
  else
    let! played := dict_get (_shapes_played self) (_curr_player self) in
    if len played <=? 0 then
      let! sqs := Piece.squares piece in
      if negb (start_loop (_start_positions self) sqs false) then Val false
      else Val true
    else
      let! edges := Piece.cardinal_neighbors piece in
      let! corners := Piece.intercardinal_neighbors piece in
      let! hit := edges_rule self edges in
      if hit then Val false
      else
        let! touching_corner := corners_rule self corners false in
        if negb touching_corner then Val false else Val true.

Fixpoint score_loop (shapes : list (ShapeKind.t * Shape.t))
    (remaining : list ShapeKind.t) (score : Z) : res Z :=
  match remaining with
  | [] => Val score
  | shape :: rest =>
      let! sh := shapes_get shapes shape in
      score_loop shapes rest (score - len (Shape.squares sh))
  end.

Definition get_score (player : Z) (self : Blokus) : res Z :=
  let! remaining := remaining_shapes player self in
  if len remaining >? 0 then score_loop (_shapes self) remaining 0
  else
    let! played := dict_get (_shapes_played self) player in
    let! last := py_index played (-1) in
    let! sh := shapes_get (_shapes self) last in
    if len (Shape.squares sh) =? 1 then Val 20 else Val 15.

(** *** Methods that assign to [self] *)

(** What a call leaves behind: a value and the object, an exception and the
    object as the raise found it, or a loop that outlived its budget of
    iterations. *)
Inductive Outcome (A : Type) :=
| Returned (a : A) (self : Blokus)
| Raised (e : PyError) (self : Blokus)
| OutOfFuel.
Arguments Returned {A} a self.
Arguments Raised {A} e self.
Arguments OutOfFuel {A}.

Definition M (A : Type) : Type := Blokus -> Outcome A.

Definition ret {A} (a : A) : M A := fun self => Returned a self.

Definition bind {A B} (m : M A) (k : A -> M B) : M B :=
  fun self =>
    match m self with
    | Returned a self' => k a self'
    | Raised e self' => Raised e self'
    | OutOfFuel => OutOfFuel
    end.

Notation "'let*' x ':=' c1 'in' c2" := (bind c1 (fun x => c2))
  (at level 10, x name, c1 at level 100, c2 at level 200).

(** A read of [self]. *)
Definition read {A} (f : Blokus -> res A) : M A :=
  fun self =>
    match f self with
    | Val a => Returned a self
    | Exn e => Raised e self
    end.

Definition get {A} (f : Blokus -> A) : M A :=
  fun self => Returned (f self) self.

Definition assign (f : Blokus -> Blokus) : M unit :=
  fun self => Returned tt (f self).

Definition raise {A} (e : PyError) : M A :=
  fun self => Raised e self.

(** The final object of a call, whichever way it ended. *)
Definition final {A} (o : Outcome A) : option Blokus :=
  match o with
  | Returned _ self => Some self
  | Raised _ self => Some self
  | OutOfFuel => None
  end.

(** The body of the [for] loop of [game_over] over the players left to
    scan. *)
Fixpoint game_over_loop (current_player : Z) (players : list Z) : M bool :=
  match players with
  | [] => ret true
  | player :: rest =>
      let* _ := assign (with_curr_player player) in
      let* retired := get _retired in
      if bool_decide (player ∈ retired) then
        game_over_loop current_player rest
      else
        let* remaining := read (remaining_shapes player) in
        if len remaining <=? 0 then game_over_loop current_player rest
        else
          let* _ := assign (with_curr_player current_player) in
          ret false
  end.

Definition game_over : M bool :=
  let* current_player := get _curr_player in
  let* n := get _num_players in
  game_over_loop current_player (py_range 1 (n + 1)).

(** [[get_score(player) for player in players]] *)
Fixpoint scores_comp (players : list Z) (self : Blokus) : res (list Z) :=
  match players with
  | [] => Val []
  | player :: rest =>
      let! score := get_score player self in
      let! scores := scores_comp rest self in
      Val (score :: scores)
  end.

(** [[player + 1 for player, score in ... if score == max(scores)]]; the
    maximum is taken anew for every element, hence never of an empty
    list. *)
Fixpoint winners_comp (scores : list Z) (pairs : list (Z * Z))
  : res (list Z) :=
  match pairs with
  | [] => Val []
  | (player, score) :: rest =>
      let! m := py_max scores in
      let! ws := winners_comp scores rest in
      Val (if score =? m then (player + 1) :: ws else ws)
  end.

Definition winners : M (option (list Z)) :=
  let* over := game_over in
  if over then
    let* n := get _num_players in
    let* scores := read (scores_comp (py_range 1 (n + 1))) in
    let* ws := read (fun _ => winners_comp scores (enumerate scores)) in
    ret (Some ws)
  else ret None.

(** [self._curr_player = (self._curr_player % self.num_players) + 1] *)
Definition advance : M unit :=
  let* c := get _curr_player in
  let* n := get _num_players in
  let* r := read (fun _ => py_mod c n) in
  assign (with_curr_player (r + 1)).

(** The test of the [while] of [progress_turn], with the short cuts of
    [or] and [and]. *)
Definition progress_cond : M bool :=
  let* c := get _curr_player in
  let* retired := get _retired in
  let* stuck :=
    (if bool_decide (c ∈ retired) then ret true
     else
       let* remaining := read (remaining_shapes c) in
       ret (len remaining <=? 0)) in
  if stuck then
    let* over := game_over in
    ret (negb over)
  else ret false.

Fixpoint progress_loop (fuel : nat) : M unit :=
  match fuel with
  | O => fun _ => OutOfFuel
  | S fuel' =>
      let* again := progress_cond in
      if again then
        let* _ := advance in
        progress_loop fuel'
      else ret tt
  end.

Definition progress_turn (fuel : nat) : M unit :=
  let* _ := advance in
  progress_loop fuel.

(** [self._grid[x][y] = v] *)
Definition grid_set (q : Point) (v : Cell) : M unit :=
  let* g := get _grid in
  let* row := read (fun _ => py_index g q.1) in
  let* row' := read (fun _ => py_setitem row q.2 v) in
  let* g' := read (fun _ => py_setitem g q.1 row') in
  assign (with_grid g').

Fixpoint place_loop (sqs : list Point) (v : Cell) : M unit :=
  match sqs with
  | [] => ret tt
  | q :: rest =>
      let* _ := grid_set q v in
      place_loop rest v
  end.

(** [self._shapes_played[player].append(kind)] *)
Definition append_played (player : Z) (kind : ShapeKind.t) : M unit :=
  let* d := get _shapes_played in
  let* pl := read (fun _ => dict_get d player) in
  assign (with_shapes_played (<[player := pl ++ [kind]]> d)).

Definition maybe_place (fuel : nat) (piece : Piece.t) : M bool :=
  let* current_player := get _curr_player in
  let* retired := get _retired in
  if bool_decide (current_player ∉ retired) then
    match Piece.anchor piece with
    | None => raise (ValueError "Piece anchor is not set.")
    | Some _ =>
        let* rs := read (remaining_shapes current_player) in
        if bool_decide (Shape.kind (Piece.shape piece) ∉ rs) then
          raise (ValueError "Player does not have the specified piece.")
        else
          let* legal := read (legal_to_place piece) in
          if negb legal then ret false
          else
            let* sqs := read (fun _ => Piece.squares piece) in
            let* _ :=
              place_loop sqs
                (Some (current_player, Shape.kind (Piece.shape piece))) in
            let* _ :=
              append_played current_player
                (Shape.kind (Piece.shape piece)) in
            let* _ := progress_turn fuel in
            ret true
    end
  else
    let* _ := progress_turn fuel in
    ret true.

Definition retire (fuel : nat) : M unit :=
  let* c := get _curr_player in
  let* _ := assign (fun self => with_retired ({[c]} ∪ _retired self) self) in
  progress_turn fuel.

(** *** Construction *)

(** The checks of [Blokus.__init__] on the start positions. *)
Definition on_board (size : Z) (q : Point) : bool :=
  (0 <=? q.1) && (q.1 <=? size - 1) && (0 <=? q.2) && (q.2 <=? size - 1).

(** [Blokus(num_players, size, start_positions)].  The table [definitions]
    of shape_definitions.py, already turned into shapes by
    [Shape.from_string], is an argument: neither is among the sources.  Nor
    is [BlokusBase.__init__], which is taken to store its three arguments in
    [_num_players], [_size] and [_start_positions]. *)
Definition Blokus_init (definitions : list (ShapeKind.t * Shape.t))
    (num_players size : Z) (start_positions : gset Point) : res Blokus :=
  if (num_players <? 1) || (num_players >? 4) then
    Exn (ValueError "Game requires 1-4 players to start.")
  else if size <? 5 then
    Exn (ValueError "Minimum size of the board is 5 by 5.")
  else if Z.of_nat (base.size start_positions) <? num_players then
    Exn (ValueError "There must be a start position for every player.")
  else if negb (forallb (on_board size) (elements start_positions)) then
    Exn (ValueError "Start position must be within grid.")
  else
    Val {| _num_players := num_players;
           _start_positions := start_positions;
           _size := size;
           _curr_player := 1;
           _shapes := definitions;
           _shapes_played :=
             list_to_map ((fun plr => (plr, [])) <$>
                          py_range 1 (num_players + 1));
           _grid := replicate (Z.to_nat size) (replicate (Z.to_nat size) None);
           _retired := ∅ |}.

(** The calls that change a game, and the games one can reach with them. *)
Inductive Op :=
| OpMaybePlace (piece : Piece.t)
| OpRetire
| OpProgressTurn.

Definition run_op (fuel : nat) (op : Op) (self : Blokus) : option Blokus :=
  match op with
  | OpMaybePlace piece => final (maybe_place fuel piece self)
  | OpRetire => final (retire fuel self)
  | OpProgressTurn => final (progress_turn fuel self)
  end.

Fixpoint run_ops (fuel : nat) (ops : list Op) (self : Blokus)
  : option Blokus :=
  match ops with
  | [] => Some self
  | op :: rest =>
      match run_op fuel op self with
      | Some self' => run_ops fuel rest self'
      | None => None
      end
  end.

Inductive reachable : Blokus -> Prop :=
| reachable_init definitions num_players size start_positions self :
    Blokus_init definitions num_players size start_positions = Val self ->
    reachable self
| reachable_step fuel op self self' :
    reachable self ->
    run_op fuel op self = Some self' ->
    reachable self'.

(** ** Grids as text (src/grid.py) *)

(** [ShapeKind.<name>]: the members are those the sources use
    ([ShapeKind.ONE] in the tests of src/grid.py, all twenty-one in the key
    table of src/tui.py); any other attribute of the enumeration raises
    [AttributeError]. *)
Definition ShapeKind_getattr (name : string) : res ShapeKind.t :=
  if String.eqb name "ONE" then Val ShapeKind.ONE
  else if String.eqb name "TWO" then Val ShapeKind.TWO
  else if String.eqb name "THREE" then Val ShapeKind.THREE
  else if String.eqb name "C" then Val ShapeKind.C
  else if String.eqb name "FOUR" then Val ShapeKind.FOUR
  else if String.eqb name "SEVEN" then Val ShapeKind.SEVEN
  else if String.eqb name "S" then Val ShapeKind.S
  else if String.eqb name "LETTER_O" then Val ShapeKind.LETTER_O
  else if String.eqb name "A" then Val ShapeKind.A
  else if String.eqb name "F" then Val ShapeKind.F
  else if String.eqb name "FIVE" then Val ShapeKind.FIVE
  else if String.eqb name "L" then Val ShapeKind.L
  else if String.eqb name "N" then Val ShapeKind.N
  else if String.eqb name "P" then Val ShapeKind.P
  else if String.eqb name "T" then Val ShapeKind.T
  else if String.eqb name "U" then Val ShapeKind.U
  else if String.eqb name "V" then Val ShapeKind.V
  else if String.eqb name "W" then Val ShapeKind.W
  else if String.eqb name "X" then Val ShapeKind.X
  else if String.eqb name "Y" then Val ShapeKind.Y
  else if String.eqb name "Z" then Val ShapeKind.Z
  else Exn (AttributeError name).

Definition newline : ascii := "010"%char.
Definition space : ascii := " "%char.

(** [str(n)] for an integer. *)
Definition str_int (n : Z) : string := NilZero.string_of_int (Z.to_int n).

(** [s * n] *)
Definition str_repeat (s : string) (n : Z) : string :=
  String.concat "" (replicate (Z.to_nat n) s).

(** [sep.join(l)] *)
Definition str_join (sep : string) (l : list string) : string :=
  String.concat sep l.

(** [s.split(sep)] for a separator of one character. *)
Fixpoint str_split (sep : ascii) (s : string) : list string :=
  match s with
  | EmptyString => [EmptyString]
  | String c s' =>
      if Ascii.eqb c sep then EmptyString :: str_split sep s'
      else
        match str_split sep s' with
        | h :: t => String c h :: t
        | [] => [String c EmptyString]
        end
  end.

(** The characters [str.strip()] removes, among the ASCII ones. *)
Definition is_space (c : ascii) : bool :=
  let n := nat_of_ascii c in
  ((9 <=? n) && (n <=? 13) || (28 <=? n) && (n <=? 32))%nat.

Fixpoint str_lstrip (s : string) : string :=
  match s with
  | EmptyString => EmptyString
  | String c s' => if is_space c then str_lstrip s' else s
  end.

Fixpoint str_rstrip (s : string) : string :=
  match s with
  | EmptyString => EmptyString
  | String c s' =>
      match str_rstrip s' with
      | EmptyString => if is_space c then EmptyString else String c EmptyString
      | r => String c r
      end
  end.

(** [s.strip()] *)
Definition str_strip (s : string) : string := str_rstrip (str_lstrip s).

(** [s[i]] *)
Definition str_index (s : string) (i : Z) : res ascii :=
  let n := Z.of_nat (String.length s) in
  let j := if i <? 0 then i + n else i in
  if (0 <=? j) && (j <? n) then
    match String.get (Z.to_nat j) s with
    | Some c => Val c
    | None => Exn IndexError
    end
  else Exn IndexError.

(** [int(c)] for a string of one character. *)
Definition int_of_char (c : ascii) : res Z :=
  let n := nat_of_ascii c in
  if ((48 <=? n) && (n <=? 57))%nat then Val (Z.of_nat n - 48)
  else Exn (ValueError "invalid literal for int() with base 10").

(** [range(a, b, 2)] *)
Definition py_range2 (a b : Z) : list Z :=
  (fun j => a + 2 * j) <$> seqZ 0 ((b - a + 1) `div` 2).

(** [l[1:-1]] *)
Definition slice_1_m1 {A} (l : list A) : list A :=
  take (length l - 2) (drop 1 l).

Definition cell_to_string (cell : Cell) : string :=
  match cell with
  | None => "  "
  | Some (player, _) => str_int player +:+ " "
  end.

Fixpoint row_to_string (row : list Cell) (row_str : string) : string :=
  match row with
  | [] => row_str
  | cell :: rest => row_to_string rest (row_str +:+ cell_to_string cell)
  end.

Definition grid_to_string (grid : Grid) : string :=
  let height := len grid in
  let width :=
    if height >? 0 then
      match grid !! 0%nat with
      | Some row => len row
      | None => 0
      end
    else 0 in
  let border := "+" +:+ str_repeat "-" (width * 2) +:+ "+" in
  str_join (String newline "")
    ([border] ++
     map (fun row => row_to_string row "|" +:+ "|") grid ++
     [border]).

(** The inner loop of [string_to_grid], over the indices of a line; [one] is
    what evaluating [ShapeKind.One] gives. *)
Fixpoint line_to_row (one : res ShapeKind.t) (line : string) (idx : list Z)
  : res (list Cell) :=
  match idx with
  | [] => Val []
  | i :: rest =>
      let! char := str_index line i in
      let! cell :=
        (if Ascii.eqb char space then Val None
         else
           let! player := int_of_char char in
           let! shape := one in
           Val (Some (player, shape))) in
      let! row := line_to_row one line rest in
      Val (cell :: row)
  end.

Fixpoint lines_to_cells (one : res ShapeKind.t) (lines : list string)
  : res Grid :=
  match lines with
  | [] => Val []
  | line :: rest =>
      let! row :=
        line_to_row one line
          (py_range2 1 (Z.of_nat (String.length line) - 1)) in
      let! cells := lines_to_cells one rest in
      Val (row :: cells)
  end.

Definition string_to_grid_with (one : res ShapeKind.t) (s : string)
  : res Grid :=
  let lines := str_split newline (str_strip s) in
  lines_to_cells one (slice_1_m1 lines).

Definition string_to_grid (s : string) : res Grid :=
  string_to_grid_with (ShapeKind_getattr "One") s.

(** ** The moves left to a player ([available_moves] of src/blokus.py) *)

(** Modelled from the spec: piece.py is not among the sources.
    "set_anchor(piece, point): fixes the piece's position; does not validate
    board bounds". *)
Definition Piece_set_anchor (p : Piece.t) (a : Point) : Piece.t :=
  {| Piece.shape := Piece.shape p;
     Piece.orientation := Piece.orientation p;
     Piece.anchor := Some a |}.

(** The anchors [(x, y)] in the order the two nested loops over
    [range(self.size)] of [available_moves] visit them. *)
Definition anchors (size : Z) : list Point :=
  concat (map (fun x => map (fun y => (x, y)) (py_range 0 size))
              (py_range 0 size)).

(** The two inner loops of [available_moves] for one shape: [test_piece] is
    re-anchored at every position, and a fresh piece [Piece(shape)] anchored
    there is added for every legal one.  [new_piece] is the constructor
    [Piece(shape)] of piece.py, which is not among the sources; the set
    [moves_left] is the list of the pieces added, in order. *)
Fixpoint moves_at (new_piece : Shape.t -> Piece.t) (shape : Shape.t)
    (test_piece : Piece.t) (positions : list Point) (self : Blokus)
  : res (list Piece.t) :=
  match positions with
  | [] => Val []
  | a :: rest =>
      let test_piece := Piece_set_anchor test_piece a in
      let! legal := legal_to_place test_piece self in
      let! more := moves_at new_piece shape test_piece rest self in
      Val (if legal then Piece_set_anchor (new_piece shape) a :: more
           else more)
  end.

(** The outer loop, over the remaining shapes of the current player. *)
Fixpoint moves_of (new_piece : Shape.t -> Piece.t)
    (kinds : list ShapeKind.t) (self : Blokus) : res (list Piece.t) :=
  match kinds with
  | [] => Val []
  | shape_kind :: rest =>
      let! shape := shapes_get (_shapes self) shape_kind in
      let! here :=
        moves_at new_piece shape (new_piece shape) (anchors (_size self))
          self in
      let! more := moves_of new_piece rest self in
      Val (here ++ more)
  end.

Definition available_moves (new_piece : Shape.t -> Piece.t) (self : Blokus)
  : res (list Piece.t) :=
  let! kinds := remaining_shapes (_curr_player self) self in
  moves_of new_piece kinds self.

(** ** The bots and their simulation (src/bot.py) *)

(** [min(l)] *)
Definition py_min (l : list Z) : res Z :=
  match l with
  | [] => Exn (ValueError "min() arg is an empty sequence")
  | x :: r => Val (foldl Z.min x r)
  end.

(** The three bots of src/bot.py. *)
Inductive Bot := U_Bot | N_Bot | S_Bot.

(** What the bots need from outside: the constructor [Piece(shape)], the
    order in which Python iterates over the set of moves, and the pick of
    [random.choice]. *)
Record World := {
  new_piece : Shape.t -> Piece.t;
  set_order : list Piece.t -> list Piece.t;
  random_choice : list Piece.t -> Piece.t
}.

(** The loop that ends [U_Bot.place_piece] and [S_Bot.place_piece]: the first
    piece with [target] squares is placed, and the method returns. *)
Fixpoint place_first (fuel : nat) (target : Z) (moves : list Piece.t)
  : M unit :=
  match moves with
  | [] => ret tt
  | piece :: rest =>
      let* sqs := read (fun _ => Piece.squares piece) in
      if len sqs =? target then
        let* _ := maybe_place fuel piece in
        ret tt
      else place_first fuel target rest
  end.

(** [bot.place_piece()] *)
Definition place_piece (w : World) (bot : Bot) (fuel : nat) : M unit :=
  let* available_moves := read (available_moves (new_piece w)) in
  if len available_moves =? 0 then retire fuel
  else
    match bot with
    | U_Bot =>
        let* smallest_piece :=
          read (fun _ =>
                  py_min ((fun piece => len (Shape.squares (Piece.shape piece)))
                            <$> set_order w available_moves)) in
        place_first fuel smallest_piece (set_order w available_moves)
    | S_Bot =>
        let* largest_piece :=
          read (fun _ =>
                  py_max ((fun piece => len (Shape.squares (Piece.shape piece)))
                            <$> set_order w available_moves)) in
        place_first fuel largest_piece (set_order w available_moves)
    | N_Bot =>
        let* _ :=
          maybe_place fuel
            (random_choice w (set_order w available_moves)) in
        ret tt
    end.

(** The bot for a strategy letter, [None] for any other string. *)
Definition bot_of_strategy (value : string) : option Bot :=
  if String.eqb value "S" then Some S_Bot
  else if String.eqb value "N" then Some N_Bot
  else if String.eqb value "U" then Some U_Bot
  else None.

(** [bot_objects.get(player)] for [bots = {1: strategy_1, 2: strategy_2}]. *)
Definition bot_object (strategy_1 strategy_2 : string) (player : Z)
  : option Bot :=
  if player =? 1 then bot_of_strategy strategy_1
  else if player =? 2 then bot_of_strategy strategy_2
  else None.

(** How a simulated game ends: the loop is left with the game over, the
    [assert] on the bot fails, a call raises, or the turns run out. *)
Inductive Simulation :=
| GameOver (self : Blokus)
| AssertionError (self : Blokus)
| Crashed (e : PyError) (self : Blokus)
| StillPlaying.

(** The loop [while not bot_blokus.game_over] of [run_bot_simulation], run
    for at most [turns] turns. *)
Fixpoint play (w : World) (strategy_1 strategy_2 : string) (fuel : nat)
    (turns : nat) (self : Blokus) : Simulation :=
  match turns with
  | O => StillPlaying
  | S turns' =>
      match game_over self with
      | Returned true self' => GameOver self'
      | Returned false self' =>
          match bot_object strategy_1 strategy_2 (_curr_player self') with
          | None => AssertionError self'
          | Some bot =>
              match place_piece w bot fuel self' with
              | Returned _ self'' =>
                  play w strategy_1 strategy_2 fuel turns' self''
              | Raised e self'' => Crashed e self''
              | OutOfFuel => StillPlaying
              end
          end
      | Raised e self' => Crashed e self'
      | OutOfFuel => StillPlaying
      end
  end.

(** ** The command line of the interface (src/tui.py) *)

(** The arguments [run_tui] hands to [Blokus]: those of the game mode when
    no start position was given (an empty set is falsy), its own
    otherwise. *)
Definition run_tui_args (game : string) (num_players size : Z)
    (start_positions : gset Point) : Z * Z * gset Point :=
  if decide (start_positions = ∅) then
    if String.eqb game "mono" then (1, 11, {[ (5, 5) ]})
    else if String.eqb game "duo" then (2, 14, {[ (4, 4); (9, 9) ]})
    else if String.eqb game "classic-2" then (2, 20, {[ (0, 0); (19, 19) ]})
    else if String.eqb game "classic-3" then
      (3, 20, {[ (0, 0); (19, 0); (0, 19) ]})
    else if String.eqb game "classic-4" then
      (4, 20, {[ (0, 0); (19, 0); (0, 19); (19, 19) ]})
    else if String.eqb game "mini" then
      (if num_players =? 1 then 1 else 2, 5, {[ (0, 0); (4, 4) ]})
    else (num_players, size, start_positions)
  else (num_players, size, start_positions).

(** The game [run_tui] builds, or the error of the constructor. *)
Definition run_tui_blokus (definitions : list (ShapeKind.t * Shape.t))
    (game : string) (num_players size : Z) (start_positions : gset Point)
  : res Blokus :=
  let '(n, s, starts) := run_tui_args game num_players size start_positions in
  Blokus_init definitions n s starts.

(** The check of [main] on the start positions of the command line. *)
Fixpoint main_check (size : Z) (start_position : list Point) : res unit :=
  match start_position with
  | [] => Val tt
  | pos :: rest =>
      if negb ((0 <=? pos.1) && (pos.1 <? size) &&
               (0 <=? pos.2) && (pos.2 <? size)) then
        Exn (ValueError
               ("Start position (" +:+ str_int pos.1 +:+ ", " +:+
                str_int pos.2 +:+ ") must be within grid of size " +:+
                str_int size +:+ "."))
      else main_check size rest
  end.

(** The game [main] ends up building: its own check, then [run_tui] on the
    set of the positions. *)
Definition main_blokus (definitions : list (ShapeKind.t * Shape.t))
    (game : string) (num_players size : Z) (start_position : list Point)
  : res Blokus :=
  let! _ := main_check size start_position in
  run_tui_blokus definitions game num_players size
    (list_to_set start_position).

(** ** The vocabulary of the statements *)

(** The cell of a grid at a point of non-negative coordinates. *)
Definition cell_at (g : Grid) (q : Point) : option Cell :=
  if (0 <=? q.1) && (0 <=? q.2) then
    match g !! Z.to_nat q.1 with
    | Some row => row !! Z.to_nat q.2
    | None => None
    end
  else None.

(** The grid of a game is a square of side [_size]. *)
Definition grid_ok (self : Blokus) : Prop :=
  1 <= _size self ∧
  length (_grid self) = Z.to_nat (_size self) ∧
  Forall (fun row : list Cell => length row = Z.to_nat (_size self))
         (_grid self).

(** [player] owns the cell at [q]. *)
Definition occupied_by (self : Blokus) (player : Z) (q : Point) : Prop :=
  ∃ kind, cell_at (_grid self) q = Some (Some (player, kind)).

(** A player who takes no further turn: retired, or out of shapes. *)
Definition stuck (self : Blokus) (p : Z) : Prop :=
  (p ∈ _retired self) ∨ remaining_shapes p self = Val [].

(** A player who can still take a turn. *)
Definition playable (self : Blokus) (p : Z) : Prop :=
  (p ∉ _retired self) ∧ ∃ rs, remaining_shapes p self = Val rs ∧ rs ≠ [].

(** Every player of the game has a played-list. *)
Definition players_ok (self : Blokus) : Prop :=
  ∀ p, 1 <= p <= _num_players self -> is_Some (_shapes_played self !! p).

(** The player after [c] in a game of [n], cyclically and counting from 1. *)
Definition next_player (n c : Z) : Z := c mod n + 1.

(** [self'] is [self] up to the cursor. *)
Definition frame_cursor (self self' : Blokus) : Prop :=
  self' = with_curr_player (_curr_player self') self.

(** Every occupant of [g] is still the occupant in [g']. *)
Definition grid_stable (g g' : Grid) : Prop :=
  ∀ q o, cell_at g q = Some (Some o) -> cell_at g' q = Some (Some o).

(** What no call changes: the number of players, the size, the catalogue,
    the shape of the grid and the players who have a played-list; and no
    occupant is lost. *)
Definition keeps_board (self self' : Blokus) : Prop :=
  _num_players self' = _num_players self ∧
  _size self' = _size self ∧
  _shapes self' = _shapes self ∧
  length <$> _grid self' = length <$> _grid self ∧
  (∀ p, is_Some (_shapes_played self !! p) ->
        is_Some (_shapes_played self' !! p)) ∧
  grid_stable (_grid self) (_grid self').

(** One iteration of the loop of [progress_turn] per player, and one at
    least. *)
Definition enough_fuel (fuel : nat) (self : Blokus) : Prop :=
  (1 <= fuel)%nat ∧ (Z.to_nat (_num_players self) <= fuel)%nat.

(** A call keeps the board however it ends, and ends when [enough]. *)
Definition ends_keeping {A} (self : Blokus) (enough : Prop) (o : Outcome A)
  : Prop :=
  (∀ self', final o = Some self' -> keeps_board self self') ∧
  (enough -> is_Some (final o)).

(** A well-formed game: one to four players, a played-list for each, a
    square grid. *)
Definition game_ok (self : Blokus) : Prop :=
  1 <= _num_players self <= 4 ∧ players_ok self ∧ grid_ok self.

(** The number of squares of the shape of a kind. *)
Definition square_count (self : Blokus) (k : ShapeKind.t) : Z :=
  match shapes_get (_shapes self) k with
  | Val sh => len (Shape.squares sh)
  | Exn _ => 0
  end.

Definition total_squares (self : Blokus) (ks : list ShapeKind.t) : Z :=
  foldr (fun k acc => square_count self k + acc) 0 ks.

(** The catalogue of the game defines every kind, with a square at least. *)
Definition catalog_ok (self : Blokus) : Prop :=
  ∀ k, ∃ sh, shapes_get (_shapes self) k = Val sh ∧ Shape.squares sh ≠ [].

(** The score of a player, when [get_score] returns one. *)
Definition score_of (self : Blokus) (p : Z) : Z :=
  match get_score p self with
  | Val v => v
  | Exn _ => 0
  end.

(** What the round trip keeps of a cell: the player. *)
Definition relabel_cell (k : ShapeKind.t) (cell : Cell) : Cell :=
  match cell with
  | Some (p, _) => Some (p, k)
  | None => None
  end.

Definition relabel (k : ShapeKind.t) (g : Grid) : Grid :=
  map (map (relabel_cell k)) g.

(** The player of an occupied cell is written with one digit. *)
Definition digit_cell (cell : Cell) : Prop :=
  match cell with
  | Some (p, _) => 0 <= p <= 9
  | None => True
  end.

Definition digit_grid (g : Grid) : Prop := Forall (Forall digit_cell) g.

(** The character a cell is written with. *)
Definition cell_char (cell : Cell) : ascii :=
  match cell with
  | Some (p, _) => ascii_of_nat (Z.to_nat (48 + p))
  | None => space
  end.

Fixpoint cells_str (row : list Cell) : string :=
  match row with
  | [] => ""
  | cell :: rest => String (cell_char cell) (String space (cells_str rest))
  end.

Definition line_of_row (row : list Cell) : string :=
  String "|" (cells_str row +:+ "|").

Fixpoint no_char (c : ascii) (s : string) : Prop :=
  match s with
  | EmptyString => True
  | String d s' => d ≠ c ∧ no_char c s'
  end.

(** A point of a board of side [size]. *)
Definition in_bounds (size : Z) (q : Point) : Prop :=
  0 <= q.1 < size ∧ 0 <= q.2 < size.

(** [g[x][y] = v] on a grid, for indices that are not negative. *)
Definition grid_write (v : Cell) (g : Grid) (q : Point) : Grid :=
  match g !! Z.to_nat q.1 with
  | Some row => <[Z.to_nat q.1 := <[Z.to_nat q.2 := v]> row]> g
  | None => g
  end.

Definition grid_writes (v : Cell) (g : Grid) (sqs : list Point) : Grid :=
  foldl (grid_write v) g sqs.

(** The game once the current player has put a piece of [kind] on [sqs],
    before the turn moves on. *)
Definition placed_state (self : Blokus) (kind : ShapeKind.t)
    (sqs : list Point) (pl : list ShapeKind.t) : Blokus :=
  with_shapes_played
    (<[_curr_player self := pl ++ [kind]]> (_shapes_played self))
    (with_grid
       (grid_writes (Some (_curr_player self, kind)) (_grid self) sqs) self).

(** The game once the current player has retired, before the turn moves
    on. *)
Definition retired_state (self : Blokus) : Blokus :=
  with_retired ({[_curr_player self]} ∪ _retired self) self.

(** What one call makes of a game: nothing, a move of the turn, a
    retirement and a move of the turn, or a legal placement and a move of
    the turn. *)
Inductive step (self self' : Blokus) : Prop :=
| step_none : self' = self -> step self self'
| step_turn fuel :
    final (progress_turn fuel self) = Some self' -> step self self'
| step_retire fuel :
    final (progress_turn fuel (retired_state self)) = Some self' ->
    step self self'
| step_place fuel piece sqs pl :
    _curr_player self ∉ _retired self ->
    legal_to_place piece self = Val true ->
    Piece.squares piece = Val sqs ->
    _shapes_played self !! _curr_player self = Some pl ->
    final (progress_turn fuel
             (placed_state self (Shape.kind (Piece.shape piece)) sqs pl)) =
      Some self' ->
    step self self'.

(** The cursor is on a player of the game, one who can play unless nobody
    can. *)
Definition cursor_ok (self : Blokus) : Prop :=
  1 <= _curr_player self <= _num_players self ∧
  (playable self (_curr_player self) ∨
   ∀ p, 1 <= p <= _num_players self -> stuck self p).

(** The record of the game: who retired, what was played, what lies on the
    grid. *)
Definition record_ok (self : Blokus) : Prop :=
  (∀ p, p ∈ _retired self -> 1 <= p <= _num_players self) ∧
  (∀ p pl, _shapes_played self !! p = Some pl ->
     1 <= p <= _num_players self ∧ NoDup pl ∧
     ∀ k, k ∈ pl -> k ∈ map fst (_shapes self)) ∧
  (∀ q p k, cell_at (_grid self) q = Some (Some (p, k)) ->
     ∃ pl, _shapes_played self !! p = Some pl ∧ k ∈ pl).

(** What a call may add to the record: retired players, and kinds at the
    end of played-lists. *)
Definition record_grows (self self' : Blokus) : Prop :=
  _retired self ⊆ _retired self' ∧
  ∀ p pl, _shapes_played self !! p = Some pl ->
    ∃ more, _shapes_played self' !! p = Some (pl ++ more).

(** The invariant of the games one can reach. *)
Definition invariant (self : Blokus) : Prop :=
  game_ok self ∧ cursor_ok self ∧ record_ok self.

(** The catalogue files every shape under its own kind. *)
Definition catalog_keyed (self : Blokus) : Prop :=
  ∀ k sh, shapes_get (_shapes self) k = Val sh -> Shape.kind sh = k.

(** The world behaves: a new piece is of its shape, with as many offsets as
    the shape has squares; iterating over a set visits its members; a random
    choice is one of the candidates. *)
Definition world_ok (w : World) : Prop :=
  (∀ sh, Piece.shape (new_piece w sh) = sh) ∧
  (∀ sh, length (Piece.orientation (new_piece w sh)) =
         length (Shape.squares sh)) ∧
  (∀ l p, p ∈ set_order w l ↔ p ∈ l) ∧
  (∀ l, l ≠ [] -> random_choice w l ∈ l).

(** The number of squares of the shape of a piece. *)
Definition piece_size (p : Piece.t) : Z := len (Shape.squares (Piece.shape p)).

(** What is left to do for a player: nothing once retired, else one turn to
    retire in and one per remaining shape. *)
Definition turns_left_of (self : Blokus) (p : Z) : nat :=
  if decide (p ∈ _retired self) then 0%nat
  else
    match remaining_shapes p self with
    | Val rs => S (length rs)
    | Exn _ => 0%nat
    end.

Definition turns_left (self : Blokus) : nat :=
  sum_list_with (turns_left_of self) (seqZ 1 (_num_players self)).

(** The six game modes the command line of src/tui.py accepts. *)
Definition game_modes : list string :=
  ["mini"; "mono"; "duo"; "classic-2"; "classic-3"; "classic-4"].

(** No cell of the grid is occupied. *)
Definition empty_cell (cell : Cell) : bool :=
  match cell with
  | None => true
  | Some _ => false
  end.

Definition empty_grid (g : Grid) : bool := forallb (forallb empty_cell) g.

(** The border of the text of a grid: two dashes for every cell of the first
    row, between two plus signs. *)
Definition border_line (g : Grid) : string :=
  "+" +:+ str_repeat "-" (2 * match g with
                               | row :: _ => len row
                               | [] => 0
                               end) +:+ "+".

(** ** Checkers for the conditions on a game *)

Definition grid_okb (self : Blokus) : bool :=
  (1 <=? _size self) &&
  (length (_grid self) =? Z.to_nat (_size self))%nat &&
  forallb (fun row : list Cell =>
             (length row =? Z.to_nat (_size self))%nat) (_grid self).

Definition players_okb (self : Blokus) : bool :=
  forallb (fun p => bool_decide (is_Some (_shapes_played self !! p)))
          (seqZ 1 (_num_players self)).

Definition all_kinds : list ShapeKind.t :=
  [ ShapeKind.ONE; ShapeKind.TWO; ShapeKind.THREE; ShapeKind.C;
    ShapeKind.FOUR; ShapeKind.SEVEN; ShapeKind.S; ShapeKind.LETTER_O;
    ShapeKind.A; ShapeKind.F; ShapeKind.FIVE; ShapeKind.L; ShapeKind.N;
    ShapeKind.P; ShapeKind.T; ShapeKind.U; ShapeKind.V; ShapeKind.W;
    ShapeKind.X; ShapeKind.Y; ShapeKind.Z ].

Definition catalog_okb (self : Blokus) : bool :=
  forallb (fun k =>
             match shapes_get (_shapes self) k with
             | Val sh => negb (len (Shape.squares sh) =? 0)
             | Exn _ => false
             end) all_kinds.

Definition catalog_keyedb (d : list (ShapeKind.t * Shape.t)) : bool :=
  forallb (fun k =>
             match shapes_get d k with
             | Val sh => bool_decide (Shape.kind sh = k)
             | Exn _ => true
             end) all_kinds.

(** ** Games to run the statements on *)

Definition sample_shape (k : ShapeKind.t) (sqs : list Point)
  : ShapeKind.t * Shape.t :=
  (k, {| Shape.kind := k; Shape.squares := sqs |}).

(** A catalogue of the twenty-one kinds (the layouts are the usual
    polyominoes; the table of the repository is not among the sources). *)
Definition sample_definitions : list (ShapeKind.t * Shape.t) :=
  [ sample_shape ShapeKind.ONE [(0, 0)];
    sample_shape ShapeKind.TWO [(0, 0); (0, 1)];
    sample_shape ShapeKind.THREE [(0, 0); (0, 1); (0, 2)];
    sample_shape ShapeKind.C [(0, 0); (0, 1); (1, 0)];
    sample_shape ShapeKind.FOUR [(0, 0); (0, 1); (0, 2); (0, 3)];
    sample_shape ShapeKind.SEVEN [(0, 0); (0, 1); (1, 1); (2, 1)];
    sample_shape ShapeKind.S [(0, 1); (0, 2); (1, 0); (1, 1)];
    sample_shape ShapeKind.LETTER_O [(0, 0); (0, 1); (1, 0); (1, 1)];
    sample_shape ShapeKind.A [(0, 1); (1, 0); (1, 1); (1, 2)];
    sample_shape ShapeKind.F [(0, 1); (0, 2); (1, 0); (1, 1); (2, 1)];
    sample_shape ShapeKind.FIVE [(0, 0); (1, 0); (2, 0); (3, 0); (4, 0)];
    sample_shape ShapeKind.L [(0, 0); (1, 0); (2, 0); (3, 0); (3, 1)];
    sample_shape ShapeKind.N [(0, 1); (1, 1); (2, 0); (2, 1); (3, 0)];
    sample_shape ShapeKind.P [(0, 0); (0, 1); (1, 0); (1, 1); (2, 0)];
    sample_shape ShapeKind.T [(0, 0); (0, 1); (0, 2); (1, 1); (2, 1)];
    sample_shape ShapeKind.U [(0, 0); (0, 2); (1, 0); (1, 1); (1, 2)];
    sample_shape ShapeKind.V [(0, 2); (1, 2); (2, 0); (2, 1); (2, 2)];
    sample_shape ShapeKind.W [(0, 2); (1, 1); (1, 2); (2, 0); (2, 1)];
    sample_shape ShapeKind.X [(0, 1); (1, 0); (1, 1); (1, 2); (2, 1)];
    sample_shape ShapeKind.Y [(0, 1); (1, 0); (1, 1); (2, 1); (3, 1)];
    sample_shape ShapeKind.Z [(0, 0); (0, 1); (1, 1); (2, 1); (2, 2)] ].

(** A fresh game of two on a board of five, as the constructor makes it. *)
Definition game0 : Blokus :=
  {| _num_players := 2;
     _start_positions := {[ (0, 0); (4, 4) ]};
     _size := 5;
     _curr_player := 1;
     _shapes := sample_definitions;
     _shapes_played := {[ 1 := []; 2 := [] ]};
     _grid := replicate 5 (replicate 5 None);
     _retired := ∅ |}.

(** A piece of a kind of the catalogue, in the orientation of the
    definition. *)
Definition sample_piece (k : ShapeKind.t) (a : option Point) : Piece.t :=
  match shapes_get sample_definitions k with
  | Val sh => {| Piece.shape := sh; Piece.orientation := Shape.squares sh;
                 Piece.anchor := a |}
  | Exn _ => {| Piece.shape := {| Shape.kind := k; Shape.squares := [] |};
                Piece.orientation := []; Piece.anchor := a |}
  end.

(** The game a call leaves behind. *)
Definition after {A} (o : Outcome A) (self : Blokus) : Blokus :=
  match final o with
  | Some self' => self'
  | None => self
  end.

(** Both players have put their one-square shape on their corner. *)
Definition game1 : Blokus :=
  after (maybe_place 2 (sample_piece ShapeKind.ONE (Some (4, 4)))
           (after (maybe_place 2 (sample_piece ShapeKind.ONE (Some (0, 0)))
                     game0) game0)) game0.

(** Player 1 has retired and it is (still) the turn of player 1. *)
Definition game_retired1 : Blokus := with_retired {[ 1 ]} game0.

(** Both players have retired; the cursor is on player 1, where [retire]
    by player 2 puts it before its loop asks [game_over]. *)
Definition both_retired : Blokus :=
  with_curr_player 1 (with_retired {[ 1; 2 ]} game0).

(** The shapes the current player still holds. *)
Definition held (self : Blokus) : list ShapeKind.t :=
  match remaining_shapes (_curr_player self) self with
  | Val rs => rs
  | Exn _ => []
  end.

(** A world for the bots: a new piece lies as its shape is defined, a set
    is visited in the order its members were added, and the random pick is
    the first candidate. *)
Definition world0 : World :=
  {| new_piece := fun sh =>
       {| Piece.shape := sh; Piece.orientation := Shape.squares sh;
          Piece.anchor := None |};
     set_order := fun l => l;
     random_choice := fun l =>
       match l with
       | p :: _ => p
       | [] => sample_piece ShapeKind.ONE None
       end |}.

(** A grid of one row, with a free cell and a cell of player 2. *)
Definition sample_grid : Grid := [[None; Some (2, ShapeKind.ONE)]].


(** ** Facts about the run time *)

Lemma res_bind_val {A B} (m : res A) (k : A -> res B) (b : B) :
  res_bind m k = Val b ↔ ∃ a, m = Val a ∧ k a = Val b.
Proof.
  destruct m as [a|e]; simpl; split.
  - eauto.
  - intros (a' & [= <-] & Hk). exact Hk.
  - discriminate.
  - intros (a' & [=] & _).
Qed.

Lemma py_index_nonneg {A} (l : list A) (i : Z) (a : A) :
  0 <= i -> py_index l i = Val a ↔ l !! Z.to_nat i = Some a.
Proof.
  intros Hi. unfold py_index, py_norm_index, len.
  destruct (Z.ltb_spec i 0) as [?|_]; [lia|].
  destruct (Z.leb_spec 0 i); [|lia]. simpl.
  destruct (Z.ltb_spec i (Z.of_nat (length l))) as [Hlt|Hge]; simpl.
  - destruct (l !! Z.to_nat i) eqn:E; split; congruence.
  - split; [discriminate|]. intros Hl. apply lookup_lt_Some in Hl. lia.
Qed.

Lemma grid_at_cell_at (g : Grid) (q : Point) (c : Cell) :
  0 <= q.1 -> 0 <= q.2 -> grid_at g q = Val c ↔ cell_at g q = Some c.
Proof.
  intros H1 H2. unfold grid_at, cell_at.
  destruct (Z.leb_spec 0 q.1); [|lia]. destruct (Z.leb_spec 0 q.2); [|lia].
  simpl. rewrite res_bind_val. split.
  - intros (row & Hrow & Hc). apply py_index_nonneg in Hrow; [|done].
    rewrite Hrow. by apply py_index_nonneg in Hc.
  - destruct (g !! Z.to_nat q.1) as [row|] eqn:E; [|discriminate].
    intros Hc. exists row. split; by apply py_index_nonneg.
Qed.

Lemma clamp_range (size v : Z) : 1 <= size -> 0 <= clamp size v < size.
Proof. unfold clamp. lia. Qed.

Lemma grid_ok_cell_at (self : Blokus) (q : Point) :
  grid_ok self -> 0 <= q.1 < _size self -> 0 <= q.2 < _size self ->
  ∃ c, cell_at (_grid self) q = Some c.
Proof.
  intros (Hs & Hlen & Hrows) H1 H2. unfold cell_at.
  destruct (Z.leb_spec 0 q.1); [|lia]. destruct (Z.leb_spec 0 q.2); [|lia].
  simpl.
  destruct (lookup_lt_is_Some_2 (_grid self) (Z.to_nat q.1)) as [row Hrow];
    [lia|].
  rewrite Hrow. apply lookup_lt_is_Some_2.
  rewrite Forall_forall in Hrows.
  rewrite (Hrows row); [lia|]. by eapply list_elem_of_lookup_2.
Qed.

Lemma owned_by_true (player : Z) (c : Cell) :
  owned_by player c = true ↔ ∃ kind, c = Some (player, kind).
Proof.
  destruct c as [[p k]|]; simpl.
  - rewrite Z.eqb_eq. split; [intros ->; eauto | intros (? & [= -> _]); done].
  - split; [discriminate | intros (? & [=])].
Qed.

Lemma grid_at_clamped (self : Blokus) (q : Point) :
  grid_ok self ->
  ∃ c, grid_at (_grid self) (clamp_point (_size self) q) = Val c ∧
       (owned_by (_curr_player self) c = true ↔
        occupied_by self (_curr_player self) (clamp_point (_size self) q)).
Proof.
  intros Hok. pose proof Hok as (Hs & _).
  pose proof (clamp_range (_size self) q.1 Hs) as H1.
  pose proof (clamp_range (_size self) q.2 Hs) as H2.
  destruct (grid_ok_cell_at self (clamp_point (_size self) q) Hok H1 H2)
    as [c Hc].
  exists c. split.
  - apply grid_at_cell_at; simpl; [lia | lia | done].
  - rewrite owned_by_true. unfold occupied_by. rewrite Hc.
    split; intros [k Hk]; exists k; congruence.
Qed.

Lemma edges_rule_spec (self : Blokus) (edges : list Point) :
  grid_ok self ->
  ∃ hit, edges_rule self edges = Val hit ∧
    (hit = true ↔
     ∃ q, q ∈ edges ∧
          occupied_by self (_curr_player self) (clamp_point (_size self) q)).
Proof.
  intros Hok. induction edges as [|q rest IH]; simpl.
  - exists false. split; [done|]. split; [done|]. intros (q & Hq & _).
    by apply not_elem_of_nil in Hq.
  - destruct (grid_at_clamped self q Hok) as (c & -> & Hc). simpl.
    destruct (owned_by (_curr_player self) c) eqn:E.
    + exists true. split; [done|]. split; [|done]. intros _.
      exists q. split; [left|]. by apply Hc.
    + destruct IH as (hit & -> & IH). exists hit. split; [done|].
      rewrite IH. split.
      * intros (q' & Hq' & Ho). exists q'. split; [by right | done].
      * intros (q' & Hq' & Ho). apply elem_of_cons in Hq' as [->|Hq'].
        -- apply Hc in Ho. congruence.
        -- eauto.
Qed.

Lemma corners_rule_spec (self : Blokus) (corners : list Point) (acc : bool) :
  grid_ok self ->
  ∃ t, corners_rule self corners acc = Val t ∧
    (t = true ↔
     acc = true ∨
     ∃ q, q ∈ corners ∧
          occupied_by self (_curr_player self) (clamp_point (_size self) q)).
Proof.
  intros Hok. revert acc. induction corners as [|q rest IH]; intros acc; simpl.
  - exists acc. split; [done|]. split; [by left|]. intros [?|(q & Hq & _)];
      [done|]. by apply not_elem_of_nil in Hq.
  - destruct (grid_at_clamped self q Hok) as (c & -> & Hc). simpl.
    destruct (owned_by (_curr_player self) c) eqn:E.
    + destruct (IH true) as (t & -> & Ht). exists t. split; [done|].
      rewrite Ht. split; [|by left]. intros _. right. exists q.
      split; [left|]. by apply Hc.
    + destruct (IH acc) as (t & -> & Ht). exists t. split; [done|].
      rewrite Ht. split.
      * intros [?|(q' & Hq' & Ho)]; [by left|]. right. exists q'.
        split; [by right | done].
      * intros [?|(q' & Hq' & Ho)]; [by left|].
        apply elem_of_cons in Hq' as [->|Hq'].
        -- apply Hc in Ho. congruence.
        -- right. eauto.
Qed.

Lemma start_loop_spec (starts : gset Point) (sqs : list Point) (acc : bool) :
  start_loop starts sqs acc = true ↔ acc = true ∨ ∃ q, q ∈ sqs ∧ q ∈ starts.
Proof.
  revert acc. induction sqs as [|q rest IH]; intros acc; simpl.
  - split; [by left|]. intros [?|(q & Hq & _)]; [done|].
    by apply not_elem_of_nil in Hq.
  - case_bool_decide as Hq; rewrite IH.
    + split; [|by left]. intros _. right. exists q. split; [left | done].
    + split.
      * intros [?|(q' & Hq' & Hs)]; [by left|]. right. exists q'.
        split; [by right | done].
      * intros [?|(q' & Hq' & Hs)]; [by left|].
        apply elem_of_cons in Hq' as [->|Hq']; [done|]. right. eauto.
Qed.

(** ** Legality of a placement *)

Lemma any_collisions_checked (piece : Piece.t) (self : Blokus) (b : bool) :
  any_collisions piece self = Val b -> check_piece piece self = Val tt.
Proof.
  unfold any_collisions. rewrite res_bind_val. intros ([] & H & _). exact H.
Qed.

Lemma squares_anchored (piece : Piece.t) :
  is_Some (Piece.anchor piece) -> ∃ sqs, Piece.squares piece = Val sqs.
Proof. intros [a Ha]. unfold Piece.squares. rewrite Ha. eauto. Qed.

(** C1.  Once the current player has played a shape, a piece that is
    anchored, of a kind the player still holds and free of collisions is
    legal to place exactly when no cardinal neighbour of the piece, clamped
    componentwise into [0, size-1], is a cell of the current player, and some
    intercardinal neighbour, clamped the same way, is. *)
Theorem legal_to_place_after_first_move
    (self : Blokus) (piece : Piece.t) (played rs : list ShapeKind.t) :
  grid_ok self ->
  _shapes_played self !! _curr_player self = Some played ->
  played ≠ [] ->
  is_Some (Piece.anchor piece) ->
  remaining_shapes (_curr_player self) self = Val rs ->
  Shape.kind (Piece.shape piece) ∈ rs ->
  any_collisions piece self = Val false ->
  ∃ edges corners legal,
    Piece.cardinal_neighbors piece = Val edges ∧
    Piece.intercardinal_neighbors piece = Val corners ∧
    legal_to_place piece self = Val legal ∧
    (legal = true ↔
     (∀ q, q ∈ edges ->
        ¬ occupied_by self (_curr_player self)
            (clamp_point (_size self) q)) ∧
     (∃ q, q ∈ corners ∧
        occupied_by self (_curr_player self)
          (clamp_point (_size self) q))).
Proof.
  intros Hok Hplayed Hne Hanchor Hrs Hkind Hcol.
  destruct (squares_anchored piece Hanchor) as [sqs Hsqs].
  assert (Hcard : ∃ edges, Piece.cardinal_neighbors piece = Val edges)
    by (unfold Piece.cardinal_neighbors; rewrite Hsqs; simpl; eauto).
  destruct Hcard as [edges Hedges].
  assert (Hinter : ∃ corners,
             Piece.intercardinal_neighbors piece = Val corners)
    by (unfold Piece.intercardinal_neighbors; rewrite Hsqs, Hedges;
        simpl; eauto).
  destruct Hinter as [corners Hcorners].
  destruct (edges_rule_spec self edges Hok) as (hit & Hhit & Hhit_iff).
  destruct (corners_rule_spec self corners false Hok)
    as (t & Ht & Ht_iff).
  exists edges, corners, (negb hit && t). split; [done|]. split; [done|].
  split.
  - unfold legal_to_place.
    rewrite (any_collisions_checked _ _ _ Hcol), Hcol. simpl.
    unfold dict_get. rewrite Hplayed. simpl.
    destruct played as [|k played']; [done|].
    replace (len (k :: played') <=? 0) with false
      by (symmetry; apply Z.leb_gt; unfold len; simpl; lia).
    rewrite Hedges, Hcorners. simpl. rewrite Hhit. simpl.
    destruct hit; [done|]. rewrite Ht. simpl. by destruct t.
  - rewrite andb_true_iff, negb_true_iff, Ht_iff. split.
    + intros [Hh [?|Hc]]; [done|]. split; [|done].
      intros q Hq Ho. assert (hit = true) by (apply Hhit_iff; eauto).
      congruence.
    + intros [He Hc]. split; [|by right].
      destruct hit; [|done]. destruct Hhit_iff as [Hex _].
      destruct (Hex eq_refl) as (q & Hq & Ho). by destruct (He q Hq).
Qed.

(** C2.  Before the current player has played any shape, a piece that is
    anchored, of a kind the player still holds and free of collisions is
    legal to place exactly when one of its squares is a start position of the
    game. *)
Theorem legal_to_place_first_move
    (self : Blokus) (piece : Piece.t) (rs : list ShapeKind.t) :
  _shapes_played self !! _curr_player self = Some [] ->
  is_Some (Piece.anchor piece) ->
  remaining_shapes (_curr_player self) self = Val rs ->
  Shape.kind (Piece.shape piece) ∈ rs ->
  any_collisions piece self = Val false ->
  ∃ sqs legal,
    Piece.squares piece = Val sqs ∧
    legal_to_place piece self = Val legal ∧
    (legal = true ↔ ∃ q, q ∈ sqs ∧ q ∈ _start_positions self).
Proof.
  intros Hplayed Hanchor Hrs Hkind Hcol.
  destruct (squares_anchored piece Hanchor) as [sqs Hsqs].
  exists sqs, (start_loop (_start_positions self) sqs false).
  split; [done|]. split.
  - unfold legal_to_place.
    rewrite (any_collisions_checked _ _ _ Hcol), Hcol. simpl.
    unfold dict_get. rewrite Hplayed. simpl. rewrite Hsqs. simpl.
    by destruct (start_loop _ _ _).
  - rewrite start_loop_spec. split; [intros [?|?]; done | by right].
Qed.

(** ** The scan of [game_over] *)

Lemma with_curr_player_id (self : Blokus) :
  with_curr_player (_curr_player self) self = self.
Proof. by destruct self. Qed.

Lemma len_le_0 {A} (l : list A) : (len l <=? 0) = true ↔ l = [].
Proof.
  unfold len. destruct l; simpl; [done|]. split; [|done].
  intros H. apply Z.leb_le in H. lia.
Qed.

Lemma playable_not_stuck (self : Blokus) (p : Z) :
  playable self p -> ¬ stuck self p.
Proof.
  intros [Hr (rs & Hrs & Hne)] [?|Hs]; [done|]. congruence.
Qed.

Lemma game_over_loop_spec (cur : Z) (players : list Z) (self : Blokus) :
  match game_over_loop cur players self with
  | Returned false self' =>
      self' = with_curr_player cur self ∧
      ∃ p, p ∈ players ∧ playable self p
  | Returned true self' =>
      self' = match last players with
              | Some p => with_curr_player p self
              | None => self
              end ∧
      ∀ p, p ∈ players -> stuck self p
  | Raised e self' =>
      ∃ p, p ∈ players ∧ self' = with_curr_player p self ∧
           (p ∉ _retired self) ∧ remaining_shapes p self = Exn e
  | OutOfFuel => False
  end.
Proof.
  revert self. induction players as [|p rest IH]; intros self.
  - simpl. split; [done|]. intros p Hp. by apply not_elem_of_nil in Hp.
  - assert (Hlast : ∀ s : Blokus,
               match last rest with
               | Some q => with_curr_player q (with_curr_player p s)
               | None => with_curr_player p s
               end =
               match last (p :: rest) with
               | Some q => with_curr_player q s
               | None => s
               end).
    { intros s. destruct rest as [|q rest']; [done|].
      change (last (p :: q :: rest')) with (last (q :: rest')).
      destruct (last (q :: rest')) eqn:E; [done|].
      by apply last_None in E. }
    simpl. unfold bind at 1, assign at 1. unfold bind at 1, get at 1.
    change (_retired (with_curr_player p self)) with (_retired self).
    case_bool_decide as Hret.
    + specialize (IH (with_curr_player p self)).
      destruct (game_over_loop cur rest (with_curr_player p self))
        as [[] s'|e s'|]; [| | |done].
      * destruct IH as [-> Hall]. split; [apply Hlast|].
        intros q [->|Hq]%elem_of_cons; [by left | by apply Hall].
      * destruct IH as [-> (q & Hq & Hplay)]. split; [done|].
        exists q. split; [by right | done].
      * destruct IH as (q & Hq & -> & Hnr & He). exists q.
        split; [by right | done].
    + unfold bind at 1, read at 1.
      change (remaining_shapes p (with_curr_player p self))
        with (remaining_shapes p self).
      destruct (remaining_shapes p self) as [rs|e] eqn:Hrs.
      * destruct (len rs <=? 0) eqn:Hlen.
        -- apply len_le_0 in Hlen as ->.
           specialize (IH (with_curr_player p self)).
           destruct (game_over_loop cur rest (with_curr_player p self))
             as [[] s'|e s'|]; [| | |done].
           ++ destruct IH as [-> Hall]. split; [apply Hlast|].
              intros q [->|Hq]%elem_of_cons; [by right | by apply Hall].
           ++ destruct IH as [-> (q & Hq & Hplay)]. split; [done|].
              exists q. split; [by right | done].
           ++ destruct IH as (q & Hq & -> & Hnr & He). exists q.
              split; [by right | done].
        -- simpl. split; [done|]. exists p. split; [left|].
           split; [done|]. exists rs. split; [done|]. intros ->.
           by rewrite (proj2 (len_le_0 [])) in Hlen.
      * exists p. split; [left | done].
Qed.

Lemma remaining_comp_played (played : gmap Z (list ShapeKind.t)) (player : Z)
    (pl : list ShapeKind.t) (keys : list ShapeKind.t) :
  played !! player = Some pl ->
  remaining_comp played player keys = Val (filter (fun k => k ∉ pl) keys).
Proof.
  intros Hpl. induction keys as [|k keys IH]; simpl; [done|].
  unfold dict_get. rewrite Hpl. simpl. rewrite IH. simpl.
  rewrite filter_cons. case_bool_decide; case_decide; done.
Qed.

Lemma remaining_shapes_played (self : Blokus) (player : Z)
    (pl : list ShapeKind.t) :
  _shapes_played self !! player = Some pl ->
  remaining_shapes player self =
  Val (filter (fun k => k ∉ pl) (map fst (_shapes self))).
Proof. apply remaining_comp_played. Qed.

Lemma players_ok_remaining (self : Blokus) (p : Z) :
  players_ok self -> 1 <= p <= _num_players self ->
  ∃ rs, remaining_shapes p self = Val rs.
Proof.
  intros Hok Hp. destruct (Hok p Hp) as [pl Hpl].
  rewrite (remaining_shapes_played _ _ _ Hpl). eauto.
Qed.

Lemma players_ok_playable_or_stuck (self : Blokus) (p : Z) :
  players_ok self -> 1 <= p <= _num_players self ->
  {playable self p} + {stuck self p}.
Proof.
  intros Hok Hp. destruct (decide (p ∈ _retired self)) as [Hr|Hr].
  - right. by left.
  - destruct (remaining_shapes p self) as [[|k rs]|e] eqn:Hrs.
    + right. by right.
    + left. split; [done|]. eauto.
    + exfalso. destruct (players_ok_remaining self p Hok Hp) as [rs Hrs'].
      congruence.
Defined.

Lemma last_seqZ (m n : Z) : 1 <= n -> last (seqZ m n) = Some (m + n - 1).
Proof.
  intros Hn. rewrite last_lookup, length_seqZ.
  rewrite lookup_seqZ_lt by lia. f_equal. lia.
Qed.

Lemma game_over_spec (self : Blokus) :
  match game_over self with
  | Returned false self' =>
      self' = self ∧ ∃ p, 1 <= p <= _num_players self ∧ playable self p
  | Returned true self' =>
      self' = (if 1 <=? _num_players self
               then with_curr_player (_num_players self) self else self) ∧
      ∀ p, 1 <= p <= _num_players self -> stuck self p
  | Raised e self' =>
      ∃ p, 1 <= p <= _num_players self ∧
           self' = with_curr_player p self ∧
           (p ∉ _retired self) ∧ remaining_shapes p self = Exn e
  | OutOfFuel => False
  end.
Proof.
  unfold game_over, bind, get, py_range.
  replace (_num_players self + 1 - 1) with (_num_players self) by lia.
  pose proof (game_over_loop_spec (_curr_player self)
                (seqZ 1 (_num_players self)) self) as H.
  destruct (game_over_loop _ _ self) as [[] s'|e s'|]; [| | |done].
  - destruct H as [-> Hall]. split.
    + destruct (Z.leb_spec 1 (_num_players self)).
      * rewrite last_seqZ by done. f_equal. lia.
      * by rewrite seqZ_nil by lia.
    + intros p Hp. apply Hall, elem_of_seqZ. lia.
  - destruct H as [-> (p & Hp & Hplay)]. split.
    + apply with_curr_player_id.
    + exists p. apply elem_of_seqZ in Hp. split; [lia | done].
  - destruct H as (p & Hp & -> & H). exists p. apply elem_of_seqZ in Hp.
    split; [lia | done].
Qed.

(** What evaluating [game_over] leaves of the object when it answers
    [False]: everything. *)
Lemma game_over_false_restores (self self' : Blokus) :
  game_over self = Returned false self' -> self' = self.
Proof.
  intros H. pose proof (game_over_spec self) as Hs. rewrite H in Hs.
  by destruct Hs.
Qed.

(** When it answers [True] the cursor stays where the scan ended, on the last
    player. *)
Lemma game_over_true_cursor (self self' : Blokus) :
  1 <= _num_players self ->
  game_over self = Returned true self' ->
  self' = with_curr_player (_num_players self) self.
Proof.
  intros Hn H. pose proof (game_over_spec self) as Hs. rewrite H in Hs.
  destruct Hs as [-> _]. by destruct (Z.leb_spec 1 (_num_players self));
    [|lia].
Qed.

(** ** Turn progression *)

Lemma next_player_range (n c : Z) : 1 <= n -> 1 <= next_player n c <= n.
Proof.
  intros Hn. unfold next_player.
  pose proof (Z.mod_pos_bound c n). lia.
Qed.

Lemma iter_next_player_range (n c : Z) (k : nat) :
  1 <= n -> 1 <= c <= n -> 1 <= Nat.iter k (next_player n) c <= n.
Proof.
  intros Hn Hc. destruct k as [|k]; simpl; [done|].
  by apply next_player_range.
Qed.

Lemma iter_next_player (n c : Z) (k : nat) :
  1 <= n -> 1 <= c <= n ->
  Nat.iter k (next_player n) c = (c - 1 + Z.of_nat k) mod n + 1.
Proof.
  intros Hn Hc. induction k as [|k IH].
  - simpl. rewrite Z.add_0_r, Z.mod_small by lia. lia.
  - simpl. rewrite IH. unfold next_player. f_equal.
    rewrite Zplus_mod_idemp_l. f_equal. lia.
Qed.

Lemma iter_next_player_reach (n c p : Z) :
  1 <= n -> 1 <= c <= n -> 1 <= p <= n ->
  ∃ k : nat, (k < Z.to_nat n)%nat ∧ Nat.iter k (next_player n) c = p.
Proof.
  intros Hn Hc Hp. exists (Z.to_nat ((p - c) mod n)).
  pose proof (Z.mod_pos_bound (p - c) n) as Hb. split; [lia|].
  rewrite iter_next_player by done. rewrite Z2Nat.id by lia.
  rewrite Zplus_mod_idemp_r.
  replace (c - 1 + (p - c)) with (p - 1) by lia.
  rewrite Z.mod_small by lia. lia.
Qed.

(** The least index at which a decidable property holds. *)
Lemma least_below (P : nat -> Prop) (n : nat) :
  (∀ k, {P k} + {¬ P k}) ->
  (∀ j, (j < n)%nat -> ¬ P j) ∨
  (∃ k, (k < n)%nat ∧ P k ∧ ∀ j, (j < k)%nat -> ¬ P j).
Proof.
  intros Hdec. induction n as [|n IH].
  - left. intros j Hj. lia.
  - destruct IH as [Hnone|(k & Hk & Hpk & Hleast)].
    + destruct (Hdec n) as [Hp|Hnp].
      * right. exists n. split; [lia | done].
      * left. intros j Hj. destruct (decide (j = n)) as [->|]; [done|].
        apply Hnone. lia.
    + right. exists k. split; [lia | done].
Qed.

Lemma advance_spec (self : Blokus) :
  _num_players self ≠ 0 ->
  advance self =
  Returned tt (with_curr_player
                 (next_player (_num_players self) (_curr_player self)) self).
Proof.
  intros Hn. unfold advance, bind, get, read, py_mod, assign.
  destruct (Z.eqb_spec (_num_players self) 0); done.
Qed.

(** The test of the loop on a player who can play: leave the loop. *)
Lemma progress_cond_playable (self : Blokus) :
  playable self (_curr_player self) ->
  progress_cond self = Returned false self.
Proof.
  intros [Hr (rs & Hrs & Hne)]. unfold progress_cond, bind, get, read.
  rewrite bool_decide_eq_false_2 by done. rewrite Hrs. simpl.
  destruct (len rs <=? 0) eqn:E; [|done]. by apply len_le_0 in E.
Qed.

(** The test of the loop on a stuck player: it is the answer of
    [game_over], negated. *)
Lemma progress_cond_stuck (self : Blokus) :
  stuck self (_curr_player self) ->
  progress_cond self = bind game_over (fun over => ret (negb over)) self.
Proof.
  intros Hs. unfold progress_cond. unfold bind at 1, get at 1.
  unfold bind at 1, get at 1. unfold bind at 1.
  destruct (decide (_curr_player self ∈ _retired self)) as [Hr|Hr].
  - by rewrite bool_decide_eq_true_2.
  - rewrite bool_decide_eq_false_2 by done. destruct Hs as [?|Hs]; [done|].
    unfold bind at 1, read. by rewrite Hs.
Qed.

Lemma game_over_playable (self : Blokus) (p : Z) :
  players_ok self -> 1 <= p <= _num_players self -> playable self p ->
  game_over self = Returned false self.
Proof.
  intros Hok Hp Hplay. pose proof (game_over_spec self) as H.
  destruct (game_over self) as [[] s'|e s'|]; [| | |done].
  - destruct H as [_ Hall]. by destruct (playable_not_stuck self p Hplay);
      auto.
  - by destruct H as [-> _].
  - destruct H as (q & Hq & _ & _ & He).
    destruct (players_ok_remaining self q Hok Hq). congruence.
Qed.

Lemma game_over_all_stuck (self : Blokus) :
  1 <= _num_players self ->
  (∀ p, 1 <= p <= _num_players self -> stuck self p) ->
  players_ok self ->
  game_over self = Returned true (with_curr_player (_num_players self) self).
Proof.
  intros Hn Hall Hok. pose proof (game_over_spec self) as H.
  destruct (game_over self) as [[] s'|e s'|]; [| | |done].
  - destruct H as [-> _]. by destruct (Z.leb_spec 1 (_num_players self));
      [|lia].
  - destruct H as [_ (p & Hp & Hplay)].
    by destruct (playable_not_stuck self p Hplay); auto.
  - destruct H as (q & Hq & _ & _ & He).
    destruct (players_ok_remaining self q Hok Hq). congruence.
Qed.

(** The loop stops on the first player who can play. *)
Lemma progress_loop_reach (k fuel : nat) (self : Blokus) :
  1 <= _num_players self -> players_ok self ->
  1 <= _curr_player self <= _num_players self ->
  (k < fuel)%nat ->
  (∀ j, (j < k)%nat ->
     stuck self
       (Nat.iter j (next_player (_num_players self)) (_curr_player self))) ->
  playable self
    (Nat.iter k (next_player (_num_players self)) (_curr_player self)) ->
  progress_loop fuel self =
  Returned tt
    (with_curr_player
       (Nat.iter k (next_player (_num_players self)) (_curr_player self))
       self).
Proof.
  revert fuel self. induction k as [|k IH]; intros fuel self Hn Hok Hc Hf
    Hstuck Hplay; (destruct fuel as [|fuel]; [lia|]); cbn [progress_loop].
  - unfold bind. rewrite progress_cond_playable by done.
    simpl. by rewrite with_curr_player_id.
  - unfold bind at 1.
    rewrite progress_cond_stuck by (apply (Hstuck 0%nat); lia).
    unfold bind at 1.
    rewrite (game_over_playable self _ Hok
               (iter_next_player_range _ _ (S k) Hn Hc) Hplay).
    cbn [ret negb]. unfold bind at 1. rewrite advance_spec by lia.
    set (c1 := next_player (_num_players self) (_curr_player self)).
    assert (Hc1 : 1 <= c1 <= _num_players self)
      by (by apply next_player_range).
    assert (Hstuck1 : ∀ j, (j < k)%nat ->
              stuck self (Nat.iter j (next_player (_num_players self)) c1)).
    { intros j Hj. specialize (Hstuck (S j) ltac:(lia)).
      by rewrite Nat.iter_succ_r in Hstuck. }
    rewrite Nat.iter_succ_r in Hplay. rewrite Nat.iter_succ_r.
    apply (IH fuel (with_curr_player c1 self) Hn Hok Hc1 ltac:(lia)
             Hstuck1 Hplay).
Qed.

(** When nobody can play the loop stops at once, the cursor left on the last
    player by [game_over]. *)
Lemma progress_loop_over (fuel : nat) (self : Blokus) :
  1 <= _num_players self -> players_ok self ->
  1 <= _curr_player self <= _num_players self ->
  (∀ p, 1 <= p <= _num_players self -> stuck self p) ->
  progress_loop (S fuel) self =
  Returned tt (with_curr_player (_num_players self) self).
Proof.
  intros Hn Hok Hc Hall. simpl. unfold bind at 1.
  rewrite progress_cond_stuck by auto. unfold bind at 1.
  by rewrite game_over_all_stuck.
Qed.

Lemma progress_turn_cases (self : Blokus) (fuel : nat) :
  1 <= _num_players self -> players_ok self ->
  (Z.to_nat (_num_players self) <= fuel)%nat ->
  (∃ k : nat,
     (1 <= k <= Z.to_nat (_num_players self))%nat ∧
     playable self
       (Nat.iter k (next_player (_num_players self)) (_curr_player self)) ∧
     (∀ j, (1 <= j < k)%nat ->
        stuck self
          (Nat.iter j (next_player (_num_players self))
             (_curr_player self))) ∧
     progress_turn fuel self =
     Returned tt
       (with_curr_player
          (Nat.iter k (next_player (_num_players self)) (_curr_player self))
          self))
  ∨
  ((∀ p, 1 <= p <= _num_players self -> stuck self p) ∧
   progress_turn fuel self =
   Returned tt (with_curr_player (_num_players self) self)).
Proof.
  intros Hn Hok Hfuel.
  set (n := _num_players self) in *.
  set (c1 := next_player n (_curr_player self)).
  assert (Hc1 : 1 <= c1 <= n) by (by apply next_player_range).
  assert (Hstep : progress_turn fuel self =
                  progress_loop fuel (with_curr_player c1 self)).
  { unfold progress_turn, bind. rewrite advance_spec by (subst n; lia).
    done. }
  assert (Hdec : ∀ k, {playable self (Nat.iter k (next_player n) c1)} +
                      {¬ playable self (Nat.iter k (next_player n) c1)}).
  { intros k.
    destruct (players_ok_playable_or_stuck self
                (Nat.iter k (next_player n) c1) Hok
                (iter_next_player_range n c1 k Hn Hc1)) as [Hp|Hs].
    - by left.
    - right. intros Hp. by apply (playable_not_stuck self _ Hp). }
  assert (Hstuck_of : ∀ k, ¬ playable self (Nat.iter k (next_player n) c1) ->
                           stuck self (Nat.iter k (next_player n) c1)).
  { intros k Hnp.
    by destruct (players_ok_playable_or_stuck self
                   (Nat.iter k (next_player n) c1) Hok
                   (iter_next_player_range n c1 k Hn Hc1)). }
  destruct (least_below _ (Z.to_nat n) Hdec)
    as [Hnone|(k & Hk & Hpk & Hleast)].
  - right.
    assert (Hall : ∀ p, 1 <= p <= n -> stuck self p).
    { intros p Hp.
      destruct (iter_next_player_reach n c1 p Hn Hc1 Hp) as (k & Hk & <-).
      apply Hstuck_of. by apply Hnone. }
    split; [done|]. rewrite Hstep.
    destruct fuel as [|fuel]; [lia|].
    by rewrite (progress_loop_over fuel (with_curr_player c1 self)).
  - left. exists (S k). split; [lia|].
    rewrite !Nat.iter_succ_r. fold c1. split; [done|]. split.
    + intros j Hj. destruct j as [|j]; [lia|]. rewrite Nat.iter_succ_r.
      fold c1. apply Hstuck_of, Hleast. lia.
    + rewrite Hstep.
      apply (progress_loop_reach k fuel (with_curr_player c1 self) Hn Hok
               Hc1 ltac:(lia)); [|done].
      intros j Hj. apply Hstuck_of, Hleast. done.
Qed.

(** C8.  In a game of one to four players, [progress_turn] returns once the
    loop may run as many times as there are players.  It changes nothing but
    the cursor; when the game is not over the cursor ends on a player who is
    neither retired nor out of shapes, the first such player met when
    stepping cyclically (1-indexed, modulo the number of players) from the
    previous cursor, every player stepped over being retired or out of
    shapes.  In a game of two where player 1 is the retired current player
    and player 2 has shapes left, the cursor ends on 2. *)
Theorem progress_turn_terminates_on_playable (self : Blokus) (fuel : nat) :
  1 <= _num_players self <= 4 ->
  players_ok self ->
  (Z.to_nat (_num_players self) <= fuel)%nat ->
  ∃ self',
    progress_turn fuel self = Returned tt self' ∧
    self' = with_curr_player (_curr_player self') self ∧
    (game_over self' = Returned false self' ->
     playable self' (_curr_player self') ∧
     ∃ k : nat,
       (1 <= k <= Z.to_nat (_num_players self))%nat ∧
       _curr_player self' =
       Nat.iter k (next_player (_num_players self)) (_curr_player self) ∧
       ∀ j, (1 <= j < k)%nat ->
         stuck self
           (Nat.iter j (next_player (_num_players self))
              (_curr_player self))) ∧
    (_num_players self = 2 -> _curr_player self = 1 ->
     1 ∈ _retired self ->
     (∃ rs, remaining_shapes 2 self = Val rs ∧ rs ≠ []) ->
     _curr_player self' = 2).
Proof.
  intros [Hn _] Hok Hfuel.
  destruct (progress_turn_cases self fuel Hn Hok Hfuel)
    as [(k & Hk & Hplay & Hstuck & Hrun)|[Hall Hrun]].
  - eexists. split; [exact Hrun|]. split; [done|]. split.
    + intros _. split; [exact Hplay|]. exists k. done.
    + intros Hn2 Hc1 Hret _. simpl.
      pose proof (iter_next_player_range (_num_players self)
                    (_curr_player self) k Hn ltac:(lia)) as Hr.
      assert (Nat.iter k (next_player (_num_players self))
                (_curr_player self) ≠ 1); [|lia].
      intros Heq. rewrite Heq in Hplay. by destruct Hplay.
  - eexists. split; [exact Hrun|]. split; [done|]. split.
    + intros Hgo. exfalso.
      pose proof (game_over_spec
                    (with_curr_player (_num_players self) self)) as Hs.
      rewrite Hgo in Hs. destruct Hs as [_ (p & Hp & Hplay)].
      by apply (playable_not_stuck self p Hplay), Hall.
    + intros Hn2 _ _ _. done.
Qed.

(** ** Placement *)

(** C4.  When the current player is not retired and the piece is anchored
    and of a kind the player still holds, a placement that is not legal makes
    [maybe_place] return [False] without raising, and the object (grid,
    played-lists, retired set, cursor and all) is what it was. *)
Theorem maybe_place_illegal_is_noop
    (self : Blokus) (piece : Piece.t) (rs : list ShapeKind.t) (fuel : nat) :
  _curr_player self ∉ _retired self ->
  is_Some (Piece.anchor piece) ->
  remaining_shapes (_curr_player self) self = Val rs ->
  Shape.kind (Piece.shape piece) ∈ rs ->
  legal_to_place piece self = Val false ->
  maybe_place fuel piece self = Returned false self.
Proof.
  intros Hret [a Ha] Hrs Hkind Hlegal.
  unfold maybe_place. unfold bind at 1, get at 1. unfold bind at 1, get at 1.
  rewrite bool_decide_eq_true_2 by done. rewrite Ha.
  unfold bind at 1, read at 1. rewrite Hrs.
  rewrite bool_decide_eq_false_2 by (by intros ?).
  unfold bind at 1, read at 1. by rewrite Hlegal.
Qed.

(** C10.  When the current player is retired, [maybe_place] returns [True]
    for any piece whatever, unanchored or of a kind the player lacks, without
    raising; what it does to the object is what [progress_turn] does, which
    leaves the grid, the played-lists and the retired set alone. *)
Theorem maybe_place_retired_skips
    (self : Blokus) (piece : Piece.t) (fuel : nat) :
  _curr_player self ∈ _retired self ->
  1 <= _num_players self ->
  players_ok self ->
  (Z.to_nat (_num_players self) <= fuel)%nat ->
  ∃ self',
    maybe_place fuel piece self = Returned true self' ∧
    progress_turn fuel self = Returned tt self' ∧
    _grid self' = _grid self ∧
    _shapes_played self' = _shapes_played self ∧
    _retired self' = _retired self.
Proof.
  intros Hret Hn Hok Hfuel.
  assert (Hrun : ∃ c, progress_turn fuel self =
                      Returned tt (with_curr_player c self)).
  { destruct (progress_turn_cases self fuel Hn Hok Hfuel)
      as [(k & _ & _ & _ & Hrun)|[_ Hrun]]; eauto. }
  destruct Hrun as [c Hrun]. exists (with_curr_player c self).
  split; [|done].
  unfold maybe_place. unfold bind at 1, get at 1. unfold bind at 1, get at 1.
  rewrite bool_decide_eq_false_2 by (by intros ?).
  unfold bind. by rewrite Hrun.
Qed.

(** ** What turn progression touches, and that it always ends *)

Lemma frame_cursor_refl (self : Blokus) : frame_cursor self self.
Proof. unfold frame_cursor. by rewrite with_curr_player_id. Qed.

Lemma frame_cursor_set (c : Z) (self : Blokus) :
  frame_cursor self (with_curr_player c self).
Proof. done. Qed.

Lemma frame_cursor_trans (s1 s2 s3 : Blokus) :
  frame_cursor s1 s2 -> frame_cursor s2 s3 -> frame_cursor s1 s3.
Proof. unfold frame_cursor. intros -> ->. done. Qed.

Lemma final_bind {A B} (m : M A) (k : A -> M B) (self : Blokus) :
  final (bind m k self) =
  match m self with
  | Returned a self' => final (k a self')
  | Raised _ self' => Some self'
  | OutOfFuel => None
  end.
Proof. unfold bind. by destruct (m self). Qed.

Lemma progress_cond_spec (self : Blokus) :
  match progress_cond self with
  | Returned true self' =>
      self' = self ∧ ∃ p, 1 <= p <= _num_players self ∧ playable self p
  | Returned false self' => frame_cursor self self'
  | Raised _ self' => frame_cursor self self'
  | OutOfFuel => False
  end.
Proof.
  assert (Hover :
    match bind game_over (fun over => ret (negb over)) self with
    | Returned true self' =>
        self' = self ∧ ∃ p, 1 <= p <= _num_players self ∧ playable self p
    | Returned false self' => frame_cursor self self'
    | Raised _ self' => frame_cursor self self'
    | OutOfFuel => False
    end).
  { unfold bind. pose proof (game_over_spec self) as H.
    destruct (game_over self) as [[] s'|e s'|]; [| | |done]; simpl.
    - destruct H as [-> _]. destruct (1 <=? _num_players self);
        [apply frame_cursor_set | apply frame_cursor_refl].
    - done.
    - destruct H as (p & _ & -> & _). apply frame_cursor_set. }
  destruct (decide (_curr_player self ∈ _retired self)) as [Hr|Hr].
  - rewrite progress_cond_stuck by (by left). exact Hover.
  - destruct (remaining_shapes (_curr_player self) self) as [rs|e] eqn:Hrs.
    + destruct rs as [|k rs].
      * rewrite progress_cond_stuck by (by right). exact Hover.
      * rewrite progress_cond_playable; [apply frame_cursor_refl|].
        split; [done|]. eauto.
    + unfold progress_cond, bind, get, read.
      rewrite bool_decide_eq_false_2 by done. rewrite Hrs.
      apply frame_cursor_refl.
Qed.

Lemma advance_frame (self : Blokus) :
  ∃ self', final (advance self) = Some self' ∧ frame_cursor self self'.
Proof.
  unfold advance, bind, get, read, py_mod, assign.
  destruct (_num_players self =? 0); simpl; eexists; (split; [done|]);
    [apply frame_cursor_refl | apply frame_cursor_set].
Qed.

Lemma progress_loop_frame (fuel : nat) (self self' : Blokus) :
  final (progress_loop fuel self) = Some self' -> frame_cursor self self'.
Proof.
  revert self. induction fuel as [|fuel IH]; intros self; [done|].
  cbn [progress_loop]. rewrite final_bind.
  pose proof (progress_cond_spec self) as Hc.
  destruct (progress_cond self) as [[] s1|e s1|]; [| | |done].
  - destruct Hc as [-> _]. rewrite final_bind.
    destruct (advance_frame self) as (s2 & Hs2 & Hf2).
    destruct (advance self) as [[] s2'|e s2'|]; simpl in Hs2; [| |done].
    + injection Hs2 as ->. intros H. apply IH in H.
      by eapply frame_cursor_trans.
    + injection Hs2 as ->. by intros [= <-].
  - simpl. by intros [= <-].
  - by intros [= <-].
Qed.

Lemma progress_turn_frame (fuel : nat) (self self' : Blokus) :
  final (progress_turn fuel self) = Some self' -> frame_cursor self self'.
Proof.
  unfold progress_turn. rewrite final_bind.
  destruct (advance_frame self) as (s2 & Hs2 & Hf2).
  destruct (advance self) as [[] s2'|e s2'|]; simpl in Hs2; [| |done].
  - injection Hs2 as ->. intros H. apply progress_loop_frame in H.
    by eapply frame_cursor_trans.
  - injection Hs2 as ->. by intros [= <-].
Qed.

Lemma progress_loop_total_reach (k fuel : nat) (self : Blokus) :
  _num_players self ≠ 0 -> (k < fuel)%nat ->
  playable self
    (Nat.iter k (next_player (_num_players self)) (_curr_player self)) ->
  is_Some (final (progress_loop fuel self)).
Proof.
  revert fuel self. induction k as [|k IH]; intros fuel self Hn Hf Hplay;
    (destruct fuel as [|fuel]; [lia|]); cbn [progress_loop];
    rewrite final_bind.
  - by rewrite progress_cond_playable.
  - pose proof (progress_cond_spec self) as Hc.
    destruct (progress_cond self) as [[] s1|e s1|]; [| | |done]; [|done..].
    destruct Hc as [-> _]. rewrite final_bind, advance_spec by done.
    rewrite Nat.iter_succ_r in Hplay.
    apply (IH fuel (with_curr_player _ self) Hn ltac:(lia) Hplay).
Qed.

(** [progress_turn] ends, by a return or a raise, on every object, given one
    iteration per player (and one at least). *)
Lemma progress_turn_total (fuel : nat) (self : Blokus) :
  (1 <= fuel)%nat -> (Z.to_nat (_num_players self) <= fuel)%nat ->
  is_Some (final (progress_turn fuel self)).
Proof.
  intros Hf1 Hfn. unfold progress_turn. rewrite final_bind.
  destruct (decide (_num_players self = 0)) as [Hn0|Hn0].
  - unfold advance, bind, get, read, py_mod. rewrite Hn0. done.
  - rewrite advance_spec by done.
    set (c1 := next_player _ _). set (s1 := with_curr_player c1 self).
    destruct fuel as [|fuel]; [lia|].
    pose proof (progress_cond_spec s1) as Hc.
    destruct (progress_cond s1) as [[] s2|e s2|] eqn:Hcond; [| | |done].
    + destruct Hc as [-> (p & Hp & Hplay)].
      assert (Hn : 1 <= _num_players self) by (simpl in Hp; lia).
      assert (Hc1 : 1 <= c1 <= _num_players self)
        by (by apply next_player_range).
      destruct (iter_next_player_reach _ c1 p Hn Hc1 Hp) as (k & Hk & Hkp).
      apply (progress_loop_total_reach k (S fuel) s1 Hn0 ltac:(lia)).
      simpl. by rewrite Hkp.
    + cbn [progress_loop]. rewrite final_bind, Hcond. done.
    + cbn [progress_loop]. rewrite final_bind, Hcond. done.
Qed.

(** ** Occupied cells stay as they are *)

Lemma keeps_board_refl (self : Blokus) : keeps_board self self.
Proof. repeat split; try done. by intros q o. Qed.

Lemma keeps_board_trans (s1 s2 s3 : Blokus) :
  keeps_board s1 s2 -> keeps_board s2 s3 -> keeps_board s1 s3.
Proof.
  intros (Hn1 & Hz1 & Hc1 & Hd1 & Hp1 & Hg1) (Hn2 & Hz2 & Hc2 & Hd2 & Hp2 & Hg2).
  repeat split; try congruence.
  - intros p Hp. by apply Hp2, Hp1.
  - intros q o Hq. by apply Hg2, Hg1.
Qed.

Lemma frame_cursor_keeps_board (self self' : Blokus) :
  frame_cursor self self' -> keeps_board self self'.
Proof. intros H. rewrite H. repeat split; try done. by intros q o. Qed.

Lemma py_norm_index_nonneg_inv {A} (l : list A) (i : Z) (j : nat) :
  0 <= i -> py_norm_index l i = Val j -> j = Z.to_nat i.
Proof.
  intros Hi. unfold py_norm_index.
  destruct (Z.ltb_spec i 0) as [?|_]; [lia|].
  destruct ((0 <=? i) && (i <? len l)); [|done]. by intros [= <-].
Qed.

Lemma py_index_inv {A} (l : list A) (i : Z) (a : A) :
  py_index l i = Val a ->
  ∃ j, py_norm_index l i = Val j ∧ l !! j = Some a.
Proof.
  unfold py_index. intros H. apply res_bind_val in H as (j & Hj & H).
  exists j. split; [done|]. by destruct (l !! j) as [x|]; [injection H as ->|].
Qed.

Lemma py_setitem_inv {A} (l : list A) (i : Z) (a : A) (l' : list A) :
  py_setitem l i a = Val l' ->
  ∃ j, py_norm_index l i = Val j ∧ l' = <[j := a]> l.
Proof.
  unfold py_setitem. intros H. apply res_bind_val in H as (j & Hj & H).
  exists j. split; [done|]. by injection H as <-.
Qed.

(** [self._grid[x][y] = v] keeps the shape of the grid and, for indices
    that are not negative, every other cell. *)
Lemma grid_set_spec (q0 : Point) (v : Cell) (self : Blokus) :
  match grid_set q0 v self with
  | Returned _ self' =>
      ∃ g', self' = with_grid g' self ∧
            length <$> g' = length <$> _grid self ∧
            (0 <= q0.1 -> 0 <= q0.2 ->
             ∀ q, q ≠ q0 -> cell_at g' q = cell_at (_grid self) q)
  | Raised _ self' => self' = self
  | OutOfFuel => False
  end.
Proof.
  unfold grid_set. unfold bind at 1, get at 1.
  unfold bind at 1, read at 1.
  destruct (py_index (_grid self) q0.1) as [row|e] eqn:Hrow; [|done].
  unfold bind at 1, read at 1.
  destruct (py_setitem row q0.2 v) as [row'|e] eqn:Hrow'; [|done].
  unfold bind at 1, read at 1.
  destruct (py_setitem (_grid self) q0.1 row') as [g'|e] eqn:Hg'; [|done].
  unfold assign. exists g'. split; [done|].
  apply py_index_inv in Hrow as (j1 & Hj1 & Hrow).
  apply py_setitem_inv in Hrow' as (j2 & Hj2 & ->).
  apply py_setitem_inv in Hg' as (j1' & Hj1' & ->).
  assert (j1' = j1) as -> by congruence.
  split.
  - rewrite list_fmap_insert, length_insert. apply list_insert_id.
    by rewrite list_lookup_fmap, Hrow.
  - intros H1 H2 q Hq.
    apply py_norm_index_nonneg_inv in Hj1; [|done].
    apply py_norm_index_nonneg_inv in Hj2; [|done]. subst j1 j2.
    unfold cell_at.
    destruct ((0 <=? q.1) && (0 <=? q.2)) eqn:Hnn; [|done].
    apply andb_true_iff in Hnn as [Hq1%Z.leb_le Hq2%Z.leb_le].
    destruct (decide (Z.to_nat q0.1 = Z.to_nat q.1)) as [Heq|Hne].
    + rewrite <- Heq, Hrow.
      rewrite list_lookup_insert_eq by (by eapply lookup_lt_Some).
      apply list_lookup_insert_ne. intros Heq2. apply Hq.
      destruct q, q0; simpl in *. f_equal; lia.
    + by rewrite list_lookup_insert_ne.
Qed.

Lemma place_loop_spec (sqs : list Point) (v : Cell) (self : Blokus) :
  ∃ self' g',
    final (place_loop sqs v self) = Some self' ∧
    self' = with_grid g' self ∧
    length <$> g' = length <$> _grid self ∧
    ((∀ q, q ∈ sqs -> 0 <= q.1 ∧ 0 <= q.2) ->
     ∀ q, q ∉ sqs -> cell_at g' q = cell_at (_grid self) q).
Proof.
  revert self. induction sqs as [|q0 rest IH]; intros self.
  - exists self, (_grid self). split; [done|]. split; [by destruct self|].
    done.
  - cbn [place_loop]. rewrite final_bind.
    pose proof (grid_set_spec q0 v self) as Hset.
    destruct (grid_set q0 v self) as [[] s1|e s1|]; [| |done].
    + destruct Hset as (g1 & -> & Hd1 & Hg1).
      destruct (IH (with_grid g1 self)) as (s' & g' & Hrun & -> & Hd' & Hg').
      exists (with_grid g' self), g'. split; [done|]. split; [done|].
      split; [by rewrite Hd'|].
      intros Hnn q Hq. apply not_elem_of_cons in Hq as [Hq0 Hq].
      rewrite Hg'; [|intros q' Hq'; apply Hnn; by right | done].
      destruct (Hnn q0 ltac:(left)) as [H1 H2]. simpl. by apply Hg1.
    + subst s1. exists self, (_grid self). split; [done|].
      split; [by destruct self | done].
Qed.

Lemma occupied_loop_free (g : Grid) (sqs : list Point) :
  occupied_loop g sqs = Val false ->
  ∀ q, q ∈ sqs -> grid_at g q = Val None.
Proof.
  induction sqs as [|q0 rest IH]; simpl; intros H q Hq.
  - by apply not_elem_of_nil in Hq.
  - apply res_bind_val in H as (c & Hc & H). destruct c as [o|]; [done|].
    apply elem_of_cons in Hq as [->|Hq]; [done | by apply IH].
Qed.

(** A piece without collisions lies on the board, on free cells. *)
Lemma any_collisions_false (piece : Piece.t) (self : Blokus) :
  any_collisions piece self = Val false ->
  ∃ sqs, Piece.squares piece = Val sqs ∧
    ∀ q, q ∈ sqs ->
      (0 <= q.1 < _size self ∧ 0 <= q.2 < _size self) ∧
      cell_at (_grid self) q = Some None.
Proof.
  unfold any_collisions. intros H.
  apply res_bind_val in H as (_ & _ & H).
  apply res_bind_val in H as (wall & Hwall & H).
  destruct wall; [done|].
  apply res_bind_val in H as (sqs & Hsqs & Hocc).
  unfold any_wall_collisions in Hwall.
  apply res_bind_val in Hwall as (_ & _ & Hwall).
  rewrite Hsqs in Hwall. simpl in Hwall. injection Hwall as Hwall.
  exists sqs. split; [done|]. intros q Hq.
  assert (Hon : off_board (_size self) q = false).
  { destruct (off_board (_size self) q) eqn:E; [|done].
    assert (existsb (off_board (_size self)) sqs = true); [|congruence].
    apply existsb_exists. exists q. split; [|done].
    by apply list_elem_of_In. }
  unfold off_board in Hon.
  apply orb_false_iff in Hon as [Hon Hy2].
  apply orb_false_iff in Hon as [Hon Hy1].
  apply orb_false_iff in Hon as [Hx1 Hx2].
  apply Z.ltb_ge in Hx1, Hy1. rewrite Z.geb_leb in Hx2, Hy2.
  apply Z.leb_gt in Hx2, Hy2.
  split; [lia|]. apply grid_at_cell_at; [lia | lia |].
  by apply (occupied_loop_free _ _ Hocc).
Qed.

Lemma legal_to_place_true (piece : Piece.t) (self : Blokus) :
  legal_to_place piece self = Val true ->
  any_collisions piece self = Val false.
Proof.
  unfold legal_to_place. intros H.
  apply res_bind_val in H as (_ & _ & H).
  apply res_bind_val in H as (col & Hcol & H). by destruct col.
Qed.

Lemma ends_keeping_here {A} (self self' : Blokus) (enough : Prop)
    (o : Outcome A) :
  final o = Some self' -> keeps_board self self' ->
  ends_keeping self enough o.
Proof.
  intros Ho Hk. split; [|by rewrite Ho].
  intros s'. rewrite Ho. by intros [= <-].
Qed.

Lemma enough_fuel_kept (fuel : nat) (self self' : Blokus) :
  keeps_board self self' -> enough_fuel fuel self -> enough_fuel fuel self'.
Proof. intros [Hn _] [H1 H2]. split; [done|]. by rewrite Hn. Qed.

(** The end of [maybe_place] and of [retire]: progress the turn. *)
Lemma progress_turn_ends_keeping {A} (fuel : nat) (self s1 : Blokus) (a : A) :
  keeps_board self s1 ->
  ends_keeping self (enough_fuel fuel self)
    (bind (progress_turn fuel) (fun _ => ret a) s1).
Proof.
  intros Hk. split.
  - intros s'. rewrite final_bind.
    destruct (progress_turn fuel s1) as [[] s2|e s2|] eqn:Hrun; [| |done];
      simpl; intros [= <-];
      (eapply keeps_board_trans; [exact Hk|]);
      apply frame_cursor_keeps_board, (progress_turn_frame fuel);
      by rewrite Hrun.
  - intros Hf. destruct (enough_fuel_kept fuel self s1 Hk Hf) as [Hf1 Hfn].
    rewrite final_bind.
    destruct (progress_turn_total fuel s1 Hf1 Hfn) as [s' Hs'].
    by destruct (progress_turn fuel s1) as [[] s2|e s2|].
Qed.

Lemma append_played_spec (player : Z) (kind : ShapeKind.t) (self : Blokus) :
  match append_played player kind self with
  | Returned _ self' =>
      ∃ d, self' = with_shapes_played d self ∧
           ∀ p, is_Some (_shapes_played self !! p) -> is_Some (d !! p)
  | Raised _ self' => self' = self
  | OutOfFuel => False
  end.
Proof.
  unfold append_played, bind, get, read, assign, dict_get.
  destruct (_shapes_played self !! player) as [pl|] eqn:Hpl; [|done].
  eexists. split; [done|]. intros p Hp.
  destruct (decide (player = p)) as [->|Hne].
  - by rewrite lookup_insert_eq.
  - by rewrite lookup_insert_ne.
Qed.

(** Whatever [maybe_place] does, it keeps the board, and it ends when its
    loop may run once per player. *)
Lemma maybe_place_keeps_board (fuel : nat) (piece : Piece.t) (self : Blokus) :
  ends_keeping self (enough_fuel fuel self) (maybe_place fuel piece self).
Proof.
  assert (Hself : ∀ (o : Outcome bool), final o = Some self ->
                    ends_keeping self (enough_fuel fuel self) o).
  { intros o Ho. eapply ends_keeping_here; [exact Ho|].
    apply keeps_board_refl. }
  unfold maybe_place. unfold bind at 1, get at 1. unfold bind at 1, get at 1.
  case_bool_decide as Hret.
  - destruct (Piece.anchor piece) as [a|]; [|by apply Hself].
    unfold bind at 1, read at 1.
    destruct (remaining_shapes (_curr_player self) self) as [rs|e];
      [|by apply Hself].
    case_bool_decide as Hkind; [by apply Hself|].
    unfold bind at 1, read at 1.
    destruct (legal_to_place piece self) as [[]|e] eqn:Hlegal;
      [|by apply Hself..].
    cbn [negb]. unfold bind at 1, read at 1.
    destruct (any_collisions_false piece self
                (legal_to_place_true piece self Hlegal))
      as (sqs & -> & Hfree).
    set (v := Some (_curr_player self, Shape.kind (Piece.shape piece))).
    destruct (place_loop_spec sqs v self)
      as (s1 & g1 & Hrun & -> & Hd1 & Hg1).
    assert (Hboard : keeps_board self (with_grid g1 self)).
    { repeat split; try done. intros q o Hq. rewrite Hg1; [done| |].
      - intros q' Hq'. destruct (Hfree q' Hq') as [? _]. lia.
      - intros Hin. destruct (Hfree q Hin) as [_ Hnone]. congruence. }
    unfold bind at 1.
    destruct (place_loop sqs v self) as [[] s1|e s1|]; [| |done];
      simpl in Hrun; injection Hrun as ->;
      [|by eapply ends_keeping_here].
    unfold bind at 1.
    pose proof (append_played_spec (_curr_player self)
                  (Shape.kind (Piece.shape piece)) (with_grid g1 self))
      as Happ.
    destruct (append_played _ _ (with_grid g1 self)) as [[] s2|e s2|];
      [| |done].
    + destruct Happ as (d & -> & Hd).
      apply progress_turn_ends_keeping.
      eapply keeps_board_trans; [exact Hboard|].
      repeat split; try done. by intros q o.
    + subst s2. by eapply ends_keeping_here.
  - by apply progress_turn_ends_keeping, keeps_board_refl.
Qed.

Lemma retire_keeps_board (fuel : nat) (self : Blokus) :
  ends_keeping self (enough_fuel fuel self) (retire fuel self).
Proof.
  unfold retire. unfold bind at 1, get at 1. unfold bind at 1, assign at 1.
  set (s1 := with_retired _ self).
  assert (Hk : keeps_board self s1)
    by (repeat split; try done; by intros q o).
  destruct (progress_turn_ends_keeping fuel self s1 tt Hk) as [Hsafe Hlive].
  split.
  - intros s' Hs'. apply Hsafe. rewrite final_bind.
    by destruct (progress_turn fuel s1) as [[] s2|e s2|].
  - intros Hf. specialize (Hlive Hf). rewrite final_bind in Hlive.
    by destruct (progress_turn fuel s1) as [[] s2|e s2|].
Qed.

Lemma progress_turn_keeps_board (fuel : nat) (self : Blokus) :
  ends_keeping self (enough_fuel fuel self) (progress_turn fuel self).
Proof.
  split.
  - intros s' Hs'.
    by apply frame_cursor_keeps_board, (progress_turn_frame fuel).
  - intros [Hf1 Hfn]. by apply progress_turn_total.
Qed.

Lemma run_op_keeps_board (fuel : nat) (op : Op) (self self' : Blokus) :
  run_op fuel op self = Some self' -> keeps_board self self'.
Proof.
  destruct op as [piece| |]; simpl.
  - apply maybe_place_keeps_board.
  - apply retire_keeps_board.
  - apply progress_turn_keeps_board.
Qed.

Lemma run_op_total (fuel : nat) (op : Op) (self : Blokus) :
  enough_fuel fuel self -> is_Some (run_op fuel op self).
Proof.
  destruct op as [piece| |]; simpl.
  - apply maybe_place_keeps_board.
  - apply retire_keeps_board.
  - apply progress_turn_keeps_board.
Qed.

Lemma run_ops_keeps_board (fuel : nat) (ops : list Op) (self : Blokus) :
  enough_fuel fuel self ->
  ∃ self', run_ops fuel ops self = Some self' ∧ keeps_board self self'.
Proof.
  revert self. induction ops as [|op rest IH]; intros self Hf.
  - exists self. split; [done | apply keeps_board_refl].
  - destruct (run_op_total fuel op self Hf) as [s1 Hs1].
    pose proof (run_op_keeps_board fuel op self s1 Hs1) as Hb1.
    simpl. rewrite Hs1.
    destruct (IH s1 (enough_fuel_kept fuel self s1 Hb1 Hf))
      as (s' & Hs' & Hb').
    exists s'. split; [done | by eapply keeps_board_trans].
Qed.

(** C5.  From a reachable game, run any sequence of calls of [maybe_place],
    [retire] and [progress_turn] (each loop being allowed one iteration per
    player); the run ends, and every cell that held an occupant at the start
    holds the same occupant at the end. *)
Theorem occupied_cells_never_change
    (self : Blokus) (ops : list Op) (fuel : nat) :
  reachable self ->
  (1 <= fuel)%nat ->
  (Z.to_nat (_num_players self) <= fuel)%nat ->
  ∃ self',
    run_ops fuel ops self = Some self' ∧
    ∀ q o, cell_at (_grid self) q = Some (Some o) ->
           cell_at (_grid self') q = Some (Some o).
Proof.
  intros _ Hf1 Hfn.
  destruct (run_ops_keeps_board fuel ops self (conj Hf1 Hfn))
    as (s' & Hs' & Hb).
  exists s'. split; [done|]. apply Hb.
Qed.

(** ** The games one can reach are well formed *)

Lemma keeps_board_game_ok (self self' : Blokus) :
  keeps_board self self' -> game_ok self -> game_ok self'.
Proof.
  intros (Hn & Hz & _ & Hd & Hp & _) (Hrange & Hplayers & Hs & Hlen & Hrows).
  split; [by rewrite Hn|]. split.
  - intros p Hq. rewrite Hn in Hq. by apply Hp, Hplayers.
  - rewrite <- Hz in Hs, Hlen, Hrows. split; [done|]. split.
    + rewrite <- Hlen, <- (length_fmap length (_grid self')), Hd.
      by rewrite length_fmap.
    + apply (Forall_fmap length (fun k => k = Z.to_nat (_size self'))).
      rewrite Hd. by apply Forall_fmap.
Qed.

Lemma Blokus_init_game_ok
    (definitions : list (ShapeKind.t * Shape.t)) (num_players size : Z)
    (start_positions : gset Point) (self : Blokus) :
  Blokus_init definitions num_players size start_positions = Val self ->
  game_ok self.
Proof.
  unfold Blokus_init.
  destruct ((num_players <? 1) || (num_players >? 4)) eqn:Hn; [done|].
  destruct (size <? 5) eqn:Hsize; [done|].
  destruct (Z.of_nat (base.size start_positions) <? num_players); [done|].
  destruct (negb _); [done|]. intros [= <-].
  apply orb_false_iff in Hn as [Hn1 Hn4]. apply Z.ltb_ge in Hn1.
  rewrite Z.gtb_ltb in Hn4. apply Z.ltb_ge in Hn4. apply Z.ltb_ge in Hsize.
  split; [simpl; lia|]. split.
  - intros p Hp. simpl in *.
    destruct (list_to_map _ !! p) as [pl|] eqn:Hlook; [done|].
    apply not_elem_of_list_to_map_2 in Hlook. destruct Hlook.
    rewrite <- list_fmap_compose. apply list_elem_of_fmap. exists p.
    split; [done|]. apply elem_of_seqZ. lia.
  - split; [simpl; lia|]. split; simpl.
    + by rewrite length_replicate.
    + apply Forall_replicate. by rewrite length_replicate.
Qed.

(** Every game made by the constructor and changed by the calls has one to
    four players, a played-list for each, and a square grid of side
    [_size]: the conditions the statements below and above put on a game
    hold of all of them. *)
Lemma reachable_game_ok (self : Blokus) : reachable self -> game_ok self.
Proof.
  induction 1 as [definitions n size starts self Hinit
                 |fuel op self self' Hreach IH Hstep].
  - by eapply Blokus_init_game_ok.
  - eapply keeps_board_game_ok; [|exact IH].
    by eapply run_op_keeps_board.
Qed.

(** The catalogue of a reachable game is the table it was built from. *)
Lemma reachable_catalog (self : Blokus) :
  reachable self ->
  ∃ definitions num_players size start_positions self0,
    Blokus_init definitions num_players size start_positions = Val self0 ∧
    _shapes self = definitions.
Proof.
  induction 1 as [definitions n size starts self Hinit
                 |fuel op self self' Hreach IH Hstep].
  - exists definitions, n, size, starts, self. split; [done|].
    unfold Blokus_init in Hinit.
    destruct (_ || _); [done|]. destruct (size <? 5); [done|].
    destruct (_ <? n); [done|]. destruct (negb _); [done|].
    by injection Hinit as <-.
  - destruct IH as (definitions & n & size & starts & s0 & Hinit & Hshapes).
    exists definitions, n, size, starts, s0. split; [done|].
    apply run_op_keeps_board in Hstep as (_ & _ & Hc & _). congruence.
Qed.

(** ** Scores *)

Lemma shapes_get_key (d : list (ShapeKind.t * Shape.t)) (k : ShapeKind.t)
    (sh : Shape.t) :
  shapes_get d k = Val sh -> k ∈ map fst d.
Proof.
  induction d as [|[k' sh'] d IH]; simpl; [done|].
  case_decide as Hk; [subst; left | right; auto].
Qed.

Lemma square_count_pos (self : Blokus) (k : ShapeKind.t) :
  catalog_ok self -> 1 <= square_count self k.
Proof.
  intros Hcat. destruct (Hcat k) as (sh & Hsh & Hne).
  unfold square_count. rewrite Hsh. unfold len.
  destruct (Shape.squares sh); [done|]. simpl. lia.
Qed.

Lemma total_squares_pos (self : Blokus) (ks : list ShapeKind.t) :
  catalog_ok self -> ks ≠ [] -> 1 <= total_squares self ks.
Proof.
  intros Hcat Hne.
  assert (Hnn : ∀ l, 0 <= total_squares self l).
  { induction l as [|k l IH]; simpl; [done|].
    pose proof (square_count_pos self k Hcat). lia. }
  destruct ks as [|k ks]; [done|]. simpl.
  pose proof (square_count_pos self k Hcat). pose proof (Hnn ks). lia.
Qed.

Lemma score_loop_spec (self : Blokus) (ks : list ShapeKind.t) (score : Z) :
  catalog_ok self ->
  score_loop (_shapes self) ks score = Val (score - total_squares self ks).
Proof.
  intros Hcat. revert score. induction ks as [|k ks IH]; intros score; simpl.
  - f_equal. lia.
  - unfold square_count. destruct (Hcat k) as (sh & -> & _). simpl.
    rewrite IH. f_equal. lia.
Qed.

Lemma py_index_last {A} (l : list A) (x : A) :
  last l = Some x -> py_index l (-1) = Val x.
Proof.
  intros Hl. assert (Hlen : (0 < length l)%nat).
  { destruct l; [done | simpl; lia]. }
  rewrite last_lookup in Hl.
  unfold py_index, py_norm_index, len. simpl.
  destruct (Z.leb_spec 0 (-1 + Z.of_nat (length l))); [|lia].
  destruct (Z.ltb_spec (-1 + Z.of_nat (length l)) (Z.of_nat (length l)));
    [|lia].
  simpl. replace (Z.to_nat (-1 + Z.of_nat (length l))) with (pred (length l))
    by lia.
  by rewrite Hl.
Qed.

(** A player without remaining shapes has played every kind. *)
Lemma remaining_nil_played (self : Blokus) (player : Z) :
  catalog_ok self ->
  remaining_shapes player self = Val [] ->
  ∃ played last_kind,
    _shapes_played self !! player = Some played ∧
    last played = Some last_kind ∧
    ∀ k, k ∈ played.
Proof.
  intros Hcat Hrem.
  assert (Hkeys : ∀ k, k ∈ map fst (_shapes self)).
  { intros k. destruct (Hcat k) as (sh & Hsh & _).
    by eapply shapes_get_key. }
  destruct (_shapes_played self !! player) as [pl|] eqn:Hpl.
  - rewrite (remaining_shapes_played _ _ _ Hpl) in Hrem.
    injection Hrem as Hfil.
    assert (Hall : ∀ k, k ∈ pl).
    { intros k. destruct (decide (k ∈ pl)) as [|Hn]; [done|].
      assert (k ∈ filter (fun k => k ∉ pl) (map fst (_shapes self)))
        as Hin by (apply list_elem_of_filter; auto).
      rewrite Hfil in Hin. by apply not_elem_of_nil in Hin. }
    destruct (last pl) as [lk|] eqn:Hlast.
    + exists pl, lk. done.
    + apply last_None in Hlast. subst pl.
      by destruct (not_elem_of_nil ShapeKind.ONE).
  - exfalso. unfold remaining_shapes in Hrem.
    pose proof (Hkeys ShapeKind.ONE) as Hone.
    destruct (map fst (_shapes self)) as [|k ks];
      [by apply not_elem_of_nil in Hone|].
    simpl in Hrem. unfold dict_get in Hrem. by rewrite Hpl in Hrem.
Qed.

(** C6.  A player with shapes left scores minus the number of squares of
    those shapes, a negative number; a player with none left scores 20 when
    the kind played last is the one-square shape, and 15 otherwise. *)
Theorem get_score_by_cases
    (self : Blokus) (player : Z) (rs : list ShapeKind.t) :
  catalog_ok self ->
  remaining_shapes player self = Val rs ->
  (rs ≠ [] ->
   get_score player self = Val (- total_squares self rs) ∧
   - total_squares self rs < 0) ∧
  (rs = [] ->
   ∃ played last_kind,
     _shapes_played self !! player = Some played ∧
     last played = Some last_kind ∧
     get_score player self =
     Val (if square_count self last_kind =? 1 then 20 else 15)).
Proof.
  intros Hcat Hrs. split.
  - intros Hne. split.
    + unfold get_score. rewrite Hrs. simpl.
      destruct rs as [|k rs']; [done|].
      assert ((len (k :: rs') >? 0) = true) as ->
        by (rewrite Z.gtb_ltb; apply Z.ltb_lt; unfold len; simpl; lia).
      by rewrite score_loop_spec.
    + pose proof (total_squares_pos self rs Hcat Hne). lia.
  - intros ->.
    destruct (remaining_nil_played self player Hcat Hrs)
      as (played & lk & Hplayed & Hlast & _).
    exists played, lk. split; [done|]. split; [done|].
    unfold get_score. rewrite Hrs. simpl.
    unfold dict_get. rewrite Hplayed. simpl.
    rewrite (py_index_last _ _ Hlast). simpl.
    unfold square_count. destruct (Hcat lk) as (sh & -> & _). simpl.
    by destruct (len (Shape.squares sh) =? 1).
Qed.

Lemma get_score_returns
    (self : Blokus) (player : Z) (rs : list ShapeKind.t) :
  catalog_ok self ->
  remaining_shapes player self = Val rs ->
  ∃ v, get_score player self = Val v.
Proof.
  intros Hcat Hrs. destruct rs as [|k rs'].
  - destruct (remaining_nil_played self player Hcat Hrs)
      as (played & lk & Hplayed & Hlast & _).
    unfold get_score. rewrite Hrs. simpl.
    unfold dict_get. rewrite Hplayed. simpl.
    rewrite (py_index_last _ _ Hlast). simpl.
    destruct (Hcat lk) as (sh & -> & _). simpl.
    destruct (len (Shape.squares sh) =? 1); eauto.
  - unfold get_score. rewrite Hrs. cbn [res_bind].
    assert ((len (k :: rs') >? 0) = true) as ->
      by (rewrite Z.gtb_ltb; apply Z.ltb_lt; unfold len; simpl; lia).
    rewrite score_loop_spec by done. eauto.
Qed.

(** ** Winners *)

Lemma get_score_total (self : Blokus) (p : Z) :
  catalog_ok self -> players_ok self -> 1 <= p <= _num_players self ->
  get_score p self = Val (score_of self p).
Proof.
  intros Hcat Hok Hp.
  destruct (players_ok_remaining self p Hok Hp) as [rs Hrs].
  destruct (get_score_returns self p rs Hcat Hrs) as [v Hv].
  unfold score_of. by rewrite Hv.
Qed.

Lemma scores_comp_spec (self : Blokus) (ps : list Z) :
  catalog_ok self -> players_ok self ->
  (∀ p, p ∈ ps -> 1 <= p <= _num_players self) ->
  scores_comp ps self = Val (score_of self <$> ps).
Proof.
  intros Hcat Hok. induction ps as [|p ps IH]; intros Hps; simpl; [done|].
  rewrite get_score_total by (try done; apply Hps; left). simpl.
  rewrite IH by (intros q Hq; apply Hps; by right). done.
Qed.

Lemma foldl_max_spec (r : list Z) (x : Z) :
  x <= foldl Z.max x r ∧
  (∀ y, y ∈ r -> y <= foldl Z.max x r) ∧
  (foldl Z.max x r = x ∨ foldl Z.max x r ∈ r).
Proof.
  revert x. induction r as [|y r IH]; intros x; simpl.
  - split; [lia|]. split; [|by left]. intros y Hy.
    by apply not_elem_of_nil in Hy.
  - destruct (IH (Z.max x y)) as (Hle & Hall & Hin).
    split; [lia|]. split.
    + intros z [->|Hz]%elem_of_cons; [lia | by apply Hall].
    + destruct Hin as [Heq|Hin]; [|right; by right].
      rewrite Heq. destruct (Z.max_spec x y) as [[_ ->]|[_ ->]];
        [right; left | by left].
Qed.

Lemma py_max_spec (l : list Z) :
  l ≠ [] ->
  ∃ m, py_max l = Val m ∧ m ∈ l ∧ ∀ y, y ∈ l -> y <= m.
Proof.
  destruct l as [|x r]; [done|]. intros _. simpl.
  destruct (foldl_max_spec r x) as (Hle & Hall & Hin).
  eexists. split; [done|]. split.
  - destruct Hin as [->|Hin]; [left | by right].
  - intros y [->|Hy]%elem_of_cons; [done | by apply Hall].
Qed.

Lemma winners_comp_seq (scores : list Z) (m : Z) (f : Z -> Z) (k : nat) :
  py_max scores = Val m ->
  ∀ a, winners_comp scores
         (zip (seqZ a (Z.of_nat k)) (f <$> seqZ (a + 1) (Z.of_nat k))) =
       Val (filter (fun p => f p = m) (seqZ (a + 1) (Z.of_nat k))).
Proof.
  intros Hm. induction k as [|k IH]; intros a; [done|].
  rewrite (seqZ_cons (a + 1) (Z.of_nat (S k))) by lia.
  rewrite (seqZ_cons a (Z.of_nat (S k))) by lia.
  replace (Z.pred (Z.of_nat (S k))) with (Z.of_nat k) by lia.
  replace (Z.succ (a + 1)) with (Z.succ a + 1) by lia.
  cbn [fmap list_fmap zip zip_with winners_comp]. rewrite Hm. simpl.
  rewrite IH. simpl. rewrite filter_cons.
  destruct (Z.eqb_spec (f (a + 1)) m); case_decide; done.
Qed.

(** C7.  With every player's score defined, [winners] is [None] exactly when
    [game_over] answers [False]; when it answers [True], [winners] is the
    list, in increasing order, of the players whose [get_score] is the
    maximum over all players, and that list is not empty. *)
Theorem winners_are_top_scorers (self : Blokus) :
  1 <= _num_players self ->
  players_ok self ->
  catalog_ok self ->
  (∀ p, 1 <= p <= _num_players self ->
     get_score p self = Val (score_of self p)) ∧
  (∃ over self', game_over self = Returned over self') ∧
  ((∃ self', winners self = Returned None self') ↔
   (∃ self', game_over self = Returned false self')) ∧
  ((∃ self', game_over self = Returned true self') ->
   ∃ ws m self',
     winners self = Returned (Some ws) self' ∧
     (∃ q, 1 <= q <= _num_players self ∧ score_of self q = m) ∧
     (∀ q, 1 <= q <= _num_players self -> score_of self q <= m) ∧
     ws = filter (fun p => score_of self p = m)
                 (seqZ 1 (_num_players self)) ∧
     (∀ p, p ∈ ws ↔ 1 <= p <= _num_players self ∧ score_of self p = m) ∧
     ws ≠ []).
Proof.
  intros Hn Hok Hcat.
  split; [intros p Hp; by apply get_score_total|].
  assert (Hcases :
    game_over self = Returned false self ∨
    (game_over self =
     Returned true (with_curr_player (_num_players self) self) ∧
     ∀ p, 1 <= p <= _num_players self -> stuck self p)).
  { pose proof (game_over_spec self) as Hspec.
    destruct (game_over self) as [[] s0|e s0|]; [| | |done].
    - right. destruct Hspec as [-> Hall]. split; [|done].
      by destruct (Z.leb_spec 1 (_num_players self)); [|lia].
    - left. by destruct Hspec as [-> _].
    - destruct Hspec as (q & Hq & _ & _ & He).
      destruct (players_ok_remaining self q Hok Hq). congruence. }
  destruct Hcases as [Hgo|[Hgo Hall]].
  - (* somebody can still play *)
    assert (Hw : winners self = Returned None self)
      by (unfold winners, bind; by rewrite Hgo).
    split; [eauto|]. split; [split; eauto|].
    intros [s' Hs']. congruence.
  - (* nobody can *)
    set (n := _num_players self) in *.
    set (s1 := with_curr_player n self) in *.
    set (scores := score_of self <$> seqZ 1 n).
    assert (Hlen : len scores = Z.of_nat (Z.to_nat n)).
    { unfold len, scores. by rewrite length_fmap, length_seqZ. }
    assert (Hscores : scores ≠ []).
    { intros Hnil. rewrite Hnil in Hlen. unfold len in Hlen.
      simpl in Hlen. lia. }
    destruct (py_max_spec scores Hscores) as (m & Hm & Hin & Hmax).
    set (ws := filter (fun p => score_of self p = m) (seqZ 1 n)).
    assert (Hw : winners self = Returned (Some ws) s1).
    { unfold winners. unfold bind at 1. rewrite Hgo.
      unfold bind at 1, get at 1. unfold bind at 1, read at 1.
      unfold py_range.
      replace (_num_players s1 + 1 - 1) with n by (subst s1 n; simpl; lia).
      assert (Hsc : scores_comp (seqZ 1 n) s1 = Val scores).
      { apply (scores_comp_spec s1 (seqZ 1 n) Hcat Hok).
        intros p Hp. apply elem_of_seqZ in Hp. subst s1 n. simpl. lia. }
      rewrite Hsc. unfold bind at 1, read at 1.
      unfold enumerate. rewrite Hlen. unfold scores at 2.
      replace (seqZ 1 n) with (seqZ (0 + 1) (Z.of_nat (Z.to_nat n)))
        by (f_equal; lia).
      rewrite (winners_comp_seq scores m (score_of self) (Z.to_nat n) Hm 0).
      rewrite Z2Nat.id by lia. done. }
    assert (Hmem : ∀ p, p ∈ ws ↔ 1 <= p <= n ∧ score_of self p = m).
    { intros p. unfold ws. rewrite list_elem_of_filter, elem_of_seqZ.
      split; intros [? ?]; split; (done || lia). }
    split; [eauto|]. split.
    + split; intros [s' Hs']; congruence.
    + intros _. exists ws, m, s1. split; [done|].
      apply list_elem_of_fmap in Hin as (q & Hq & Hqin).
      apply elem_of_seqZ in Hqin.
      split; [exists q; split; [lia | done]|].
      split.
      * intros q' Hq'. apply Hmax. apply list_elem_of_fmap. exists q'.
        split; [done|]. apply elem_of_seqZ. lia.
      * split; [done|]. split; [done|]. intros Hnil.
        assert (q ∈ ws) as Hqw by (apply Hmem; split; [lia | done]).
        rewrite Hnil in Hqw. by apply not_elem_of_nil in Hqw.
Qed.

(** ** Grids to text and back *)

Lemma str_append_cons (c : ascii) (s1 s2 : string) :
  String c s1 +:+ s2 = String c (s1 +:+ s2).
Proof. reflexivity. Qed.

Lemma str_append_nil_l (s : string) : "" +:+ s = s.
Proof. reflexivity. Qed.

Ltac str_simpl := rewrite ?str_append_cons, ?str_append_nil_l.

Lemma str_append_assoc (s1 s2 s3 : string) :
  (s1 +:+ s2) +:+ s3 = s1 +:+ (s2 +:+ s3).
Proof. induction s1 as [|c s1 IH]; str_simpl; [done|]. by rewrite IH. Qed.

Lemma str_append_nil_r (s : string) : s +:+ "" = s.
Proof. induction s as [|c s IH]; str_simpl; [done|]. by rewrite IH. Qed.

Lemma digit_cases (p : Z) :
  0 <= p <= 9 ->
  p = 0 ∨ p = 1 ∨ p = 2 ∨ p = 3 ∨ p = 4 ∨ p = 5 ∨ p = 6 ∨ p = 7 ∨ p = 8 ∨
  p = 9.
Proof. lia. Qed.

Lemma cell_to_string_digit (cell : Cell) :
  digit_cell cell ->
  cell_to_string cell = String (cell_char cell) (String space "").
Proof.
  destruct cell as [[p k]|]; simpl; [|done]. intros Hp.
  destruct (digit_cases p Hp) as [->|[->|[->|[->|[->|[->|[->|[->|[->| ->]]]]]]]]];
    reflexivity.
Qed.

Lemma parse_cell_digit (k : ShapeKind.t) (cell : Cell) :
  digit_cell cell ->
  (if Ascii.eqb (cell_char cell) space then Val None
   else
     let! player := int_of_char (cell_char cell) in
     let! shape := Val k in
     Val (Some (player, shape))) = Val (relabel_cell k cell).
Proof.
  destruct cell as [[p k']|]; simpl; [|done]. intros Hp.
  destruct (digit_cases p Hp) as [->|[->|[->|[->|[->|[->|[->|[->|[->| ->]]]]]]]]];
    reflexivity.
Qed.

Lemma cell_char_no_newline (cell : Cell) :
  digit_cell cell -> cell_char cell ≠ newline.
Proof.
  destruct cell as [[p k']|]; simpl; [|done]. intros Hp.
  destruct (digit_cases p Hp) as [->|[->|[->|[->|[->|[->|[->|[->|[->| ->]]]]]]]]];
    done.
Qed.

Lemma row_to_string_cells (row : list Cell) (acc : string) :
  Forall digit_cell row -> row_to_string row acc = acc +:+ cells_str row.
Proof.
  intros Hrow. revert acc. induction Hrow as [|cell rest Hc Hrest IH];
    intros acc; simpl.
  - by rewrite str_append_nil_r.
  - rewrite IH, str_append_assoc, cell_to_string_digit by done.
    by str_simpl.
Qed.

Lemma row_line (row : list Cell) :
  Forall digit_cell row ->
  row_to_string row "|" +:+ "|" = line_of_row row.
Proof.
  intros Hrow. rewrite row_to_string_cells by done. unfold line_of_row.
  by str_simpl.
Qed.

Lemma str_get_lt (s : string) (n : nat) (c : ascii) :
  String.get n s = Some c -> (n < String.length s)%nat.
Proof.
  revert n. induction s as [|d s IH]; intros n; simpl; [done|].
  destruct n as [|n]; [lia|]. intros H. apply IH in H. lia.
Qed.

Lemma str_index_get (s : string) (i : Z) (c : ascii) :
  0 <= i -> String.get (Z.to_nat i) s = Some c -> str_index s i = Val c.
Proof.
  intros Hi Hget. pose proof (str_get_lt _ _ _ Hget) as Hlt.
  unfold str_index. destruct (Z.ltb_spec i 0); [lia|].
  destruct (Z.leb_spec 0 i); [|lia].
  destruct (Z.ltb_spec i (Z.of_nat (String.length s))); [|lia].
  simpl. by rewrite Hget.
Qed.

Lemma str_length_append (s1 s2 : string) :
  String.length (s1 +:+ s2) = (String.length s1 + String.length s2)%nat.
Proof. induction s1 as [|c s1 IH]; str_simpl; simpl; [done|]. by rewrite IH. Qed.

Lemma str_get_append (s1 s2 : string) :
  String.get (String.length s1) (s1 +:+ s2) = String.get 0 s2.
Proof. induction s1 as [|c s1 IH]; str_simpl; simpl; done. Qed.

Lemma cells_str_length (row : list Cell) :
  String.length (cells_str row) = (2 * length row)%nat.
Proof. induction row as [|c row IH]; simpl; [done|]. rewrite IH. lia. Qed.

Lemma range2_cons (a n : Z) :
  0 <= n ->
  (fun j => a + 2 * j) <$> seqZ 0 (n + 1) =
  a :: ((fun j => (a + 2) + 2 * j) <$> seqZ 0 n).
Proof.
  intros Hn. rewrite seqZ_cons by lia.
  replace (Z.succ 0) with (1 + 0) by lia.
  replace (Z.pred (n + 1)) with n by lia.
  rewrite <- fmap_add_seqZ, fmap_cons, <- list_fmap_compose.
  f_equal; [lia|]. apply list_fmap_ext. intros _ j _. simpl. lia.
Qed.

Lemma line_to_row_cells (k : ShapeKind.t) (row : list Cell)
    (pre post : string) :
  Forall digit_cell row ->
  line_to_row (Val k) (pre +:+ (cells_str row +:+ post))
    ((fun j => Z.of_nat (String.length pre) + 2 * j) <$> seqZ 0 (len row)) =
  Val (map (relabel_cell k) row).
Proof.
  intros Hrow. revert pre. induction Hrow as [|cell rest Hc Hrest IH];
    intros pre; [done|].
  unfold len. rewrite length_cons, Nat2Z.inj_succ, <- Z.add_1_r.
  rewrite range2_cons by lia. cbn [line_to_row].
  rewrite (str_index_get _ _ (cell_char cell)); [|lia|].
  2:{ rewrite Nat2Z.id, str_get_append. simpl cells_str. by str_simpl. }
  unfold res_bind at 1. cbv beta iota.
  rewrite parse_cell_digit by done. unfold res_bind at 1. cbv beta iota.
  specialize (IH (pre +:+ String (cell_char cell) (String space ""))).
  rewrite str_append_assoc in IH. rewrite !str_append_cons in IH.
  rewrite str_append_nil_l in IH.
  rewrite str_length_append in IH. simpl String.length in IH.
  replace (Z.of_nat (String.length pre + 2))
    with (Z.of_nat (String.length pre) + 2) in IH by lia.
  simpl cells_str. str_simpl. unfold len in IH. rewrite IH. done.
Qed.

Lemma line_of_row_parse (k : ShapeKind.t) (row : list Cell) :
  Forall digit_cell row ->
  line_to_row (Val k) (line_of_row row)
    (py_range2 1 (Z.of_nat (String.length (line_of_row row)) - 1)) =
  Val (map (relabel_cell k) row).
Proof.
  intros Hrow. unfold py_range2, line_of_row. simpl String.length.
  rewrite str_length_append, cells_str_length. simpl String.length.
  replace ((Z.of_nat (S (2 * length row + 1)) - 1 - 1 + 1) `div` 2)
    with (len row).
  2:{ unfold len. apply Z.div_unique with (r := 1); lia. }
  apply (line_to_row_cells k row "|" "|" Hrow).
Qed.

Lemma lines_to_cells_rows (k : ShapeKind.t) (g : Grid) :
  digit_grid g ->
  lines_to_cells (Val k) (map line_of_row g) = Val (relabel k g).
Proof.
  intros Hg. induction Hg as [|row g Hrow Hg IH]; simpl; [done|].
  rewrite line_of_row_parse by done. simpl. rewrite IH. done.
Qed.

Lemma no_char_append (c : ascii) (s1 s2 : string) :
  no_char c (s1 +:+ s2) ↔ no_char c s1 ∧ no_char c s2.
Proof.
  induction s1 as [|d s1 IH]; str_simpl; simpl; [tauto|]. rewrite IH. tauto.
Qed.

Lemma str_split_none (c : ascii) (s : string) :
  no_char c s -> str_split c s = [s].
Proof.
  induction s as [|d s IH]; simpl; [done|]. intros [Hd Hs].
  destruct (Ascii.eqb_spec d c); [done|]. by rewrite IH.
Qed.

Lemma str_split_first (c : ascii) (s rest : string) :
  no_char c s ->
  str_split c (s +:+ String c rest) = s :: str_split c rest.
Proof.
  induction s as [|d s IH]; str_simpl; simpl.
  - intros _. by rewrite Ascii.eqb_refl.
  - intros [Hd Hs]. destruct (Ascii.eqb_spec d c); [done|]. by rewrite IH.
Qed.

Lemma str_split_join (c : ascii) (lines : list string) :
  lines ≠ [] -> Forall (no_char c) lines ->
  str_split c (str_join (String c "") lines) = lines.
Proof.
  intros Hne Hall. induction Hall as [|line rest Hline Hrest IH]; [done|].
  unfold str_join. destruct rest as [|line' rest'].
  - simpl. by apply str_split_none.
  - change (String.concat (String c "") (line :: line' :: rest'))
      with (line +:+ (String c "" +:+
                      String.concat (String c "") (line' :: rest'))).
    str_simpl. rewrite str_split_first by done. f_equal. by apply IH.
Qed.

Lemma str_rstrip_last (s : string) (c : ascii) :
  is_space c = false -> str_rstrip (s +:+ String c "") = s +:+ String c "".
Proof.
  intros Hc. induction s as [|d s IH]; str_simpl; simpl.
  - by rewrite Hc.
  - rewrite IH. destruct s; str_simpl; done.
Qed.

Lemma str_join_last (sep : string) (l : list string) (x b : string) :
  ∃ pre, str_join sep (x :: l ++ [b]) = pre +:+ b.
Proof.
  revert x. induction l as [|y l IH]; intros x.
  - exists (x +:+ sep). unfold str_join. simpl.
    by rewrite str_append_assoc.
  - destruct (IH y) as [pre Hpre]. exists (x +:+ sep +:+ pre).
    unfold str_join in *. simpl app in *.
    change (String.concat sep (x :: y :: l ++ [b]))
      with (x +:+ (sep +:+ String.concat sep (y :: l ++ [b]))).
    rewrite Hpre. by rewrite !str_append_assoc.
Qed.

Lemma slice_inner {A} (b1 b2 : A) (l : list A) :
  slice_1_m1 (b1 :: l ++ [b2]) = l.
Proof.
  unfold slice_1_m1. cbn [drop].
  replace (length (b1 :: l ++ [b2]) - 2)%nat with (length l)
    by (rewrite length_cons, length_app; simpl; lia).
  rewrite drop_0. by rewrite take_app_length.
Qed.

Lemma no_newline_repeat (n : nat) :
  no_char newline (String.concat "" (replicate n "-")).
Proof.
  induction n as [|n IH]; simpl; [done|].
  destruct (replicate n "-") eqn:E; simpl in *; [done|]. split; [done|].
  exact IH.
Qed.

Lemma no_newline_cells (row : list Cell) :
  Forall digit_cell row -> no_char newline (cells_str row).
Proof.
  induction 1 as [|cell rest Hc Hrest IH]; simpl; [done|].
  split; [by apply cell_char_no_newline|]. split; [done | exact IH].
Qed.

Lemma no_newline_line (row : list Cell) :
  Forall digit_cell row -> no_char newline (line_of_row row).
Proof.
  intros Hrow. unfold line_of_row. simpl. split; [done|].
  apply no_char_append. split; [by apply no_newline_cells | done].
Qed.

(** Up to the attribute [ShapeKind.One] the round trip works: were [One] a
    member [k] of the enumeration, a grid whose player ids are single digits
    would come back with the same rows, the same occupied cells and the same
    player ids, every kind replaced by [k]. *)
Lemma round_trip_with (k : ShapeKind.t) (g : Grid) :
  digit_grid g ->
  string_to_grid_with (Val k) (grid_to_string g) = Val (relabel k g).
Proof.
  intros Hg. unfold string_to_grid_with, grid_to_string.
  set (border := "+" +:+ _ +:+ "+").
  assert (Hlines : map (fun row => row_to_string row "|" +:+ "|") g =
                   map line_of_row g).
  { apply map_ext_Forall. eapply Forall_impl; [exact Hg|].
    intros row Hrow. by apply row_line. }
  rewrite Hlines. simpl app.
  assert (Hborder : no_char newline border).
  { unfold border. str_simpl. split; [done|]. apply no_char_append.
    split; [apply no_newline_repeat | done]. }
  set (lines := map line_of_row g).
  set (joined := str_join (String newline "") (border :: lines ++ [border])).
  assert (Hl : str_lstrip joined = joined).
  { unfold joined, str_join. destruct (lines ++ [border]) as [|y l'] eqn:E.
    - by apply app_eq_nil in E as [_ ?].
    - change (String.concat (String newline "") (border :: y :: l'))
        with (border +:+ (String newline "" +:+
                          String.concat (String newline "") (y :: l'))).
      unfold border. by str_simpl. }
  assert (Hr : str_rstrip joined = joined).
  { unfold joined.
    destruct (str_join_last (String newline "") lines border border)
      as [pre ->].
    unfold border. rewrite <- !str_append_assoc.
    by apply str_rstrip_last. }
  unfold str_strip. rewrite Hl, Hr. unfold joined.
  rewrite str_split_join.
  - rewrite slice_inner. by apply lines_to_cells_rows.
  - done.
  - apply Forall_cons. split; [done|]. apply Forall_app. split.
    + unfold lines. apply Forall_fmap. eapply Forall_impl; [exact Hg|].
      intros row Hrow. by apply no_newline_line.
    + by apply Forall_singleton.
Qed.

(** ** Soundness of the checkers *)

Lemma grid_okb_sound (self : Blokus) : grid_okb self = true -> grid_ok self.
Proof.
  unfold grid_okb, grid_ok. rewrite !andb_true_iff.
  intros [[H1 H2] H3]. apply Z.leb_le in H1. apply Nat.eqb_eq in H2.
  split; [done|]. split; [done|]. apply Forall_forall. intros row Hrow.
  rewrite forallb_forall in H3. apply Nat.eqb_eq, H3.
  by apply list_elem_of_In.
Qed.

Lemma players_okb_sound (self : Blokus) :
  players_okb self = true -> players_ok self.
Proof.
  unfold players_okb, players_ok. rewrite forallb_forall. intros H p Hp.
  eapply bool_decide_eq_true_1, H, list_elem_of_In, elem_of_seqZ. lia.
Qed.

Lemma all_kinds_complete (k : ShapeKind.t) : k ∈ all_kinds.
Proof. destruct k; unfold all_kinds; set_solver. Qed.

Lemma catalog_okb_sound (self : Blokus) :
  catalog_okb self = true -> catalog_ok self.
Proof.
  unfold catalog_okb, catalog_ok. rewrite forallb_forall. intros H k.
  specialize (H k (proj1 (list_elem_of_In _ _) (all_kinds_complete k))).
  destruct (shapes_get (_shapes self) k) as [sh|e]; [|done].
  exists sh. split; [done|]. intros Hnil. by rewrite Hnil in H.
Qed.

(** ** The statements at work *)

Lemma game0_constructed :
  Blokus_init sample_definitions 2 5 {[ (0, 0); (4, 4) ]} = Val game0.
Proof. vm_compute. reflexivity. Qed.

Lemma game1_reachable : reachable game1.
Proof.
  eapply (reachable_step 2
            (OpMaybePlace (sample_piece ShapeKind.ONE (Some (4, 4))))
            (after (maybe_place 2 (sample_piece ShapeKind.ONE (Some (0, 0)))
                      game0) game0)).
  - eapply (reachable_step 2
              (OpMaybePlace (sample_piece ShapeKind.ONE (Some (0, 0))))
              game0).
    + exact (reachable_init _ _ _ _ _ game0_constructed).
    + vm_compute. reflexivity.
  - vm_compute. reflexivity.
Qed.

Lemma legal_to_place_after_first_move_witness :
  ∃ edges corners legal,
    Piece.cardinal_neighbors (sample_piece ShapeKind.TWO (Some (1, 1))) =
    Val edges ∧
    Piece.intercardinal_neighbors (sample_piece ShapeKind.TWO (Some (1, 1))) =
    Val corners ∧
    legal_to_place (sample_piece ShapeKind.TWO (Some (1, 1))) game1 =
    Val legal ∧
    (legal = true ↔
     (∀ q, q ∈ edges ->
        ¬ occupied_by game1 (_curr_player game1)
            (clamp_point (_size game1) q)) ∧
     (∃ q, q ∈ corners ∧
        occupied_by game1 (_curr_player game1)
          (clamp_point (_size game1) q))).
Proof.
  apply (legal_to_place_after_first_move game1
           (sample_piece ShapeKind.TWO (Some (1, 1)))
           [ShapeKind.ONE] (tail all_kinds)).
  - apply grid_okb_sound. vm_compute. reflexivity.
  - vm_compute. reflexivity.
  - discriminate.
  - eexists. reflexivity.
  - vm_compute. reflexivity.
  - vm_compute. left.
  - vm_compute. reflexivity.
Defined.

Lemma legal_to_place_first_move_witness :
  ∃ sqs legal,
    Piece.squares (sample_piece ShapeKind.ONE (Some (0, 0))) = Val sqs ∧
    legal_to_place (sample_piece ShapeKind.ONE (Some (0, 0))) game0 =
    Val legal ∧
    (legal = true ↔ ∃ q, q ∈ sqs ∧ q ∈ _start_positions game0).
Proof.
  apply (legal_to_place_first_move game0
           (sample_piece ShapeKind.ONE (Some (0, 0))) all_kinds).
  - vm_compute. reflexivity.
  - eexists. reflexivity.
  - vm_compute. reflexivity.
  - vm_compute. left.
  - vm_compute. reflexivity.
Defined.

(** C3.  In a game of two whose players have both retired, with the cursor
    on player 1, [game_over] answers [True] and leaves the cursor on player
    2: the branch that answers [True] does not put the cursor back. *)
Theorem game_over_true_moves_cursor :
  _curr_player both_retired = 1 ∧
  game_over both_retired = Returned true (with_curr_player 2 both_retired) ∧
  with_curr_player 2 both_retired ≠ both_retired.
Proof.
  split; [reflexivity|]. split; [vm_compute; reflexivity|].
  intros H. apply (f_equal _curr_player) in H. discriminate H.
Qed.

(** [both_retired] is the object [retire] by player 2 hands to [game_over]
    after player 1 has retired. *)
Lemma both_retired_arises :
  retire 2 (after (retire 2 game0) game0) = progress_loop 2 both_retired ∧
  progress_cond both_retired =
  bind game_over (fun over => ret (negb over)) both_retired.
Proof. split; vm_compute; reflexivity. Qed.

Lemma maybe_place_illegal_is_noop_witness :
  maybe_place 2 (sample_piece ShapeKind.ONE (Some (2, 2))) game0 =
  Returned false game0.
Proof.
  apply (maybe_place_illegal_is_noop game0
           (sample_piece ShapeKind.ONE (Some (2, 2))) all_kinds 2).
  - simpl. apply not_elem_of_empty.
  - eexists. reflexivity.
  - vm_compute. reflexivity.
  - vm_compute. left.
  - vm_compute. reflexivity.
Defined.

Lemma occupied_cells_never_change_witness :
  ∃ self',
    run_ops 2 [OpMaybePlace (sample_piece ShapeKind.TWO (Some (1, 1)));
               OpRetire; OpProgressTurn] game1 = Some self' ∧
    ∀ q o, cell_at (_grid game1) q = Some (Some o) ->
           cell_at (_grid self') q = Some (Some o).
Proof.
  apply (occupied_cells_never_change game1
           [OpMaybePlace (sample_piece ShapeKind.TWO (Some (1, 1)));
            OpRetire; OpProgressTurn] 2).
  - exact game1_reachable.
  - lia.
  - vm_compute. lia.
Defined.

Lemma get_score_by_cases_witness :
  (all_kinds ≠ [] ->
   get_score 1 game0 = Val (- total_squares game0 all_kinds) ∧
   - total_squares game0 all_kinds < 0) ∧
  (all_kinds = [] ->
   ∃ played last_kind,
     _shapes_played game0 !! 1 = Some played ∧
     last played = Some last_kind ∧
     get_score 1 game0 =
     Val (if square_count game0 last_kind =? 1 then 20 else 15)).
Proof.
  apply (get_score_by_cases game0 1 all_kinds).
  - apply catalog_okb_sound. vm_compute. reflexivity.
  - vm_compute. reflexivity.
Defined.

Lemma winners_are_top_scorers_witness :
  (∀ p, 1 <= p <= _num_players both_retired ->
     get_score p both_retired = Val (score_of both_retired p)) ∧
  (∃ over self', game_over both_retired = Returned over self') ∧
  ((∃ self', winners both_retired = Returned None self') ↔
   (∃ self', game_over both_retired = Returned false self')) ∧
  ((∃ self', game_over both_retired = Returned true self') ->
   ∃ ws m self',
     winners both_retired = Returned (Some ws) self' ∧
     (∃ q, 1 <= q <= _num_players both_retired ∧
           score_of both_retired q = m) ∧
     (∀ q, 1 <= q <= _num_players both_retired ->
           score_of both_retired q <= m) ∧
     ws = filter (fun p => score_of both_retired p = m)
                 (seqZ 1 (_num_players both_retired)) ∧
     (∀ p, p ∈ ws ↔
           1 <= p <= _num_players both_retired ∧
           score_of both_retired p = m) ∧
     ws ≠ []).
Proof.
  apply (winners_are_top_scorers both_retired).
  - vm_compute. discriminate.
  - apply players_okb_sound. vm_compute. reflexivity.
  - apply catalog_okb_sound. vm_compute. reflexivity.
Defined.

Lemma progress_turn_terminates_on_playable_witness :
  ∃ self',
    progress_turn 2 game_retired1 = Returned tt self' ∧
    self' = with_curr_player (_curr_player self') game_retired1 ∧
    (game_over self' = Returned false self' ->
     playable self' (_curr_player self') ∧
     ∃ k : nat,
       (1 <= k <= Z.to_nat (_num_players game_retired1))%nat ∧
       _curr_player self' =
       Nat.iter k (next_player (_num_players game_retired1))
         (_curr_player game_retired1) ∧
       ∀ j, (1 <= j < k)%nat ->
         stuck game_retired1
           (Nat.iter j (next_player (_num_players game_retired1))
              (_curr_player game_retired1))) ∧
    (_num_players game_retired1 = 2 -> _curr_player game_retired1 = 1 ->
     1 ∈ _retired game_retired1 ->
     (∃ rs, remaining_shapes 2 game_retired1 = Val rs ∧ rs ≠ []) ->
     _curr_player self' = 2).
Proof.
  apply (progress_turn_terminates_on_playable game_retired1 2).
  - vm_compute. split; discriminate.
  - apply players_okb_sound. vm_compute. reflexivity.
  - vm_compute. lia.
Defined.

(** C9.  Turning a grid with an occupied cell into text and back raises:
    [string_to_grid] names the kind of every occupied cell [ShapeKind.One],
    and the enumeration has no such member (it has [ONE]). *)
Theorem string_to_grid_raises_on_occupied_cell :
  grid_to_string [[Some (1, ShapeKind.ONE)]] =
  String.concat (String newline "") ["+--+"; "|1 |"; "+--+"] ∧
  string_to_grid (grid_to_string [[Some (1, ShapeKind.ONE)]]) =
  Exn (AttributeError "One").
Proof. split; vm_compute; reflexivity. Qed.

Lemma maybe_place_retired_skips_witness :
  ∃ self',
    maybe_place 2 (sample_piece ShapeKind.ONE None) game_retired1 =
    Returned true self' ∧
    progress_turn 2 game_retired1 = Returned tt self' ∧
    _grid self' = _grid game_retired1 ∧
    _shapes_played self' = _shapes_played game_retired1 ∧
    _retired self' = _retired game_retired1.
Proof.
  apply (maybe_place_retired_skips game_retired1
           (sample_piece ShapeKind.ONE None) 2).
  - vm_compute. set_solver.
  - vm_compute. discriminate.
  - apply players_okb_sound. vm_compute. reflexivity.
  - vm_compute. lia.
Defined.

(** ** What the checks of a placement say *)

Lemma off_board_false (size : Z) (q : Point) :
  off_board size q = false ↔ in_bounds size q.
Proof.
  unfold off_board, in_bounds. rewrite !orb_false_iff, !Z.geb_leb.
  rewrite !Z.ltb_ge, !Z.leb_gt. lia.
Qed.

Lemma check_piece_held (piece : Piece.t) (self : Blokus)
    (rs : list ShapeKind.t) :
  is_Some (Piece.anchor piece) ->
  remaining_shapes (_curr_player self) self = Val rs ->
  Shape.kind (Piece.shape piece) ∈ rs ->
  check_piece piece self = Val tt.
Proof.
  intros [a Ha] Hrs Hk. unfold check_piece. rewrite Ha, Hrs. simpl.
  by rewrite bool_decide_eq_true_2.
Qed.

Lemma wall_collisions_spec (piece : Piece.t) (self : Blokus)
    (rs : list ShapeKind.t) (sqs : list Point) :
  Piece.squares piece = Val sqs ->
  remaining_shapes (_curr_player self) self = Val rs ->
  Shape.kind (Piece.shape piece) ∈ rs ->
  ∃ b, any_wall_collisions piece self = Val b ∧
       (b = true ↔ ∃ q, q ∈ sqs ∧ ¬ in_bounds (_size self) q).
Proof.
  intros Hsqs Hrs Hk.
  assert (Ha : is_Some (Piece.anchor piece)).
  { unfold Piece.squares in Hsqs. destruct (Piece.anchor piece); [eauto|done]. }
  exists (existsb (off_board (_size self)) sqs). split.
  - unfold any_wall_collisions.
    by rewrite (check_piece_held _ _ _ Ha Hrs Hk), Hsqs.
  - rewrite existsb_exists. split.
    + intros (q & Hq & Hoff). exists q. split; [by apply list_elem_of_In|].
      intros Hin. apply off_board_false in Hin. congruence.
    + intros (q & Hq & Hout). exists q. split; [by apply list_elem_of_In|].
      destruct (off_board (_size self) q) eqn:E; [done|].
      by apply off_board_false in E.
Qed.

Lemma occupied_loop_spec (self : Blokus) (sqs : list Point) :
  grid_ok self ->
  (∀ q, q ∈ sqs -> in_bounds (_size self) q) ->
  ∃ b, occupied_loop (_grid self) sqs = Val b ∧
       (b = true ↔
        ∃ q o, q ∈ sqs ∧ cell_at (_grid self) q = Some (Some o)).
Proof.
  intros Hok. induction sqs as [|q0 rest IH]; intros Hin; simpl.
  - exists false. split; [done|]. split; [done|].
    intros (q & o & Hq & _). by apply not_elem_of_nil in Hq.
  - destruct (Hin q0 ltac:(left)) as [H1 H2].
    destruct (grid_ok_cell_at self q0 Hok H1 H2) as [c Hc].
    rewrite (proj2 (grid_at_cell_at (_grid self) q0 c (proj1 H1) (proj1 H2))
               Hc). simpl.
    destruct c as [o|].
    + exists true. split; [done|]. split; [|done]. intros _.
      exists q0, o. split; [left | done].
    + destruct IH as (b & -> & Hb); [intros q Hq; apply Hin; by right|].
      exists b. split; [done|]. rewrite Hb. split.
      * intros (q & o & Hq & Ho). exists q, o. split; [by right | done].
      * intros (q & o & Hq & Ho). apply elem_of_cons in Hq as [->|Hq].
        -- congruence.
        -- eauto.
Qed.

Lemma collisions_spec (piece : Piece.t) (self : Blokus)
    (rs : list ShapeKind.t) (sqs : list Point) :
  grid_ok self ->
  Piece.squares piece = Val sqs ->
  remaining_shapes (_curr_player self) self = Val rs ->
  Shape.kind (Piece.shape piece) ∈ rs ->
  ∃ b, any_collisions piece self = Val b ∧
       (b = true ↔
        ∃ q, q ∈ sqs ∧
             (¬ in_bounds (_size self) q ∨
              ∃ o, cell_at (_grid self) q = Some (Some o))).
Proof.
  intros Hok Hsqs Hrs Hk.
  assert (Ha : is_Some (Piece.anchor piece)).
  { unfold Piece.squares in Hsqs. destruct (Piece.anchor piece); [eauto|done]. }
  destruct (wall_collisions_spec piece self rs sqs Hsqs Hrs Hk)
    as (wall & Hwall & Hwall_iff).
  unfold any_collisions.
  rewrite (check_piece_held _ _ _ Ha Hrs Hk), Hwall, Hsqs. simpl.
  destruct wall.
  - exists true. split; [done|]. split; [|done]. intros _.
    destruct (proj1 Hwall_iff eq_refl) as (q & Hq & Hout). eauto.
  - assert (Hin : ∀ q, q ∈ sqs -> in_bounds (_size self) q).
    { intros q Hq. destruct (decide (0 <= q.1 < _size self ∧
                                     0 <= q.2 < _size self)) as [|Hn];
        [done|].
      assert (false = true); [|done]. apply Hwall_iff. eauto. }
    destruct (occupied_loop_spec self sqs Hok Hin) as (b & -> & Hb).
    exists b. split; [done|]. rewrite Hb. split.
    + intros (q & o & Hq & Ho). eauto.
    + intros (q & Hq & [Hout|[o Ho]]); [by destruct Hout; apply Hin|eauto].
Qed.

(** legal_to_place never raises on a well-formed game. *)
Lemma legal_to_place_val (piece : Piece.t) (self : Blokus)
    (rs : list ShapeKind.t) :
  grid_ok self ->
  is_Some (_shapes_played self !! _curr_player self) ->
  is_Some (Piece.anchor piece) ->
  remaining_shapes (_curr_player self) self = Val rs ->
  Shape.kind (Piece.shape piece) ∈ rs ->
  ∃ b, legal_to_place piece self = Val b.
Proof.
  intros Hok [played Hplayed] Ha Hrs Hk.
  destruct (squares_anchored piece Ha) as [sqs Hsqs].
  destruct (collisions_spec piece self rs sqs Hok Hsqs Hrs Hk)
    as (col & Hcol & _).
  unfold legal_to_place.
  rewrite (check_piece_held _ _ _ Ha Hrs Hk), Hcol. simpl.
  destruct col; [eauto|].
  unfold dict_get. rewrite Hplayed. simpl.
  destruct (len played <=? 0).
  - rewrite Hsqs. simpl. destruct (negb _); eauto.
  - unfold Piece.intercardinal_neighbors, Piece.cardinal_neighbors.
    rewrite Hsqs. simpl.
    destruct (edges_rule_spec self
                (remove_dups (filter (fun q => q ∉ sqs)
                                (concat (map Piece.cardinal_of sqs)))) Hok)
      as (hit & -> & _).
    simpl. destruct hit; [eauto|].
    match goal with
    | |- context [corners_rule self ?cs false] =>
        destruct (corners_rule_spec self cs false Hok) as (t & -> & _)
    end.
    simpl. destruct (negb t); eauto.
Qed.

(** A legal placement lies on the board, on free cells. *)
Lemma legal_free_cells (piece : Piece.t) (self : Blokus) :
  legal_to_place piece self = Val true ->
  ∃ sqs, Piece.squares piece = Val sqs ∧
    ∀ q, q ∈ sqs ->
      in_bounds (_size self) q ∧ cell_at (_grid self) q = Some None.
Proof.
  intros H. apply legal_to_place_true, any_collisions_false in H. exact H.
Qed.

(** ** One call, one step *)

Lemma py_setitem_nonneg_val {A} (l : list A) (i : Z) (a : A) :
  0 <= i -> (Z.to_nat i < length l)%nat ->
  py_setitem l i a = Val (<[Z.to_nat i := a]> l).
Proof.
  intros Hi Hlt. unfold py_setitem, py_norm_index, len.
  destruct (Z.ltb_spec i 0); [lia|].
  destruct (Z.leb_spec 0 i); [|lia].
  destruct (Z.ltb_spec i (Z.of_nat (length l))); [|lia]. done.
Qed.

Lemma cell_at_inv (g : Grid) (q : Point) (c : Cell) :
  cell_at g q = Some c ->
  0 <= q.1 ∧ 0 <= q.2 ∧
  ∃ row, g !! Z.to_nat q.1 = Some row ∧ row !! Z.to_nat q.2 = Some c.
Proof.
  unfold cell_at. destruct (Z.leb_spec 0 q.1); [|done].
  destruct (Z.leb_spec 0 q.2); [|done]. simpl.
  destruct (g !! Z.to_nat q.1) as [row|]; [|done]. eauto.
Qed.

Lemma cell_at_grid_write (v : Cell) (g : Grid) (q0 q : Point) :
  is_Some (cell_at g q0) ->
  cell_at (grid_write v g q0) q =
  if decide (q = q0) then Some v else cell_at g q.
Proof.
  intros [c Hc]. apply cell_at_inv in Hc as (H1 & H2 & row & Hrow & Hcell).
  unfold grid_write. rewrite Hrow. case_decide as Hq.
  - subst q. unfold cell_at.
    destruct (Z.leb_spec 0 q0.1); [|lia]. destruct (Z.leb_spec 0 q0.2); [|lia].
    simpl. rewrite list_lookup_insert_eq by (by eapply lookup_lt_Some).
    by rewrite list_lookup_insert_eq by (by eapply lookup_lt_Some).
  - unfold cell_at.
    destruct ((0 <=? q.1) && (0 <=? q.2)) eqn:Hnn; [|done].
    apply andb_true_iff in Hnn as [Hq1%Z.leb_le Hq2%Z.leb_le].
    destruct (decide (Z.to_nat q0.1 = Z.to_nat q.1)) as [Heq|Hne].
    + rewrite <- Heq, Hrow.
      rewrite list_lookup_insert_eq by (by eapply lookup_lt_Some).
      apply list_lookup_insert_ne. intros Heq2. apply Hq.
      destruct q, q0; simpl in *. f_equal; lia.
    + by rewrite list_lookup_insert_ne.
Qed.

Lemma cell_at_grid_writes (v : Cell) (sqs : list Point) (g : Grid)
    (q : Point) :
  (∀ q0, q0 ∈ sqs -> is_Some (cell_at g q0)) ->
  cell_at (grid_writes v g sqs) q =
  if decide (q ∈ sqs) then Some v else cell_at g q.
Proof.
  revert g. induction sqs as [|q0 rest IH]; intros g Hin.
  - unfold grid_writes. cbn [foldl].
    destruct (decide (q ∈ [])) as [H|H]; [by apply not_elem_of_nil in H|done].
  - unfold grid_writes. cbn [foldl].
    fold (grid_writes v (grid_write v g q0) rest).
    rewrite IH.
    + rewrite cell_at_grid_write by (apply Hin; left).
      destruct (decide (q ∈ rest)) as [H1|H1],
               (decide (q = q0)) as [H2|H2],
               (decide (q ∈ q0 :: rest)) as [H3|H3]; try done;
        rewrite elem_of_cons in H3; tauto.
    + intros q1 Hq1. rewrite cell_at_grid_write by (apply Hin; left).
      destruct (decide (q1 = q0)); [eauto|]. apply Hin. by right.
Qed.

Lemma grid_set_returns (q0 : Point) (v : Cell) (self : Blokus) :
  is_Some (cell_at (_grid self) q0) ->
  grid_set q0 v self =
  Returned tt (with_grid (grid_write v (_grid self) q0) self).
Proof.
  intros [c Hc]. apply cell_at_inv in Hc as (H1 & H2 & row & Hrow & Hcell).
  unfold grid_set, grid_write. unfold bind at 1, get at 1.
  unfold bind at 1, read at 1.
  rewrite (proj2 (py_index_nonneg _ _ row H1) Hrow).
  unfold bind at 1, read at 1.
  rewrite py_setitem_nonneg_val by (try done; by eapply lookup_lt_Some).
  unfold bind at 1, read at 1.
  rewrite py_setitem_nonneg_val by (try done; by eapply lookup_lt_Some).
  by rewrite Hrow.
Qed.

Lemma place_loop_returns (sqs : list Point) (v : Cell) (self : Blokus) :
  (∀ q, q ∈ sqs -> is_Some (cell_at (_grid self) q)) ->
  place_loop sqs v self =
  Returned tt (with_grid (grid_writes v (_grid self) sqs) self).
Proof.
  revert self. induction sqs as [|q0 rest IH]; intros self Hin.
  - simpl. unfold ret. by destruct self.
  - cbn [place_loop]. unfold bind.
    rewrite grid_set_returns by (apply Hin; left).
    rewrite IH; [done|]. intros q Hq. simpl.
    rewrite cell_at_grid_write by (apply Hin; left).
    destruct (decide (q = q0)); [eauto|]. apply Hin. by right.
Qed.

Lemma legal_to_place_true_inv (piece : Piece.t) (self : Blokus) :
  legal_to_place piece self = Val true ->
  ∃ rs sqs pl,
    is_Some (Piece.anchor piece) ∧
    remaining_shapes (_curr_player self) self = Val rs ∧
    Shape.kind (Piece.shape piece) ∈ rs ∧
    Piece.squares piece = Val sqs ∧
    _shapes_played self !! _curr_player self = Some pl ∧
    ∀ q, q ∈ sqs ->
      in_bounds (_size self) q ∧ cell_at (_grid self) q = Some None.
Proof.
  intros H.
  destruct (legal_free_cells piece self H) as (sqs & Hsqs & Hfree).
  unfold legal_to_place in H.
  apply res_bind_val in H as ([] & Hcheck & H).
  apply res_bind_val in H as (col & Hcol & H). destruct col; [done|].
  apply res_bind_val in H as (pl & Hpl & _).
  unfold dict_get in Hpl.
  destruct (_shapes_played self !! _curr_player self) as [pl'|] eqn:E;
    [|done]. injection Hpl as ->.
  unfold check_piece in Hcheck.
  destruct (Piece.anchor piece) as [a|] eqn:Ha; [|done].
  apply res_bind_val in Hcheck as (rs & Hrs & Hcheck).
  case_bool_decide as Hk; [|done].
  exists rs, sqs, pl. eauto 10.
Qed.

(** What a legal [maybe_place] does before the turn moves on. *)
Lemma maybe_place_legal (fuel : nat) (piece : Piece.t) (self : Blokus) :
  _curr_player self ∉ _retired self ->
  legal_to_place piece self = Val true ->
  ∃ sqs pl,
    Piece.squares piece = Val sqs ∧
    _shapes_played self !! _curr_player self = Some pl ∧
    maybe_place fuel piece self =
    bind (progress_turn fuel) (fun _ => ret true)
      (placed_state self (Shape.kind (Piece.shape piece)) sqs pl).
Proof.
  intros Hret Hlegal.
  destruct (legal_to_place_true_inv piece self Hlegal)
    as (rs & sqs & pl & [a Ha] & Hrs & Hk & Hsqs & Hpl & Hfree).
  exists sqs, pl. split; [done|]. split; [done|].
  unfold maybe_place. unfold bind at 1, get at 1. unfold bind at 1, get at 1.
  rewrite bool_decide_eq_true_2 by done. rewrite Ha.
  unfold bind at 1, read at 1. rewrite Hrs.
  rewrite bool_decide_eq_false_2 by (by intros ?).
  unfold bind at 1, read at 1. rewrite Hlegal. cbn [negb].
  unfold bind at 1, read at 1. rewrite Hsqs.
  unfold bind at 1. rewrite place_loop_returns.
  2:{ intros q Hq. destruct (Hfree q Hq) as [_ ->]. eauto. }
  unfold bind at 1. unfold append_played, bind at 1, get at 1.
  unfold bind at 1, read at 1, dict_get. simpl _shapes_played. rewrite Hpl.
  unfold assign. done.
Qed.

Lemma maybe_place_step (fuel : nat) (piece : Piece.t) (self self' : Blokus) :
  final (maybe_place fuel piece self) = Some self' -> step self self'.
Proof.
  destruct (decide (_curr_player self ∈ _retired self)) as [Hret|Hret].
  - unfold maybe_place. unfold bind at 1, get at 1. unfold bind at 1, get at 1.
    rewrite bool_decide_eq_false_2 by (by intros ?).
    rewrite final_bind. intros H. apply (step_turn _ _ fuel).
    by destruct (progress_turn fuel self) as [[] s|e s|].
  - destruct (legal_to_place piece self) as [[]|e] eqn:Hlegal.
    + destruct (maybe_place_legal fuel piece self Hret Hlegal)
        as (sqs & pl & Hsqs & Hpl & ->).
      rewrite final_bind. intros H.
      apply (step_place _ _ fuel piece sqs pl); try done.
    + unfold maybe_place. unfold bind at 1, get at 1.
      unfold bind at 1, get at 1.
      rewrite bool_decide_eq_true_2 by done.
      destruct (Piece.anchor piece) as [a|]; [|intros [= <-]; by apply step_none].
      unfold bind at 1, read at 1.
      destruct (remaining_shapes (_curr_player self) self) as [rs|e];
        [|intros [= <-]; by apply step_none].
      case_bool_decide; [intros [= <-]; by apply step_none|].
      unfold bind at 1, read at 1. rewrite Hlegal. simpl.
      intros [= <-]; by apply step_none.
    + unfold maybe_place. unfold bind at 1, get at 1.
      unfold bind at 1, get at 1.
      rewrite bool_decide_eq_true_2 by done.
      destruct (Piece.anchor piece) as [a|]; [|intros [= <-]; by apply step_none].
      unfold bind at 1, read at 1.
      destruct (remaining_shapes (_curr_player self) self) as [rs|e'];
        [|intros [= <-]; by apply step_none].
      case_bool_decide; [intros [= <-]; by apply step_none|].
      unfold bind at 1, read at 1. rewrite Hlegal. simpl.
      intros [= <-]; by apply step_none.
Qed.

Lemma run_op_step (fuel : nat) (op : Op) (self self' : Blokus) :
  run_op fuel op self = Some self' -> step self self'.
Proof.
  destruct op as [piece| |]; simpl.
  - apply maybe_place_step.
  - intros H. by apply (step_retire _ _ fuel).
  - intros H. by apply (step_turn _ _ fuel).
Qed.

(** ** The invariant of the games one can reach *)

Lemma game_over_cases (self : Blokus) :
  1 <= _num_players self -> players_ok self ->
  (game_over self = Returned false self ∧
   ∃ p, 1 <= p <= _num_players self ∧ playable self p) ∨
  (game_over self =
   Returned true (with_curr_player (_num_players self) self) ∧
   ∀ p, 1 <= p <= _num_players self -> stuck self p).
Proof.
  intros Hn Hok. pose proof (game_over_spec self) as Hspec.
  destruct (game_over self) as [[] s0|e s0|]; [| | |done].
  - right. destruct Hspec as [-> Hall]. split; [|done].
    by destruct (Z.leb_spec 1 (_num_players self)); [|lia].
  - left. by destruct Hspec as [-> ?].
  - destruct Hspec as (q & Hq & _ & _ & He).
    destruct (players_ok_remaining self q Hok Hq). congruence.
Qed.

Lemma progress_loop_final (fuel : nat) (self self' : Blokus) :
  1 <= _num_players self -> players_ok self ->
  1 <= _curr_player self <= _num_players self ->
  final (progress_loop fuel self) = Some self' ->
  ∃ c, self' = with_curr_player c self ∧
       1 <= c <= _num_players self ∧
       (playable self c ∨ ∀ p, 1 <= p <= _num_players self -> stuck self p).
Proof.
  revert self. induction fuel as [|fuel IH]; intros self Hn Hok Hc; [done|].
  cbn [progress_loop]. rewrite final_bind.
  destruct (players_ok_playable_or_stuck self (_curr_player self) Hok Hc)
    as [Hplay|Hstuck].
  - rewrite progress_cond_playable by done. simpl. intros [= <-].
    exists (_curr_player self). rewrite with_curr_player_id. eauto.
  - rewrite progress_cond_stuck by done. unfold bind at 1.
    destruct (game_over_cases self Hn Hok) as [[-> Hex]|[-> Hall]].
    + cbn [ret negb]. rewrite final_bind, advance_spec by lia.
      set (c1 := next_player _ _). intros H.
      apply (IH (with_curr_player c1 self)) in H; try done.
      by apply next_player_range.
    + simpl. intros [= <-]. exists (_num_players self).
      split; [done|]. split; [lia | by right].
Qed.

Lemma progress_turn_final (fuel : nat) (self self' : Blokus) :
  1 <= _num_players self -> players_ok self ->
  final (progress_turn fuel self) = Some self' ->
  ∃ c, self' = with_curr_player c self ∧
       1 <= c <= _num_players self ∧
       (playable self c ∨ ∀ p, 1 <= p <= _num_players self -> stuck self p).
Proof.
  intros Hn Hok. unfold progress_turn.
  rewrite final_bind, advance_spec by lia. intros H.
  apply progress_loop_final in H; try done.
  by apply next_player_range.
Qed.

Lemma grid_write_dims (v : Cell) (g : Grid) (q : Point) :
  length <$> grid_write v g q = length <$> g.
Proof.
  unfold grid_write. destruct (g !! Z.to_nat q.1) as [row|] eqn:Hrow; [|done].
  rewrite list_fmap_insert, length_insert. apply list_insert_id.
  by rewrite list_lookup_fmap, Hrow.
Qed.

Lemma grid_writes_dims (v : Cell) (sqs : list Point) (g : Grid) :
  length <$> grid_writes v g sqs = length <$> g.
Proof.
  revert g. induction sqs as [|q rest IH]; intros g; [done|].
  unfold grid_writes. cbn [foldl]. fold (grid_writes v (grid_write v g q) rest).
  by rewrite IH, grid_write_dims.
Qed.

Lemma grid_ok_dims (self self' : Blokus) :
  _size self' = _size self ->
  length <$> _grid self' = length <$> _grid self ->
  grid_ok self -> grid_ok self'.
Proof.
  intros Hz Hd (Hs & Hlen & Hrows). unfold grid_ok. rewrite Hz.
  split; [done|]. split.
  - rewrite <- Hlen, <- (length_fmap length (_grid self')), Hd.
    by rewrite length_fmap.
  - apply (Forall_fmap length (fun k => k = Z.to_nat (_size self))).
    rewrite Hd. by apply Forall_fmap.
Qed.

Lemma invariant_turn (fuel : nat) (self self' : Blokus) :
  game_ok self -> record_ok self ->
  final (progress_turn fuel self) = Some self' ->
  invariant self'.
Proof.
  intros Hgame Hrec H. pose proof Hgame as ((Hn & _) & Hok & _).
  apply progress_turn_final in H as (c & -> & Hc & Hplay); try done.
Qed.

Lemma invariant_retired_state (self : Blokus) :
  invariant self -> game_ok (retired_state self) ∧ record_ok (retired_state self).
Proof.
  intros (Hgame & (Hc & _) & (Hret & Hplayed & Hgrid)). split; [done|].
  split; [|done]. intros p [->%elem_of_singleton|Hp]%elem_of_union; auto.
Qed.

Lemma invariant_placed_state (self : Blokus) (piece : Piece.t)
    (sqs : list Point) (pl : list ShapeKind.t) :
  invariant self ->
  legal_to_place piece self = Val true ->
  Piece.squares piece = Val sqs ->
  _shapes_played self !! _curr_player self = Some pl ->
  game_ok (placed_state self (Shape.kind (Piece.shape piece)) sqs pl) ∧
  record_ok (placed_state self (Shape.kind (Piece.shape piece)) sqs pl).
Proof.
  intros ((Hn & Hok & Hgrid_ok) & (Hc & _) & (Hret & Hplayed & Hgrid))
    Hlegal Hsqs Hpl.
  destruct (legal_to_place_true_inv piece self Hlegal)
    as (rs & sqs' & pl' & _ & Hrs & Hk & Hsqs' & Hpl' & Hfree).
  assert (sqs' = sqs) as -> by congruence.
  assert (pl' = pl) as -> by congruence.
  rewrite (remaining_shapes_played _ _ _ Hpl) in Hrs. injection Hrs as <-.
  apply list_elem_of_filter in Hk as [Hfresh Hkey].
  set (kind := Shape.kind (Piece.shape piece)) in *.
  split; [split; [done|]; split|].
  - intros p Hp. simpl.
    destruct (decide (_curr_player self = p)) as [->|Hne].
    + by rewrite lookup_insert_eq.
    + rewrite lookup_insert_ne by done. by apply Hok.
  - eapply (grid_ok_dims self); [done| |done]. simpl. apply grid_writes_dims.
  - split; [done|]. split.
    + intros p pl0. simpl.
      destruct (decide (_curr_player self = p)) as [<-|Hne].
      * rewrite lookup_insert_eq. intros [= <-]. split; [done|].
        destruct (Hplayed _ _ Hpl) as (_ & Hnd & Hkeys). split.
        -- apply NoDup_app. split; [done|]. split; [|apply NoDup_singleton].
           intros k Hk1 ->%list_elem_of_singleton. done.
        -- intros k [Hk1| ->%list_elem_of_singleton]%elem_of_app; auto.
      * rewrite lookup_insert_ne by done. apply Hplayed.
    + intros q p k. simpl. rewrite cell_at_grid_writes.
      2:{ intros q0 Hq0. destruct (Hfree q0 Hq0) as [_ ->]. eauto. }
      destruct (decide (q ∈ sqs)) as [Hq|Hq].
      * intros [= <- <-]. exists (pl ++ [kind]).
        rewrite lookup_insert_eq. split; [done|]. apply elem_of_app.
        right. by apply list_elem_of_singleton.
      * intros Hcell. destruct (Hgrid q p k Hcell) as (pl0 & Hpl0 & Hin).
        destruct (decide (_curr_player self = p)) as [<-|Hne].
        -- exists (pl ++ [kind]). rewrite lookup_insert_eq. split; [done|].
           apply elem_of_app. left. congruence.
        -- exists pl0. by rewrite lookup_insert_ne.
Qed.

Lemma step_invariant (self self' : Blokus) :
  step self self' -> invariant self -> invariant self'.
Proof.
  intros [->|fuel H|fuel H|fuel piece sqs pl Hret Hlegal Hsqs Hpl H] Hinv.
  - done.
  - destruct Hinv as (Hgame & _ & Hrec). by eapply invariant_turn.
  - destruct (invariant_retired_state self Hinv). by eapply invariant_turn.
  - destruct (invariant_placed_state self piece sqs pl Hinv Hlegal Hsqs Hpl).
    by eapply invariant_turn.
Qed.

Lemma Blokus_init_invariant
    (definitions : list (ShapeKind.t * Shape.t)) (num_players size : Z)
    (start_positions : gset Point) (self : Blokus) :
  Blokus_init definitions num_players size start_positions = Val self ->
  invariant self.
Proof.
  intros Hinit. pose proof (Blokus_init_game_ok _ _ _ _ _ Hinit) as Hgame.
  split; [done|]. unfold Blokus_init in Hinit.
  destruct (_ || _); [done|]. destruct (size <? 5); [done|].
  destruct (_ <? num_players); [done|]. destruct (negb _); [done|].
  injection Hinit as <-.
  destruct Hgame as ((Hn1 & Hn4) & Hok & _). simpl in *.
  assert (Hlook : ∀ p pl,
            (list_to_map ((fun plr => (plr, [])) <$>
                          py_range 1 (num_players + 1))
               : gmap Z (list ShapeKind.t)) !! p = Some pl ->
            1 <= p <= num_players ∧ pl = []).
  { intros p pl Hp. apply elem_of_list_to_map_2 in Hp.
    apply list_elem_of_fmap in Hp as (p' & [= -> ->] & Hin).
    unfold py_range in Hin. apply elem_of_seqZ in Hin. split; [lia | done]. }
  split.
  - split; [simpl; lia|]. simpl.
    destruct (players_ok_playable_or_stuck _ 1 Hok ltac:(simpl; lia))
      as [Hp|Hs]; [by left|]. right. intros p Hp.
    destruct Hs as [Hs|Hs]; [by apply not_elem_of_empty in Hs|]. right.
    destruct (Hok p Hp) as [pl Hpl]. destruct (Hok 1 ltac:(simpl; lia))
      as [pl1 Hpl1]. simpl in *.
    destruct (Hlook _ _ Hpl) as [_ ->]. destruct (Hlook _ _ Hpl1) as [_ ->].
    unfold remaining_shapes in *. simpl in *.
    rewrite (remaining_comp_played _ _ _ _ Hpl).
    by rewrite (remaining_comp_played _ _ _ _ Hpl1) in Hs.
  - split; [intros p Hp; by apply not_elem_of_empty in Hp|]. split.
    + intros p pl Hpl. simpl in Hpl. destruct (Hlook _ _ Hpl) as [? ->].
      split; [done|]. split; [constructor|].
      intros k Hk. by apply not_elem_of_nil in Hk.
    + intros q p k. simpl. intros Hcell.
      apply cell_at_inv in Hcell as (_ & _ & row & Hrow & Hc).
      apply lookup_replicate in Hrow as [-> _].
      by apply lookup_replicate in Hc as [? _].
Qed.

Lemma reachable_invariant (self : Blokus) : reachable self -> invariant self.
Proof.
  induction 1 as [definitions n size starts self Hinit
                 |fuel op self self' Hreach IH Hstep].
  - by eapply Blokus_init_invariant.
  - eapply step_invariant; [|exact IH]. by eapply run_op_step.
Qed.

Lemma record_grows_refl (self : Blokus) : record_grows self self.
Proof.
  split; [done|]. intros p pl Hpl. exists []. by rewrite app_nil_r.
Qed.

Lemma record_grows_trans (s1 s2 s3 : Blokus) :
  record_grows s1 s2 -> record_grows s2 s3 -> record_grows s1 s3.
Proof.
  intros [Hr1 Hp1] [Hr2 Hp2]. split; [set_solver|]. intros p pl Hpl.
  destruct (Hp1 p pl Hpl) as [m1 H1]. destruct (Hp2 _ _ H1) as [m2 H2].
  exists (m1 ++ m2). by rewrite app_assoc.
Qed.

Lemma record_grows_frame (self self' : Blokus) :
  frame_cursor self self' -> record_grows self self'.
Proof.
  intros H. rewrite H. split; [done|]. intros p pl Hpl. exists [].
  by rewrite app_nil_r.
Qed.

Lemma step_record_grows (self self' : Blokus) :
  step self self' -> record_grows self self'.
Proof.
  intros [->|fuel H|fuel H|fuel piece sqs pl Hret Hlegal Hsqs Hpl H].
  - apply record_grows_refl.
  - by apply record_grows_frame, (progress_turn_frame fuel).
  - eapply record_grows_trans;
      [|by apply record_grows_frame, (progress_turn_frame fuel)].
    split; [simpl; set_solver|]. intros p pl Hpl. exists [].
    by rewrite app_nil_r.
  - eapply record_grows_trans;
      [|by apply record_grows_frame, (progress_turn_frame fuel)].
    split; [done|]. intros p pl0 Hpl0. simpl.
    destruct (decide (_curr_player self = p)) as [<-|Hne].
    + rewrite lookup_insert_eq. exists [Shape.kind (Piece.shape piece)].
      congruence.
    + rewrite lookup_insert_ne by done. exists []. by rewrite app_nil_r.
Qed.

Lemma run_ops_record_grows (fuel : nat) (ops : list Op) (self self' : Blokus) :
  run_ops fuel ops self = Some self' -> record_grows self self'.
Proof.
  revert self. induction ops as [|op rest IH]; intros self; simpl.
  - intros [= <-]. apply record_grows_refl.
  - destruct (run_op fuel op self) as [s1|] eqn:Hop; [|done]. intros H.
    eapply record_grows_trans; [|by apply IH].
    by apply step_record_grows, (run_op_step fuel op).
Qed.

Lemma grid_ok_cells (self : Blokus) (q : Point) :
  grid_ok self ->
  is_Some (cell_at (_grid self) q) ↔ in_bounds (_size self) q.
Proof.
  intros Hok. split.
  - intros [c Hc]. apply cell_at_inv in Hc as (H1 & H2 & row & Hrow & Hcell).
    destruct Hok as (_ & Hlen & Hrows).
    pose proof (lookup_lt_Some _ _ _ Hrow) as Hlt1.
    pose proof (lookup_lt_Some _ _ _ Hcell) as Hlt2.
    rewrite Forall_forall in Hrows.
    rewrite (Hrows row) in Hlt2 by (by eapply list_elem_of_lookup_2).
    unfold in_bounds. lia.
  - intros [H1 H2]. destruct (grid_ok_cell_at self q Hok H1 H2) as [c Hc].
    eauto.
Qed.

Lemma reachable_size (self : Blokus) : reachable self -> 5 <= _size self.
Proof.
  induction 1 as [definitions n size starts self Hinit
                 |fuel op self self' Hreach IH Hstep].
  - unfold Blokus_init in Hinit.
    destruct (_ || _); [done|]. destruct (Z.ltb_spec size 5); [done|].
    destruct (_ <? n); [done|]. destruct (negb _); [done|].
    by injection Hinit as <-.
  - apply run_op_keeps_board in Hstep as (_ & Hsize & _). by rewrite Hsize.
Qed.

(** ** The effect of the calls *)

Lemma Blokus_init_val_iff
    (definitions : list (ShapeKind.t * Shape.t)) (num_players size : Z)
    (start_positions : gset Point) :
  (∃ self,
     Blokus_init definitions num_players size start_positions = Val self) ↔
  1 <= num_players <= 4 ∧ 5 <= size ∧
  num_players <= Z.of_nat (base.size start_positions) ∧
  ∀ q, q ∈ start_positions -> in_bounds size q.
Proof.
  unfold Blokus_init.
  destruct (Z.ltb_spec num_players 1) as [Hn1|Hn1]; simpl.
  { split; [by intros [? ?] | lia]. }
  rewrite Z.gtb_ltb. destruct (Z.ltb_spec 4 num_players) as [Hn4|Hn4].
  { split; [by intros [? ?] | lia]. }
  destruct (Z.ltb_spec size 5) as [Hs|Hs].
  { split; [by intros [? ?] | lia]. }
  destruct (Z.ltb_spec (Z.of_nat (base.size start_positions)) num_players)
    as [Hp|Hp].
  { split; [by intros [? ?] | lia]. }
  assert (Hall : forallb (on_board size) (elements start_positions) = true ↔
                 ∀ q, q ∈ start_positions -> in_bounds size q).
  { rewrite forallb_forall. unfold on_board, in_bounds. split.
    - intros H q Hq. specialize (H q).
      rewrite <- list_elem_of_In, elem_of_elements in H. specialize (H Hq).
      rewrite !andb_true_iff, !Z.leb_le in H. lia.
    - intros H q Hq. rewrite <- list_elem_of_In, elem_of_elements in Hq.
      specialize (H q Hq). rewrite !andb_true_iff, !Z.leb_le. lia. }
  destruct (forallb (on_board size) (elements start_positions)); simpl.
  - split; [intros _|eauto]. repeat split; try lia; by apply Hall.
  - split; [by intros [? ?]|]. intros (_ & _ & _ & H).
    by apply Hall in H.
Qed.

Lemma progress_turn_returns (fuel : nat) (self : Blokus) :
  1 <= _num_players self -> players_ok self ->
  (Z.to_nat (_num_players self) <= fuel)%nat ->
  ∃ c, progress_turn fuel self = Returned tt (with_curr_player c self) ∧
       1 <= c <= _num_players self ∧
       (playable self c ∨ ∀ p, 1 <= p <= _num_players self -> stuck self p).
Proof.
  intros Hn Hok Hf.
  destruct (progress_turn_cases self fuel Hn Hok Hf)
    as [(k & Hk & Hplay & _ & Hrun)|[Hall Hrun]].
  - eexists. split; [exact Hrun|]. split; [|by left].
    destruct k as [|k]; [lia|]. simpl. by apply next_player_range.
  - exists (_num_players self). split; [done|]. split; [lia | by right].
Qed.

Lemma maybe_place_effect
    (fuel : nat) (piece : Piece.t) (self : Blokus) :
  1 <= _num_players self ->
  players_ok self ->
  (Z.to_nat (_num_players self) <= fuel)%nat ->
  _curr_player self ∉ _retired self ->
  legal_to_place piece self = Val true ->
  ∃ sqs pl self',
    Piece.squares piece = Val sqs ∧
    _shapes_played self !! _curr_player self = Some pl ∧
    maybe_place fuel piece self = Returned true self' ∧
    (∀ q, cell_at (_grid self') q =
          if decide (q ∈ sqs)
          then Some (Some (_curr_player self, Shape.kind (Piece.shape piece)))
          else cell_at (_grid self) q) ∧
    _shapes_played self' =
      <[_curr_player self := pl ++ [Shape.kind (Piece.shape piece)]]>
        (_shapes_played self) ∧
    _retired self' = _retired self ∧
    (∃ rs', remaining_shapes (_curr_player self) self' = Val rs' ∧
            Shape.kind (Piece.shape piece) ∉ rs') ∧
    progress_turn fuel
      (placed_state self (Shape.kind (Piece.shape piece)) sqs pl) =
    Returned tt self'.
Proof.
  intros Hn Hok Hf Hret Hlegal.
  destruct (maybe_place_legal fuel piece self Hret Hlegal)
    as (sqs & pl & Hsqs & Hpl & Hrun).
  destruct (legal_to_place_true_inv piece self Hlegal)
    as (_ & sqs' & _ & _ & _ & _ & Hsqs' & _ & Hfree).
  assert (sqs' = sqs) as -> by congruence.
  set (kind := Shape.kind (Piece.shape piece)) in *.
  set (s1 := placed_state self kind sqs pl) in *.
  assert (Hok1 : players_ok s1).
  { intros p Hp. simpl.
    destruct (decide (_curr_player self = p)) as [->|Hne].
    - by rewrite lookup_insert_eq.
    - rewrite lookup_insert_ne by done. by apply Hok. }
  destruct (progress_turn_returns fuel s1 Hn Hok1 Hf) as (c & Hturn & _).
  exists sqs, pl, (with_curr_player c s1).
  split; [done|]. split; [done|]. split.
  { rewrite Hrun. unfold bind. by rewrite Hturn. }
  split.
  { intros q. simpl. apply cell_at_grid_writes. intros q0 Hq0.
    destruct (Hfree q0 Hq0) as [_ ->]. eauto. }
  split; [done|]. split; [done|]. split; [|done].
  eexists. split.
  - apply remaining_shapes_played. simpl. apply lookup_insert_eq.
  - intros [Hnot _]%list_elem_of_filter. apply Hnot, elem_of_app. right.
    by apply list_elem_of_singleton.
Qed.

Lemma retire_run (fuel : nat) (self : Blokus) :
  1 <= _num_players self ->
  players_ok self ->
  (Z.to_nat (_num_players self) <= fuel)%nat ->
  ∃ c,
    retire fuel self =
    Returned tt (with_curr_player c (retired_state self)) ∧
    1 <= c <= _num_players self ∧
    (playable (retired_state self) c ∨
     ∀ p, 1 <= p <= _num_players self -> stuck (retired_state self) p) ∧
    stuck (retired_state self) (_curr_player self).
Proof.
  intros Hn Hok Hf.
  destruct (progress_turn_returns fuel (retired_state self) Hn Hok Hf)
    as (c & Hturn & Hc & Hplay).
  exists c. split; [|split; [exact Hc|split; [exact Hplay|]]].
  - unfold retire, bind, get, assign. exact Hturn.
  - left. simpl. apply elem_of_union. left. by apply elem_of_singleton.
Qed.

(** ** The moves left to a player *)

Lemma elem_of_anchors (size : Z) (a : Point) :
  a ∈ anchors size ↔ in_bounds size a.
Proof.
  unfold anchors, in_bounds, py_range. rewrite list_elem_of_In, in_concat.
  split.
  - intros (l & Hl & Ha). apply list_elem_of_In in Hl, Ha.
    apply list_elem_of_fmap in Hl as (x & -> & Hx).
    apply list_elem_of_fmap in Ha as (y & -> & Hy).
    apply elem_of_seqZ in Hx, Hy. simpl. lia.
  - intros [H1 H2]. exists (map (fun y => (a.1, y)) (seqZ 0 (size - 0))).
    rewrite <- !list_elem_of_In. split.
    + apply list_elem_of_fmap. exists a.1. split; [done|].
      apply elem_of_seqZ. lia.
    + apply list_elem_of_fmap. exists a.2. split; [by destruct a|].
      apply elem_of_seqZ. lia.
Qed.

Lemma set_anchor_twice (p : Piece.t) (a b : Point) :
  Piece_set_anchor (Piece_set_anchor p a) b = Piece_set_anchor p b.
Proof. done. Qed.

Lemma moves_at_spec (new_piece : Shape.t -> Piece.t) (shape : Shape.t)
    (self : Blokus) (rs : list ShapeKind.t) (positions : list Point)
    (test_piece : Piece.t) :
  grid_ok self ->
  is_Some (_shapes_played self !! _curr_player self) ->
  remaining_shapes (_curr_player self) self = Val rs ->
  Shape.kind shape ∈ rs ->
  Piece.shape (new_piece shape) = shape ->
  (∀ a, Piece_set_anchor test_piece a = Piece_set_anchor (new_piece shape) a) ->
  ∃ ms, moves_at new_piece shape test_piece positions self = Val ms ∧
    ∀ p, p ∈ ms ↔
      ∃ a, a ∈ positions ∧ p = Piece_set_anchor (new_piece shape) a ∧
           legal_to_place p self = Val true.
Proof.
  intros Hok Hpl Hrs Hk Hshape. revert test_piece.
  induction positions as [|a rest IH]; intros test_piece Htest.
  - exists []. split; [done|]. intros p. split.
    + intros Hp. by apply not_elem_of_nil in Hp.
    + intros (a & Ha & _). by apply not_elem_of_nil in Ha.
  - cbn [moves_at]. rewrite Htest.
    destruct (legal_to_place_val (Piece_set_anchor (new_piece shape) a)
                self rs Hok Hpl) as [legal Hlegal].
    { simpl. eauto. }
    { done. }
    { simpl. by rewrite Hshape. }
    rewrite Hlegal. simpl.
    destruct (IH (Piece_set_anchor (new_piece shape) a)) as (more & -> & Hmore).
    { intros b. apply set_anchor_twice. }
    simpl. eexists. split; [done|]. intros p. destruct legal.
    + rewrite elem_of_cons, Hmore. split.
      * intros [->|(b & Hb & Hp & Hl)].
        -- exists a. split; [left | done].
        -- exists b. split; [by right | done].
      * intros (b & [->|Hb]%elem_of_cons & Hp & Hl); [by left|].
        right. eauto.
    + rewrite Hmore. split.
      * intros (b & Hb & Hp & Hl). exists b. split; [by right | done].
      * intros (b & [->|Hb]%elem_of_cons & Hp & Hl); [|eauto].
        subst p. congruence.
Qed.

Lemma remaining_shapes_keys (self : Blokus) (player : Z)
    (rs : list ShapeKind.t) (k : ShapeKind.t) :
  remaining_shapes player self = Val rs -> k ∈ rs ->
  k ∈ map fst (_shapes self).
Proof.
  unfold remaining_shapes. generalize (map fst (_shapes self)) as keys.
  intros keys. revert rs. induction keys as [|k0 keys IH]; intros rs; simpl.
  - intros [= <-] Hk. by apply not_elem_of_nil in Hk.
  - intros H. apply res_bind_val in H as (pl & _ & H).
    apply res_bind_val in H as (rest & Hrest & [= <-]).
    case_bool_decide.
    + intros Hk. right. by eapply IH.
    + intros [->|Hk]%elem_of_cons; [left | right; by eapply IH].
Qed.

Lemma shapes_get_of_key (d : list (ShapeKind.t * Shape.t)) (k : ShapeKind.t) :
  k ∈ map fst d -> ∃ sh, shapes_get d k = Val sh.
Proof.
  induction d as [|[k' sh'] d IH]; simpl.
  - intros H. by apply not_elem_of_nil in H.
  - intros H. case_decide as Hk; [eauto|].
    apply elem_of_cons in H as [->|H]; [done | by apply IH].
Qed.

Lemma moves_of_spec (new_piece : Shape.t -> Piece.t) (self : Blokus)
    (rs kinds : list ShapeKind.t) :
  grid_ok self ->
  is_Some (_shapes_played self !! _curr_player self) ->
  catalog_keyed self ->
  (∀ sh, Piece.shape (new_piece sh) = sh) ->
  remaining_shapes (_curr_player self) self = Val rs ->
  (∀ k, k ∈ kinds -> k ∈ rs) ->
  ∃ ms, moves_of new_piece kinds self = Val ms ∧
    ∀ p, p ∈ ms ↔
      ∃ k sh a,
        k ∈ kinds ∧ shapes_get (_shapes self) k = Val sh ∧
        in_bounds (_size self) a ∧
        p = Piece_set_anchor (new_piece sh) a ∧
        legal_to_place p self = Val true.
Proof.
  intros Hok Hpl Hkeyed Hnew Hrs.
  induction kinds as [|k kinds IH]; intros Hsub.
  - exists []. split; [done|]. intros p. split.
    + intros Hp. by apply not_elem_of_nil in Hp.
    + intros (k & sh & a & Hk & _). by apply not_elem_of_nil in Hk.
  - cbn [moves_of].
    destruct (shapes_get_of_key (_shapes self) k) as [sh Hsh].
    { eapply remaining_shapes_keys; [exact Hrs|]. apply Hsub. left. }
    rewrite Hsh. simpl.
    destruct (moves_at_spec new_piece sh self rs (anchors (_size self))
                (new_piece sh) Hok Hpl Hrs) as (here & -> & Hhere).
    { rewrite (Hkeyed k sh Hsh). apply Hsub. left. }
    { apply Hnew. }
    { done. }
    destruct IH as (more & -> & Hmore).
    { intros k' Hk'. apply Hsub. by right. }
    simpl. eexists. split; [done|]. intros p.
    rewrite elem_of_app, Hhere, Hmore. split.
    + intros [(a & Ha & Hp & Hl)|(k' & sh' & a & Hk' & Hsh' & Ha & Hp & Hl)].
      * exists k, sh, a. apply elem_of_anchors in Ha.
        split; [left | done].
      * exists k', sh', a. split; [by right | done].
    + intros (k' & sh' & a & [->|Hk']%elem_of_cons & Hsh' & Ha & Hp & Hl).
      * left. exists a. assert (sh' = sh) as -> by congruence.
        split; [by apply elem_of_anchors | done].
      * right. eauto 10.
Qed.

Lemma available_moves_spec
    (new_piece : Shape.t -> Piece.t) (self : Blokus)
    (rs : list ShapeKind.t) :
  grid_ok self ->
  is_Some (_shapes_played self !! _curr_player self) ->
  catalog_keyed self ->
  (∀ sh, Piece.shape (new_piece sh) = sh) ->
  remaining_shapes (_curr_player self) self = Val rs ->
  ∃ ms, available_moves new_piece self = Val ms ∧
    ∀ p, p ∈ ms ↔
      ∃ k sh a,
        k ∈ rs ∧ shapes_get (_shapes self) k = Val sh ∧
        in_bounds (_size self) a ∧
        p = Piece_set_anchor (new_piece sh) a ∧
        legal_to_place p self = Val true.
Proof.
  intros Hok Hpl Hkeyed Hnew Hrs. unfold available_moves. rewrite Hrs. simpl.
  by apply (moves_of_spec new_piece self rs rs).
Qed.

(** ** The bots *)

Lemma foldl_min_spec (r : list Z) (x : Z) :
  foldl Z.min x r <= x ∧
  (∀ y, y ∈ r -> foldl Z.min x r <= y) ∧
  (foldl Z.min x r = x ∨ foldl Z.min x r ∈ r).
Proof.
  revert x. induction r as [|y r IH]; intros x; simpl.
  - split; [lia|]. split; [|by left]. intros y Hy.
    by apply not_elem_of_nil in Hy.
  - destruct (IH (Z.min x y)) as (Hle & Hall & Hin).
    split; [lia|]. split.
    + intros z [->|Hz]%elem_of_cons; [lia | by apply Hall].
    + destruct Hin as [Heq|Hin]; [|right; by right].
      rewrite Heq. destruct (Z.min_spec x y) as [[_ ->]|[_ ->]];
        [by left | right; left].
Qed.

Lemma py_min_spec (l : list Z) :
  l ≠ [] ->
  ∃ m, py_min l = Val m ∧ m ∈ l ∧ ∀ y, y ∈ l -> m <= y.
Proof.
  destruct l as [|x r]; [done|]. intros _. simpl.
  destruct (foldl_min_spec r x) as (Hle & Hall & Hin).
  eexists. split; [done|]. split.
  - destruct Hin as [->|Hin]; [left | by right].
  - intros y [->|Hy]%elem_of_cons; [done | by apply Hall].
Qed.

Lemma place_first_finds (fuel : nat) (target : Z) (moves : list Piece.t)
    (self : Blokus) :
  (∀ p, p ∈ moves ->
        ∃ sqs, Piece.squares p = Val sqs ∧ len sqs = piece_size p) ->
  (∃ p, p ∈ moves ∧ piece_size p = target) ->
  ∃ p, p ∈ moves ∧ piece_size p = target ∧
       place_first fuel target moves self =
       bind (maybe_place fuel p) (fun _ => ret tt) self.
Proof.
  induction moves as [|p0 rest IH]; intros Hsq (p & Hp & Hsize).
  - by apply not_elem_of_nil in Hp.
  - cbn [place_first]. unfold bind at 1, read at 1.
    destruct (Hsq p0 ltac:(left)) as (sqs & -> & Hlen).
    destruct (Z.eqb_spec (len sqs) target) as [Heq|Hne].
    + exists p0. split; [left|]. split; [congruence | done].
    + destruct IH as (p' & Hp' & Hsize' & Hrun).
      * intros q Hq. apply Hsq. by right.
      * apply elem_of_cons in Hp as [->|Hp]; [congruence | eauto].
      * exists p'. split; [by right | done].
Qed.

(** One turn of a bot: it retires when no move is legal, and otherwise
    places one of the legal moves, for [U_Bot] one of the fewest squares, for
    [S_Bot] one of the most. *)
Lemma place_piece_spec
    (w : World) (bot : Bot) (fuel : nat) (self : Blokus)
    (rs : list ShapeKind.t) :
  world_ok w ->
  grid_ok self ->
  is_Some (_shapes_played self !! _curr_player self) ->
  catalog_keyed self ->
  remaining_shapes (_curr_player self) self = Val rs ->
  ∃ ms, available_moves (new_piece w) self = Val ms ∧
    (ms = [] -> place_piece w bot fuel self = retire fuel self) ∧
    (ms ≠ [] ->
     ∃ p, p ∈ ms ∧ legal_to_place p self = Val true ∧
          place_piece w bot fuel self =
          bind (maybe_place fuel p) (fun _ => ret tt) self ∧
          (bot = U_Bot -> ∀ q, q ∈ ms -> piece_size p <= piece_size q) ∧
          (bot = S_Bot -> ∀ q, q ∈ ms -> piece_size q <= piece_size p)).
Proof.
  intros (Hshape & Hlen & Horder & Hchoice) Hok Hpl Hkeyed Hrs.
  destruct (available_moves_spec (new_piece w) self rs
              Hok Hpl Hkeyed Hshape Hrs) as (ms & Hms & Hmem).
  exists ms. split; [done|].
  assert (Hlegal : ∀ p, p ∈ ms -> legal_to_place p self = Val true).
  { intros p Hp. apply Hmem in Hp as (k & sh & a & _ & _ & _ & _ & Hl).
    done. }
  assert (Hsq : ∀ p, p ∈ set_order w ms ->
            ∃ sqs, Piece.squares p = Val sqs ∧ len sqs = piece_size p).
  { intros p Hp. apply Horder, Hmem in Hp
      as (k & sh & a & _ & _ & _ & -> & _).
    eexists. split; [reflexivity|]. unfold piece_size, len. simpl.
    by rewrite length_map, Hlen, Hshape. }
  split.
  - intros ->. unfold place_piece. unfold bind at 1, read at 1.
    by rewrite Hms.
  - intros Hne. unfold place_piece. unfold bind at 1, read at 1. rewrite Hms.
    assert ((len ms =? 0) = false) as ->.
    { apply Z.eqb_neq. unfold len. destruct ms; [done | simpl; lia]. }
    assert (Hone : set_order w ms ≠ []).
    { destruct ms as [|p0 ms']; [done|]. intros Hnil.
      assert (p0 ∈ set_order w (p0 :: ms')) as Hin by (apply Horder; left).
      rewrite Hnil in Hin. by apply not_elem_of_nil in Hin. }
    assert (Hsizes : piece_size <$> set_order w ms ≠ []).
    { intros Hnil. apply fmap_nil_inv in Hnil. done. }
    destruct bot.
    + destruct (py_min_spec _ Hsizes) as (m & Hm & Hin & Hmin).
      unfold bind at 1, read at 1. fold piece_size. rewrite Hm.
      apply list_elem_of_fmap in Hin as (p1 & Hp1 & Hin1).
      destruct (place_first_finds fuel m (set_order w ms) self Hsq)
        as (p & Hp & Hsize & Hrun); [eauto|].
      exists p. split; [by apply Horder|]. split; [by apply Hlegal, Horder|].
      split; [done|]. split; [|done]. intros _ q Hq. rewrite Hsize.
      apply Hmin, list_elem_of_fmap. exists q. split; [done|].
      by apply Horder.
    + exists (random_choice w (set_order w ms)).
      assert (random_choice w (set_order w ms) ∈ ms)
        by (by apply Horder, Hchoice).
      split; [done|]. split; [by apply Hlegal|]. done.
    + destruct (py_max_spec _ Hsizes) as (m & Hm & Hin & Hmax).
      unfold bind at 1, read at 1. fold piece_size. rewrite Hm.
      apply list_elem_of_fmap in Hin as (p1 & Hp1 & Hin1).
      destruct (place_first_finds fuel m (set_order w ms) self Hsq)
        as (p & Hp & Hsize & Hrun); [eauto|].
      exists p. split; [by apply Horder|]. split; [by apply Hlegal, Horder|].
      split; [done|]. split; [done|]. intros _ q Hq. rewrite Hsize.
      apply Hmax, list_elem_of_fmap. exists q. split; [done|].
      by apply Horder.
Qed.

(** ** A game between two bots ends *)

Lemma sum_list_with_le {A} (f g : A -> nat) (l : list A) :
  (∀ x, x ∈ l -> (g x <= f x)%nat) ->
  (sum_list_with g l <= sum_list_with f l)%nat.
Proof.
  induction l as [|x l IH]; intros H; simpl; [done|].
  pose proof (H x ltac:(left)). specialize (IH ltac:(intros y Hy; apply H; by right)).
  lia.
Qed.

Lemma sum_list_with_lt {A} (f g : A -> nat) (l : list A) (x0 : A) :
  (∀ x, x ∈ l -> (g x <= f x)%nat) ->
  x0 ∈ l -> (g x0 < f x0)%nat ->
  (sum_list_with g l < sum_list_with f l)%nat.
Proof.
  induction l as [|x l IH]; intros H Hx0 Hlt; simpl.
  - by apply not_elem_of_nil in Hx0.
  - pose proof (H x ltac:(left)) as Hx.
    assert (Hl : ∀ y, y ∈ l -> (g y <= f y)%nat)
      by (intros y Hy; apply H; by right).
    apply elem_of_cons in Hx0 as [->|Hx0].
    + pose proof (sum_list_with_le f g l Hl). lia.
    + specialize (IH Hl Hx0 Hlt). lia.
Qed.

Lemma filter_shrinks (pl : list ShapeKind.t) (kind : ShapeKind.t)
    (keys : list ShapeKind.t) :
  kind ∈ keys -> kind ∉ pl ->
  (length (filter (fun k => k ∉ pl ++ [kind]) keys) <
   length (filter (fun k => k ∉ pl) keys))%nat.
Proof.
  intros Hin Hfresh.
  assert (Hle : ∀ l, (length (filter (fun k => k ∉ pl ++ [kind]) l) <=
                      length (filter (fun k => k ∉ pl) l))%nat).
  { induction l as [|k l IH]; [done|]. rewrite !filter_cons.
    destruct (decide (k ∉ pl ++ [kind])) as [H1|H1];
      destruct (decide (k ∉ pl)) as [H2|H2]; simpl; try lia.
    destruct H2. intros ?. apply H1, elem_of_app. by left. }
  induction keys as [|k keys IH]; [by apply not_elem_of_nil in Hin|].
  rewrite !filter_cons. apply elem_of_cons in Hin as [<-|Hin].
  - rewrite decide_False.
    2:{ intros H. apply H, elem_of_app. right. by apply list_elem_of_singleton. }
    rewrite decide_True by done. simpl. specialize (Hle keys). lia.
  - specialize (IH Hin).
    destruct (decide (k ∉ pl ++ [kind])) as [H1|H1];
      destruct (decide (k ∉ pl)) as [H2|H2]; simpl; try lia.
    destruct H2. intros ?. apply H1, elem_of_app. by left.
Qed.

Lemma remaining_comp_ext (played played' : gmap Z (list ShapeKind.t))
    (p : Z) (keys : list ShapeKind.t) :
  played !! p = played' !! p ->
  remaining_comp played p keys = remaining_comp played' p keys.
Proof.
  intros H. induction keys as [|k keys IH]; simpl; [done|].
  unfold dict_get. by rewrite H, IH.
Qed.

Lemma turns_left_retire (self : Blokus) (c : Z) (rs : list ShapeKind.t) :
  1 <= _curr_player self <= _num_players self ->
  _curr_player self ∉ _retired self ->
  remaining_shapes (_curr_player self) self = Val rs ->
  (turns_left (with_curr_player c (retired_state self)) < turns_left self)%nat.
Proof.
  intros Hc Hret Hrs. unfold turns_left. simpl.
  apply (sum_list_with_lt _ _ _ (_curr_player self)).
  - intros p _. unfold turns_left_of. simpl.
    change (remaining_shapes p (with_curr_player c (retired_state self)))
      with (remaining_shapes p self).
    destruct (decide (p ∈ {[_curr_player self]} ∪ _retired self)) as [H1|H1];
      destruct (decide (p ∈ _retired self)) as [H2|H2]; try lia.
    destruct H1. apply elem_of_union. by right.
  - apply elem_of_seqZ. lia.
  - unfold turns_left_of. simpl. rewrite decide_True.
    2:{ apply elem_of_union. left. by apply elem_of_singleton. }
    rewrite decide_False by done. rewrite Hrs. lia.
Qed.

Lemma turns_left_place (self : Blokus) (c : Z) (kind : ShapeKind.t)
    (sqs : list Point) (pl : list ShapeKind.t) :
  1 <= _curr_player self <= _num_players self ->
  _curr_player self ∉ _retired self ->
  _shapes_played self !! _curr_player self = Some pl ->
  kind ∈ map fst (_shapes self) -> kind ∉ pl ->
  (turns_left (with_curr_player c (placed_state self kind sqs pl)) <
   turns_left self)%nat.
Proof.
  intros Hc Hret Hpl Hkey Hfresh. unfold turns_left. simpl.
  apply (sum_list_with_lt _ _ _ (_curr_player self)).
  - intros p _. unfold turns_left_of. simpl.
    destruct (decide (p ∈ _retired self)); [done|].
    destruct (decide (p = _curr_player self)) as [->|Hne].
    + unfold remaining_shapes. simpl.
      rewrite (remaining_comp_played _ _ (pl ++ [kind])) by
        apply lookup_insert_eq.
      rewrite (remaining_comp_played _ _ pl) by done.
      pose proof (filter_shrinks pl kind _ Hkey Hfresh). lia.
    + unfold remaining_shapes. simpl.
      rewrite (remaining_comp_ext _ (_shapes_played self)); [done|].
      by rewrite lookup_insert_ne.
  - apply elem_of_seqZ. lia.
  - unfold turns_left_of. simpl. rewrite !decide_False by done.
    unfold remaining_shapes. simpl.
    rewrite (remaining_comp_played _ _ (pl ++ [kind])) by
      apply lookup_insert_eq.
    rewrite (remaining_comp_played _ _ pl) by done.
    pose proof (filter_shrinks pl kind _ Hkey Hfresh). lia.
Qed.

Lemma bot_object_some (strategy_1 strategy_2 : string) (p : Z) :
  is_Some (bot_of_strategy strategy_1) ->
  is_Some (bot_of_strategy strategy_2) ->
  1 <= p <= 2 ->
  is_Some (bot_object strategy_1 strategy_2 p).
Proof.
  intros H1 H2 Hp. unfold bot_object.
  destruct (Z.eqb_spec p 1); [done|]. destruct (Z.eqb_spec p 2); [done|]. lia.
Qed.

(** One turn of a bot in a game that is not over: the game stays well
    formed and there is less left to do. *)
Lemma bot_turn_progress (w : World) (bot : Bot) (fuel : nat) (self : Blokus) :
  world_ok w -> invariant self -> catalog_keyed self ->
  (Z.to_nat (_num_players self) <= fuel)%nat ->
  playable self (_curr_player self) ->
  ∃ self',
    place_piece w bot fuel self = Returned tt self' ∧
    invariant self' ∧ _shapes self' = _shapes self ∧
    _num_players self' = _num_players self ∧
    (turns_left self' < turns_left self)%nat.
Proof.
  intros Hw Hinv Hkeyed Hfuel [Hret (rs & Hrs & Hne)].
  pose proof Hinv as (((Hn & _) & Hok & Hgrid) & (Hc & _) & _).
  destruct (place_piece_spec w bot fuel self rs Hw Hgrid (Hok _ Hc)
              Hkeyed Hrs) as (ms & Hms & Hnone & Hsome).
  destruct ms as [|p0 ms'].
  - rewrite (Hnone eq_refl).
    destruct (retire_run fuel self Hn Hok Hfuel) as (c & Hrun & _).
    eexists. split; [exact Hrun|]. split.
    + apply (step_invariant self); [|done].
      apply (step_retire _ _ fuel).
      change (retire fuel self)
        with (progress_turn fuel (retired_state self)) in Hrun.
      by rewrite Hrun.
    + split; [done|]. split; [done|]. by eapply turns_left_retire.
  - destruct (Hsome ltac:(done)) as (p & Hp & Hlegal & Hrun & _).
    rewrite Hrun.
    destruct (maybe_place_effect fuel p self Hn Hok Hfuel Hret Hlegal)
      as (sqs & pl & s' & Hsqs & Hpl & Hplace & _ & _ & _ & _ & Hturn).
    unfold bind. rewrite Hplace. exists s'. split; [done|].
    pose proof (progress_turn_frame fuel _ s' ltac:(by rewrite Hturn))
      as Hframe.
    split.
    + apply (step_invariant self); [|done].
      apply (step_place _ _ fuel p sqs pl); try done. by rewrite Hturn.
    + rewrite Hframe. split; [done|]. split; [done|].
      destruct (legal_to_place_true_inv p self Hlegal)
        as (rs' & _ & pl' & _ & Hrs' & Hk & _ & Hpl' & _).
      assert (pl' = pl) as -> by congruence.
      rewrite (remaining_shapes_played _ _ _ Hpl) in Hrs'.
      injection Hrs' as <-. apply list_elem_of_filter in Hk as [Hfresh Hkey].
      by apply turns_left_place.
Qed.

Lemma play_ends_from (w : World) (strategy_1 strategy_2 : string)
    (fuel turns : nat) (self : Blokus) :
  world_ok w ->
  is_Some (bot_of_strategy strategy_1) ->
  is_Some (bot_of_strategy strategy_2) ->
  invariant self -> catalog_keyed self ->
  _num_players self <= 2 ->
  (Z.to_nat (_num_players self) <= fuel)%nat ->
  (turns_left self < turns)%nat ->
  ∃ self',
    play w strategy_1 strategy_2 fuel turns self = GameOver self' ∧
    invariant self' ∧
    (∀ p, 1 <= p <= _num_players self -> stuck self' p) ∧
    _shapes self' = _shapes self ∧ _num_players self' = _num_players self.
Proof.
  intros Hw Hs1 Hs2. revert self.
  induction turns as [|turns IH]; intros self Hinv Hkeyed Hn2 Hfuel Hlt;
    [lia|].
  pose proof Hinv as (((Hn & _) & Hok & Hgrid) & (Hc & Hcur) & _).
  cbn [play].
  destruct (game_over_cases self Hn Hok) as [[-> (p & Hp & Hplay)]|[-> Hall]].
  - destruct (bot_object_some strategy_1 strategy_2 (_curr_player self)
                Hs1 Hs2 ltac:(lia)) as [bot ->].
    assert (Hplayable : playable self (_curr_player self)).
    { destruct Hcur as [?|Hall]; [done|].
      by destruct (playable_not_stuck self p Hplay); auto. }
    destruct (bot_turn_progress w bot fuel self Hw Hinv Hkeyed Hfuel
                Hplayable) as (s' & -> & Hinv' & Hshapes & Hn' & Hless).
    destruct (IH s') as (s'' & Hrun & Hinv'' & Hstuck & Hsh'' & Hn'');
      try done.
    + unfold catalog_keyed. by rewrite Hshapes.
    + by rewrite Hn'.
    + by rewrite Hn'.
    + lia.
    + exists s''. split; [done|]. split; [done|].
      split; [by rewrite <- Hn'|]. split; congruence.
  - eexists. split; [done|]. split; [|done].
    destruct Hinv as (Hg & _ & Hr). split; [done|]. split; [|done].
    split; [simpl; lia | by right].
Qed.

Lemma filter_not_in_nil (keys : list ShapeKind.t) :
  filter (fun k => k ∉ []) keys = keys.
Proof.
  induction keys as [|k keys IH]; [done|].
  rewrite filter_cons, decide_True by apply not_elem_of_nil. by rewrite IH.
Qed.

Lemma turns_left_fresh (self : Blokus) :
  _retired self = ∅ ->
  (∀ p, 1 <= p <= _num_players self -> _shapes_played self !! p = Some []) ->
  turns_left self =
  (Z.to_nat (_num_players self) * S (length (_shapes self)))%nat.
Proof.
  intros Hret Hpl. unfold turns_left.
  assert (H : ∀ l, (∀ p, p ∈ l -> 1 <= p <= _num_players self) ->
              sum_list_with (turns_left_of self) l =
              (length l * S (length (_shapes self)))%nat).
  { induction l as [|p l IH]; intros Hl; simpl; [done|].
    rewrite IH by (intros q Hq; apply Hl; by right).
    unfold turns_left_of. rewrite Hret.
    rewrite decide_False by apply not_elem_of_empty.
    rewrite (remaining_shapes_played _ _ [] (Hpl p (Hl p ltac:(left)))).
    by rewrite filter_not_in_nil, length_map. }
  rewrite H, length_seqZ; [done|]. intros p Hp. apply elem_of_seqZ in Hp. lia.
Qed.

(** The game of [run_bot_simulation] from its start to the end of the
    loop. *)
Lemma bot_game_runs
    (w : World) (definitions : list (ShapeKind.t * Shape.t))
    (strategy_1 strategy_2 : string) (fuel turns : nat) :
  world_ok w ->
  is_Some (bot_of_strategy strategy_1) ->
  is_Some (bot_of_strategy strategy_2) ->
  (∀ k sh, shapes_get definitions k = Val sh -> Shape.kind sh = k) ->
  (2 <= fuel)%nat ->
  (2 * (length definitions + 1) < turns)%nat ->
  ∃ self0 self',
    Blokus_init definitions 2 11 {[ (0, 0); (10, 10) ]} = Val self0 ∧
    play w strategy_1 strategy_2 fuel turns self0 = GameOver self' ∧
    invariant self' ∧
    (∀ p, 1 <= p <= 2 -> stuck self' p) ∧
    _shapes self' = definitions ∧ _num_players self' = 2.
Proof.
  intros Hw Hs1 Hs2 Hkeyed Hfuel Hturns.
  destruct (proj2 (Blokus_init_val_iff definitions 2 11
                     {[ (0, 0); (10, 10) ]})) as [self0 Hinit].
  { split; [lia|]. split; [lia|]. split; [vm_compute; discriminate|].
    intros q [->%elem_of_singleton| ->%elem_of_singleton]%elem_of_union;
      unfold in_bounds; simpl; lia. }
  pose proof (Blokus_init_invariant _ _ _ _ _ Hinit) as Hinv.
  assert (Hfields : _num_players self0 = 2 ∧ _shapes self0 = definitions ∧
                    _retired self0 = ∅ ∧
                    ∀ p, 1 <= p <= 2 -> _shapes_played self0 !! p = Some []).
  { unfold Blokus_init in Hinit.
    destruct (_ || _); [done|]. destruct (11 <? 5); [done|].
    destruct (_ <? 2); [done|]. destruct (negb _); [done|].
    injection Hinit as <-. simpl. repeat split.
    intros p Hp. assert (p = 1 ∨ p = 2) as [-> | ->] by lia; reflexivity. }
  destruct Hfields as (Hn & Hshapes & Hret & Hpl).
  destruct (play_ends_from w strategy_1 strategy_2 fuel turns self0)
    as (s' & Hrun & Hinv' & Hstuck & Hsh' & Hn'); try done.
  - unfold catalog_keyed. by rewrite Hshapes.
  - lia.
  - rewrite Hn. simpl. lia.
  - rewrite turns_left_fresh by (try done; by rewrite Hn).
    rewrite Hn, Hshapes. simpl Z.to_nat. lia.
  - exists self0, s'. split; [done|]. split; [done|]. split; [done|].
    split; [by rewrite <- Hn|]. split; congruence.
Qed.

(** ** The games of the command line *)

Lemma in_bounds_dec_iff (size : Z) (q : Point) :
  (0 <=? q.1) && (q.1 <? size) && (0 <=? q.2) && (q.2 <? size) = true ↔
  in_bounds size q.
Proof.
  unfold in_bounds. rewrite !andb_true_iff, !Z.leb_le, !Z.ltb_lt. lia.
Qed.

Lemma main_check_passes (size : Z) (start_position : list Point) :
  main_check size start_position = Val tt ↔
  ∀ q, q ∈ start_position -> in_bounds size q.
Proof.
  induction start_position as [|pos rest IH]; simpl.
  - split; [|done]. intros _ q Hq. by apply not_elem_of_nil in Hq.
  - destruct ((0 <=? pos.1) && (pos.1 <? size) && (0 <=? pos.2) &&
              (pos.2 <? size)) eqn:E; simpl.
    + apply in_bounds_dec_iff in E. rewrite IH. split.
      * intros H q [->|Hq]%elem_of_cons; auto.
      * intros H q Hq. apply H. by right.
    + split; [done|]. intros H. specialize (H pos ltac:(left)).
      apply in_bounds_dec_iff in H. congruence.
Qed.

Lemma main_check_message (size : Z) (start_position : list Point) :
  main_check size start_position ≠
  Exn (ValueError "Start position must be within grid.").
Proof.
  induction start_position as [|pos rest IH]; simpl; [done|].
  destruct (negb _); [|exact IH]. by intros [= H].
Qed.

Lemma Blokus_init_error_within_grid
    (definitions : list (ShapeKind.t * Shape.t)) (n size : Z)
    (starts : gset Point) :
  (∀ q, q ∈ starts -> in_bounds size q) ->
  Blokus_init definitions n size starts ≠
  Exn (ValueError "Start position must be within grid.").
Proof.
  intros Hall. unfold Blokus_init.
  destruct (_ || _); [done|]. destruct (size <? 5); [done|].
  destruct (_ <? n); [done|].
  assert (forallb (on_board size) (elements starts) = true) as ->; [|done].
  apply forallb_forall. intros q Hq.
  rewrite <- list_elem_of_In, elem_of_elements in Hq.
  specialize (Hall q Hq). unfold on_board, in_bounds in *.
  rewrite !andb_true_iff, !Z.leb_le. lia.
Qed.

(** ** Reading a grid back *)



Lemma parse_cell_digit_raising (e : PyError) (cell : Cell) :
  digit_cell cell ->
  (if Ascii.eqb (cell_char cell) space then Val None
   else
     let! player := int_of_char (cell_char cell) in
     let! shape := (Exn e : res ShapeKind.t) in
     Val (Some (player, shape))) =
  if empty_cell cell then Val cell else Exn e.
Proof.
  destruct cell as [[p k']|]; simpl; [|done]. intros Hp.
  destruct (digit_cases p Hp) as [->|[->|[->|[->|[->|[->|[->|[->|[->| ->]]]]]]]]];
    reflexivity.
Qed.

Lemma line_to_row_cells_raising (e : PyError) (row : list Cell)
    (pre post : string) :
  Forall digit_cell row ->
  line_to_row (Exn e) (pre +:+ (cells_str row +:+ post))
    ((fun j => Z.of_nat (String.length pre) + 2 * j) <$> seqZ 0 (len row)) =
  if forallb empty_cell row then Val row else Exn e.
Proof.
  intros Hrow. revert pre. induction Hrow as [|cell rest Hc Hrest IH];
    intros pre; [done|].
  unfold len. rewrite length_cons, Nat2Z.inj_succ, <- Z.add_1_r.
  rewrite range2_cons by lia. cbn [line_to_row].
  rewrite (str_index_get _ _ (cell_char cell)); [|lia|].
  2:{ rewrite Nat2Z.id, str_get_append. simpl cells_str. by str_simpl. }
  unfold res_bind at 1. cbv beta iota.
  specialize (IH (pre +:+ String (cell_char cell) (String space ""))).
  rewrite str_append_assoc in IH. rewrite !str_append_cons in IH.
  rewrite str_append_nil_l in IH.
  rewrite str_length_append in IH. simpl String.length in IH.
  replace (Z.of_nat (String.length pre + 2))
    with (Z.of_nat (String.length pre) + 2) in IH by lia.
  simpl cells_str. str_simpl. unfold len in IH.
  rewrite (parse_cell_digit_raising e cell Hc).
  destruct cell as [[p k]|]; cbn [forallb empty_cell andb]; [done|].
  unfold res_bind at 1. cbv beta iota.
  rewrite IH. by destruct (forallb empty_cell rest).
Qed.

Lemma line_of_row_parse_raising (e : PyError) (row : list Cell) :
  Forall digit_cell row ->
  line_to_row (Exn e) (line_of_row row)
    (py_range2 1 (Z.of_nat (String.length (line_of_row row)) - 1)) =
  if forallb empty_cell row then Val row else Exn e.
Proof.
  intros Hrow. unfold py_range2, line_of_row. simpl String.length.
  rewrite str_length_append, cells_str_length. simpl String.length.
  replace ((Z.of_nat (S (2 * length row + 1)) - 1 - 1 + 1) `div` 2)
    with (len row).
  2:{ unfold len. apply Z.div_unique with (r := 1); lia. }
  apply (line_to_row_cells_raising e row "|" "|" Hrow).
Qed.

Lemma lines_to_cells_rows_raising (e : PyError) (g : Grid) :
  digit_grid g ->
  lines_to_cells (Exn e) (map line_of_row g) =
  if empty_grid g then Val g else Exn e.
Proof.
  intros Hg. induction Hg as [|row g Hrow Hg IH]; simpl; [done|].
  rewrite line_of_row_parse_raising by done.
  destruct (forallb empty_cell row); simpl; [|done].
  rewrite IH. by destruct (empty_grid g).
Qed.

Lemma border_no_newline (g : Grid) : no_char newline (border_line g).
Proof.
  unfold border_line. str_simpl. split; [done|]. apply no_char_append.
  split; [apply no_newline_repeat | done].
Qed.

Lemma grid_text_joined (g : Grid) :
  digit_grid g ->
  grid_to_string g =
  str_join (String newline "")
    (border_line g :: map line_of_row g ++ [border_line g]).
Proof.
  intros Hg. unfold grid_to_string.
  assert (Hborder :
            "+" +:+ str_repeat "-"
              ((if len g >? 0
                then match g !! 0%nat with
                     | Some row => len row
                     | None => 0
                     end
                else 0) * 2) +:+ "+" = border_line g).
  { unfold border_line. destruct g as [|row g']; [done|].
    assert ((len (row :: g') >? 0) = true) as ->.
    { unfold len. rewrite length_cons. apply Z.gtb_lt. lia. }
    simpl. by rewrite Z.mul_comm. }
  rewrite Hborder.
  assert (Hlines : map (fun row => row_to_string row "|" +:+ "|") g =
                   map line_of_row g).
  { apply map_ext_Forall. eapply Forall_impl; [exact Hg|].
    intros row Hrow. by apply row_line. }
  by rewrite Hlines.
Qed.

Lemma grid_text_split (g : Grid) :
  digit_grid g ->
  str_split newline (grid_to_string g) =
  border_line g :: map line_of_row g ++ [border_line g].
Proof.
  intros Hg. rewrite grid_text_joined by done.
  apply str_split_join; [done|].
  apply Forall_cons. split; [apply border_no_newline|]. apply Forall_app.
  split.
  - apply Forall_fmap. eapply Forall_impl; [exact Hg|].
    intros row Hrow. by apply no_newline_line.
  - apply Forall_singleton, border_no_newline.
Qed.

Lemma grid_text_strip (g : Grid) :
  digit_grid g -> str_strip (grid_to_string g) = grid_to_string g.
Proof.
  intros Hg. rewrite grid_text_joined by done.
  set (lines := map line_of_row g).
  set (joined := str_join _ _).
  assert (Hl : str_lstrip joined = joined).
  { unfold joined, str_join.
    destruct (lines ++ [border_line g]) as [|y l'] eqn:E.
    - by apply app_eq_nil in E as [_ ?].
    - change (String.concat (String newline "") (border_line g :: y :: l'))
        with (border_line g +:+ (String newline "" +:+
                          String.concat (String newline "") (y :: l'))).
      unfold border_line. by str_simpl. }
  assert (Hr : str_rstrip joined = joined).
  { unfold joined.
    destruct (str_join_last (String newline "") lines (border_line g)
                (border_line g)) as [pre ->].
    unfold border_line. rewrite <- !str_append_assoc.
    by apply str_rstrip_last. }
  unfold str_strip. by rewrite Hl, Hr.
Qed.

Lemma grid_text_lines (one : res ShapeKind.t) (g : Grid) :
  digit_grid g ->
  string_to_grid_with one (grid_to_string g) =
  lines_to_cells one (map line_of_row g).
Proof.
  intros Hg. unfold string_to_grid_with.
  rewrite grid_text_strip, grid_text_split by done.
  by rewrite slice_inner.
Qed.

(** ** Scores and winners in the games one can reach *)

Lemma remaining_shapes_missing (self : Blokus) (player : Z) :
  _shapes_played self !! player = None -> _shapes self ≠ [] ->
  remaining_shapes player self = Exn KeyError.
Proof.
  intros Hnone Hne. unfold remaining_shapes.
  destruct (_shapes self) as [|[k sh] d]; [done|]. simpl.
  unfold dict_get. by rewrite Hnone.
Qed.

Lemma score_loop_returns (d : list (ShapeKind.t * Shape.t))
    (ks : list ShapeKind.t) (score : Z) :
  (∀ k, k ∈ ks -> k ∈ map fst d) ->
  ∃ v, score_loop d ks score = Val v.
Proof.
  revert score. induction ks as [|k ks IH]; intros score Hks; simpl;
    [eauto|].
  destruct (shapes_get_of_key d k) as [sh ->]; [apply Hks; left|]. simpl.
  apply IH. intros k' Hk'. apply Hks. by right.
Qed.

Lemma filter_out_nil (pl keys : list ShapeKind.t) :
  filter (fun k => k ∉ pl) keys = [] -> ∀ k, k ∈ keys -> k ∈ pl.
Proof.
  intros Hnil k Hk. destruct (decide (k ∈ pl)) as [|Hout]; [done|].
  assert (k ∈ filter (fun k => k ∉ pl) keys) as Hin
    by (by apply list_elem_of_filter).
  rewrite Hnil in Hin. by apply not_elem_of_nil in Hin.
Qed.

Lemma get_score_record (self : Blokus) (p : Z) (pl : list ShapeKind.t) :
  _shapes_played self !! p = Some pl ->
  (∀ k, k ∈ pl -> k ∈ map fst (_shapes self)) ->
  if decide (_shapes self = []) then get_score p self = Exn IndexError
  else ∃ v, get_score p self = Val v.
Proof.
  intros Hpl Hsub. unfold get_score.
  rewrite (remaining_shapes_played self p pl Hpl). simpl.
  case_decide as Hd.
  - rewrite Hd in *. simpl. unfold dict_get. rewrite Hpl. simpl.
    destruct pl as [|k pl']; [done|].
    specialize (Hsub k ltac:(left)). by apply not_elem_of_nil in Hsub.
  - destruct (filter (fun k => k ∉ pl) (map fst (_shapes self)))
      as [|k rs] eqn:Hrs.
    + simpl. unfold dict_get. rewrite Hpl. simpl.
      assert (Hall : ∀ k, k ∈ map fst (_shapes self) -> k ∈ pl)
        by (by apply filter_out_nil).
      assert (Hkey : ∃ k0, k0 ∈ map fst (_shapes self)).
      { destruct (_shapes self) as [|[k0 sh0] d]; [done|].
        exists k0. left. }
      destruct Hkey as [k0 Hk0]. apply Hall in Hk0.
      destruct (last pl) as [lk|] eqn:Hlast.
      2:{ apply last_None in Hlast. subst pl.
          by apply not_elem_of_nil in Hk0. }
      rewrite (py_index_last _ _ Hlast). simpl.
      assert (Hlk : lk ∈ pl).
      { rewrite last_lookup in Hlast. by eapply list_elem_of_lookup_2. }
      destruct (shapes_get_of_key (_shapes self) lk) as [sh Hsh];
        [by apply Hsub|].
      rewrite Hsh. simpl. destruct (_ =? 1); eauto.
    + assert ((len (k :: rs) >? 0) = true) as ->
        by (rewrite Z.gtb_ltb; apply Z.ltb_lt; unfold len; simpl; lia).
      apply score_loop_returns. intros k' Hk'. rewrite <- Hrs in Hk'.
      by apply list_elem_of_filter in Hk' as [_ ?].
Qed.

Lemma scores_comp_defined (self : Blokus) (ps : list Z) :
  (∀ p, p ∈ ps -> ∃ v, get_score p self = Val v) ->
  scores_comp ps self = Val (score_of self <$> ps).
Proof.
  induction ps as [|p ps IH]; intros Hps; simpl; [done|].
  destruct (Hps p ltac:(left)) as [v Hv].
  unfold score_of at 1. rewrite Hv. simpl.
  rewrite IH by (intros q Hq; apply Hps; by right). done.
Qed.

(** [winners] once the game is over and the scores are defined. *)
Lemma winners_when_over (self : Blokus) :
  1 <= _num_players self -> players_ok self ->
  (∀ p, 1 <= p <= _num_players self -> stuck self p) ->
  (∀ p, 1 <= p <= _num_players self -> ∃ v, get_score p self = Val v) ->
  ∃ ws,
    winners self =
    Returned (Some ws) (with_curr_player (_num_players self) self) ∧
    ws ≠ [] ∧ ∀ p, p ∈ ws -> 1 <= p <= _num_players self.
Proof.
  intros Hn Hok Hall Hdef.
  destruct (game_over_cases self Hn Hok) as [[_ (p & Hp & Hplay)]|[Hgo _]].
  { by destruct (playable_not_stuck self p Hplay); auto. }
  set (n := _num_players self) in *.
  set (s1 := with_curr_player n self) in *.
  set (scores := score_of s1 <$> seqZ 1 n).
  assert (Hlen : len scores = Z.of_nat (Z.to_nat n)).
  { unfold len, scores. by rewrite length_fmap, length_seqZ. }
  assert (Hscores : scores ≠ []).
  { intros Hnil. rewrite Hnil in Hlen. unfold len in Hlen.
    simpl in Hlen. lia. }
  destruct (py_max_spec scores Hscores) as (m & Hm & Hin & Hmax).
  set (ws := filter (fun p => score_of s1 p = m) (seqZ 1 n)).
  exists ws. split; [|split].
  - unfold winners. unfold bind at 1. rewrite Hgo.
    unfold bind at 1, get at 1. unfold bind at 1, read at 1.
    unfold py_range.
    replace (_num_players s1 + 1 - 1) with n by (subst s1 n; simpl; lia).
    assert (Hsc : scores_comp (seqZ 1 n) s1 = Val scores).
    { apply scores_comp_defined. intros p Hp. apply elem_of_seqZ in Hp.
      apply (Hdef p). subst n. lia. }
    rewrite Hsc. unfold bind at 1, read at 1.
    unfold enumerate. rewrite Hlen. unfold scores at 2.
    replace (seqZ 1 n) with (seqZ (0 + 1) (Z.of_nat (Z.to_nat n)))
      by (f_equal; lia).
    rewrite (winners_comp_seq scores m (score_of s1) (Z.to_nat n) Hm 0).
    rewrite Z2Nat.id by lia. done.
  - apply list_elem_of_fmap in Hin as (q & Hq & Hqin).
    intros Hnil. assert (q ∈ ws) as Hqw.
    { unfold ws. apply list_elem_of_filter. split; [done|]. done. }
    rewrite Hnil in Hqw. by apply not_elem_of_nil in Hqw.
  - intros p Hp. unfold ws in Hp.
    apply list_elem_of_filter in Hp as [_ Hp]. apply elem_of_seqZ in Hp. lia.
Qed.

(** ** Further statements about the code, each with a run *)

Lemma catalog_keyedb_sound (d : list (ShapeKind.t * Shape.t)) :
  catalog_keyedb d = true ->
  ∀ k sh, shapes_get d k = Val sh -> Shape.kind sh = k.
Proof.
  unfold catalog_keyedb. rewrite forallb_forall. intros H k sh Hk.
  specialize (H k (proj1 (list_elem_of_In _ _) (all_kinds_complete k))).
  rewrite Hk in H. by apply bool_decide_eq_true in H.
Qed.

Lemma world0_ok : world_ok world0.
Proof.
  split; [done|]. split; [done|]. split; [done|].
  intros [|p l] Hl; [done|]. simpl. by left.
Qed.

(** X1.  The constructor returns a game exactly when there are one to four
    players, the board has a side of five at least, there are as many start
    positions as players at least, and every start position is on the
    board; otherwise it raises. *)
Theorem Blokus_init_checks
    (definitions : list (ShapeKind.t * Shape.t)) (num_players size : Z)
    (start_positions : gset Point) :
  (∃ self,
     Blokus_init definitions num_players size start_positions = Val self) ↔
  1 <= num_players <= 4 ∧ 5 <= size ∧
  num_players <= Z.of_nat (base.size start_positions) ∧
  ∀ q, q ∈ start_positions -> in_bounds size q.
Proof. apply Blokus_init_val_iff. Qed.

(** X2.  Every game made by the constructor and changed by [maybe_place],
    [retire] and [progress_turn] has one to four players, a board of side
    five at least, a played-list for every player, and a grid whose cells
    are exactly the points of the board. *)
Theorem reachable_board (self : Blokus) :
  reachable self ->
  1 <= _num_players self <= 4 ∧ 5 <= _size self ∧
  (∀ p, 1 <= p <= _num_players self ->
        is_Some (_shapes_played self !! p)) ∧
  (∀ q, is_Some (cell_at (_grid self) q) ↔ in_bounds (_size self) q).
Proof.
  intros H. pose proof (reachable_size self H) as Hsize.
  apply reachable_invariant in H as ((Hn & Hplayers & Hgrid) & _).
  split; [done|]. split; [done|]. split; [done|].
  intros q. by apply grid_ok_cells.
Qed.

Lemma reachable_board_witness :
  1 <= _num_players game1 <= 4 ∧ 5 <= _size game1 ∧
  (∀ p, 1 <= p <= _num_players game1 ->
        is_Some (_shapes_played game1 !! p)) ∧
  (∀ q, is_Some (cell_at (_grid game1) q) ↔ in_bounds (_size game1) q).
Proof. apply (reachable_board game1). exact game1_reachable. Defined.

(** X3.  In every game made by the constructor and changed by
    [maybe_place], [retire] and [progress_turn], the cursor is on a player
    of the game, and on one who can still play unless nobody can. *)
Theorem reachable_cursor_ok (self : Blokus) : reachable self -> cursor_ok self.
Proof. intros H. apply reachable_invariant in H. apply H. Qed.

Lemma reachable_cursor_ok_witness : cursor_ok game1.
Proof. apply (reachable_cursor_ok game1). exact game1_reachable. Defined.

(** X4.  In every such game a played-list belongs to a player of the game,
    names no kind twice, and names kinds of the catalogue only. *)
Theorem reachable_played_once
    (self : Blokus) (p : Z) (pl : list ShapeKind.t) :
  reachable self ->
  _shapes_played self !! p = Some pl ->
  1 <= p <= _num_players self ∧ NoDup pl ∧
  ∀ k, k ∈ pl -> k ∈ map fst (_shapes self).
Proof.
  intros H Hpl. apply reachable_invariant in H as (_ & _ & _ & Hp & _).
  by apply Hp.
Qed.

Lemma reachable_played_once_witness :
  1 <= 1 <= _num_players game1 ∧ NoDup [ShapeKind.ONE] ∧
  ∀ k, k ∈ [ShapeKind.ONE] -> k ∈ map fst (_shapes game1).
Proof.
  apply (reachable_played_once game1 1 [ShapeKind.ONE]).
  - exact game1_reachable.
  - vm_compute. reflexivity.
Defined.

(** X5.  In every such game an occupied cell holds a player of the game and
    a kind that is in the played-list of that player. *)
Theorem reachable_grid_owned
    (self : Blokus) (q : Point) (p : Z) (k : ShapeKind.t) :
  reachable self ->
  cell_at (_grid self) q = Some (Some (p, k)) ->
  1 <= p <= _num_players self ∧
  ∃ pl, _shapes_played self !! p = Some pl ∧ k ∈ pl.
Proof.
  intros H Hc. apply reachable_invariant in H as (_ & _ & _ & Hp & Hg).
  destruct (Hg q p k Hc) as (pl & Hpl & Hk).
  split; [by destruct (Hp p pl Hpl) | eauto].
Qed.

Lemma reachable_grid_owned_witness :
  1 <= 1 <= _num_players game1 ∧
  ∃ pl, _shapes_played game1 !! 1 = Some pl ∧ ShapeKind.ONE ∈ pl.
Proof.
  apply (reachable_grid_owned game1 (0, 0) 1 ShapeKind.ONE).
  - exact game1_reachable.
  - vm_compute. reflexivity.
Defined.

(** X6.  Whatever calls of [maybe_place], [retire] and [progress_turn] are
    made, a retired player stays retired and a played-list only grows at its
    end. *)
Theorem retired_and_played_only_grow
    (fuel : nat) (ops : list Op) (self self' : Blokus) :
  run_ops fuel ops self = Some self' ->
  _retired self ⊆ _retired self' ∧
  ∀ p pl, _shapes_played self !! p = Some pl ->
    ∃ more, _shapes_played self' !! p = Some (pl ++ more).
Proof. apply run_ops_record_grows. Qed.

Lemma retired_and_played_only_grow_witness :
  _retired game0 ⊆ _retired game1 ∧
  ∀ p pl, _shapes_played game0 !! p = Some pl ->
    ∃ more, _shapes_played game1 !! p = Some (pl ++ more).
Proof.
  apply (retired_and_played_only_grow 2
           [OpMaybePlace (sample_piece ShapeKind.ONE (Some (0, 0)));
            OpMaybePlace (sample_piece ShapeKind.ONE (Some (4, 4)))]
           game0 game1).
  vm_compute. reflexivity.
Defined.

(** X7.  When every player has a played-list, [game_over] returns, and it
    returns [True] exactly when every player has retired or has no shape
    left. *)
Theorem game_over_iff_all_stuck (self : Blokus) :
  players_ok self ->
  ∃ over self',
    game_over self = Returned over self' ∧
    (over = true ↔ ∀ p, 1 <= p <= _num_players self -> stuck self p).
Proof.
  intros Hok. pose proof (game_over_spec self) as H.
  destruct (game_over self) as [[] s'|e s'|]; [| | |done].
  - destruct H as [_ Hall]. exists true, s'. split; [done|]. done.
  - destruct H as [_ (p & Hp & Hplay)]. exists false, s'. split; [done|].
    split; [done|]. intros Hall.
    by destruct (playable_not_stuck self p Hplay); auto.
  - destruct H as (q & Hq & _ & _ & He).
    destruct (players_ok_remaining self q Hok Hq). congruence.
Qed.

Lemma game_over_iff_all_stuck_witness :
  ∃ over self',
    game_over both_retired = Returned over self' ∧
    (over = true ↔
     ∀ p, 1 <= p <= _num_players both_retired -> stuck both_retired p).
Proof.
  apply (game_over_iff_all_stuck both_retired).
  apply players_okb_sound. vm_compute. reflexivity.
Defined.

(** X8.  With an iteration of its loop for every player, [progress_turn]
    ends, and whether it returns or raises it has changed nothing of the
    game but the cursor. *)
Theorem progress_turn_moves_only_cursor (fuel : nat) (self : Blokus) :
  (1 <= fuel)%nat -> (Z.to_nat (_num_players self) <= fuel)%nat ->
  ∃ c, final (progress_turn fuel self) = Some (with_curr_player c self).
Proof.
  intros H1 Hn.
  destruct (progress_turn_total fuel self H1 Hn) as [s' Hs'].
  exists (_curr_player s'). rewrite Hs'. f_equal.
  by apply (progress_turn_frame fuel).
Qed.

Lemma progress_turn_moves_only_cursor_witness :
  ∃ c, final (progress_turn 2 game0) = Some (with_curr_player c game0).
Proof.
  apply (progress_turn_moves_only_cursor 2 game0).
  - lia.
  - vm_compute. lia.
Defined.

(** X9.  [remaining_shapes] gives the kinds of the catalogue, in its order,
    that are not in the played-list of the player; for a player without a
    played-list it raises [KeyError], unless the catalogue is empty. *)
Theorem remaining_shapes_spec (self : Blokus) (player : Z) :
  remaining_shapes player self =
  match _shapes_played self !! player with
  | Some pl => Val (filter (fun k => k ∉ pl) (map fst (_shapes self)))
  | None => if decide (_shapes self = []) then Val [] else Exn KeyError
  end.
Proof.
  destruct (_shapes_played self !! player) as [pl|] eqn:Hpl.
  - by apply remaining_shapes_played.
  - unfold remaining_shapes.
    destruct (_shapes self) as [|[k sh] d]; simpl; [done|].
    unfold dict_get. by rewrite Hpl.
Qed.

(** X10.  [any_wall_collisions], [any_collisions] and [legal_to_place]
    raise [ValueError] for a piece without an anchor, and for an anchored
    piece of a kind the current player no longer has. *)
Theorem piece_guards_raise (piece : Piece.t) (self : Blokus) :
  (Piece.anchor piece = None ->
   any_wall_collisions piece self =
     Exn (ValueError "Piece anchor is not set.") ∧
   any_collisions piece self = Exn (ValueError "Piece anchor is not set.") ∧
   legal_to_place piece self = Exn (ValueError "Piece anchor is not set.")) ∧
  (∀ rs, is_Some (Piece.anchor piece) ->
     remaining_shapes (_curr_player self) self = Val rs ->
     Shape.kind (Piece.shape piece) ∉ rs ->
     any_wall_collisions piece self =
       Exn (ValueError "Player does not have the specified piece.") ∧
     any_collisions piece self =
       Exn (ValueError "Player does not have the specified piece.") ∧
     legal_to_place piece self =
       Exn (ValueError "Player does not have the specified piece.")).
Proof.
  split.
  - intros Ha. unfold any_wall_collisions, any_collisions, legal_to_place,
      check_piece. by rewrite Ha.
  - intros rs [a Ha] Hrs Hk.
    unfold any_wall_collisions, any_collisions, legal_to_place, check_piece.
    rewrite Ha, Hrs. simpl. by rewrite bool_decide_eq_false_2.
Qed.

Lemma piece_guards_raise_witness :
  (any_wall_collisions (sample_piece ShapeKind.ONE None) game0 =
     Exn (ValueError "Piece anchor is not set.") ∧
   any_collisions (sample_piece ShapeKind.ONE None) game0 =
     Exn (ValueError "Piece anchor is not set.") ∧
   legal_to_place (sample_piece ShapeKind.ONE None) game0 =
     Exn (ValueError "Piece anchor is not set.")) ∧
  (any_wall_collisions (sample_piece ShapeKind.ONE (Some (1, 1))) game1 =
     Exn (ValueError "Player does not have the specified piece.") ∧
   any_collisions (sample_piece ShapeKind.ONE (Some (1, 1))) game1 =
     Exn (ValueError "Player does not have the specified piece.") ∧
   legal_to_place (sample_piece ShapeKind.ONE (Some (1, 1))) game1 =
     Exn (ValueError "Player does not have the specified piece.")).
Proof.
  split.
  - apply (proj1 (piece_guards_raise (sample_piece ShapeKind.ONE None)
                    game0)).
    reflexivity.
  - apply (proj2 (piece_guards_raise
                    (sample_piece ShapeKind.ONE (Some (1, 1))) game1)
             (held game1)).
    + vm_compute. eauto.
    + vm_compute. reflexivity.
    + apply (bool_decide_unpack _). vm_compute. exact I.
Defined.

(** X11.  For an anchored piece of a kind the current player has,
    [any_wall_collisions] returns, and it returns [True] exactly when a
    square of the piece is off the board. *)
Theorem any_wall_collisions_iff (piece : Piece.t) (self : Blokus)
    (rs : list ShapeKind.t) (sqs : list Point) :
  Piece.squares piece = Val sqs ->
  remaining_shapes (_curr_player self) self = Val rs ->
  Shape.kind (Piece.shape piece) ∈ rs ->
  ∃ b, any_wall_collisions piece self = Val b ∧
       (b = true ↔ ∃ q, q ∈ sqs ∧ ¬ in_bounds (_size self) q).
Proof. apply wall_collisions_spec. Qed.

Lemma any_wall_collisions_iff_witness :
  ∃ b,
    any_wall_collisions (sample_piece ShapeKind.TWO (Some (4, 4))) game0 =
    Val b ∧
    (b = true ↔
     ∃ q, q ∈ [(4, 4); (4, 5)] ∧ ¬ in_bounds (_size game0) q).
Proof.
  apply (any_wall_collisions_iff (sample_piece ShapeKind.TWO (Some (4, 4)))
           game0 (held game0) [(4, 4); (4, 5)]).
  - vm_compute. reflexivity.
  - vm_compute. reflexivity.
  - apply (bool_decide_unpack _). vm_compute. exact I.
Defined.

(** X12.  On a square grid, for an anchored piece of a kind the current
    player has, [any_collisions] returns, and it returns [True] exactly when
    a square of the piece is off the board or on an occupied cell. *)
Theorem any_collisions_iff (piece : Piece.t) (self : Blokus)
    (rs : list ShapeKind.t) (sqs : list Point) :
  grid_ok self ->
  Piece.squares piece = Val sqs ->
  remaining_shapes (_curr_player self) self = Val rs ->
  Shape.kind (Piece.shape piece) ∈ rs ->
  ∃ b, any_collisions piece self = Val b ∧
       (b = true ↔
        ∃ q, q ∈ sqs ∧
             (¬ in_bounds (_size self) q ∨
              ∃ o, cell_at (_grid self) q = Some (Some o))).
Proof. apply collisions_spec. Qed.

Lemma any_collisions_iff_witness :
  ∃ b,
    any_collisions (sample_piece ShapeKind.TWO (Some (0, 0))) game1 =
    Val b ∧
    (b = true ↔
     ∃ q, q ∈ [(0, 0); (0, 1)] ∧
          (¬ in_bounds (_size game1) q ∨
           ∃ o, cell_at (_grid game1) q = Some (Some o))).
Proof.
  apply (any_collisions_iff (sample_piece ShapeKind.TWO (Some (0, 0)))
           game1 (held game1) [(0, 0); (0, 1)]).
  - apply grid_okb_sound. vm_compute. reflexivity.
  - vm_compute. reflexivity.
  - vm_compute. reflexivity.
  - apply (bool_decide_unpack _). vm_compute. exact I.
Defined.

(** X13.  On a square grid, for an anchored piece of a kind the current
    player has, [legal_to_place] returns a verdict: it raises nothing, no
    [IndexError] in particular. *)
Theorem legal_to_place_returns (piece : Piece.t) (self : Blokus)
    (rs : list ShapeKind.t) :
  grid_ok self ->
  is_Some (_shapes_played self !! _curr_player self) ->
  is_Some (Piece.anchor piece) ->
  remaining_shapes (_curr_player self) self = Val rs ->
  Shape.kind (Piece.shape piece) ∈ rs ->
  ∃ b, legal_to_place piece self = Val b.
Proof. apply legal_to_place_val. Qed.

Lemma legal_to_place_returns_witness :
  ∃ b,
    legal_to_place (sample_piece ShapeKind.TWO (Some (4, 4))) game1 = Val b.
Proof.
  apply (legal_to_place_returns (sample_piece ShapeKind.TWO (Some (4, 4)))
           game1 (held game1)).
  - apply grid_okb_sound. vm_compute. reflexivity.
  - vm_compute. eauto.
  - vm_compute. eauto.
  - vm_compute. reflexivity.
  - apply (bool_decide_unpack _). vm_compute. exact I.
Defined.

(** X14.  A placement that [legal_to_place] accepts lies on the board, on
    free cells. *)
Theorem legal_to_place_on_free_cells (piece : Piece.t) (self : Blokus) :
  legal_to_place piece self = Val true ->
  ∃ sqs, Piece.squares piece = Val sqs ∧
    ∀ q, q ∈ sqs ->
      in_bounds (_size self) q ∧ cell_at (_grid self) q = Some None.
Proof. apply legal_free_cells. Qed.

Lemma legal_to_place_on_free_cells_witness :
  ∃ sqs,
    Piece.squares (sample_piece ShapeKind.TWO (Some (0, 0))) = Val sqs ∧
    ∀ q, q ∈ sqs ->
      in_bounds (_size game0) q ∧ cell_at (_grid game0) q = Some None.
Proof.
  apply (legal_to_place_on_free_cells
           (sample_piece ShapeKind.TWO (Some (0, 0))) game0).
  vm_compute. reflexivity.
Defined.

(** X15.  A legal placement by a player who has not retired: [maybe_place]
    returns [True]; the squares of the piece hold the player and the kind
    and every other cell is as before; the kind is added at the end of the
    played-list of the player, who no longer has it; nobody retires. *)
Theorem maybe_place_legal_effect
    (fuel : nat) (piece : Piece.t) (self : Blokus) :
  1 <= _num_players self ->
  players_ok self ->
  (Z.to_nat (_num_players self) <= fuel)%nat ->
  _curr_player self ∉ _retired self ->
  legal_to_place piece self = Val true ->
  ∃ sqs pl self',
    Piece.squares piece = Val sqs ∧
    _shapes_played self !! _curr_player self = Some pl ∧
    maybe_place fuel piece self = Returned true self' ∧
    (∀ q, cell_at (_grid self') q =
          if decide (q ∈ sqs)
          then Some (Some (_curr_player self, Shape.kind (Piece.shape piece)))
          else cell_at (_grid self) q) ∧
    _shapes_played self' =
      <[_curr_player self := pl ++ [Shape.kind (Piece.shape piece)]]>
        (_shapes_played self) ∧
    _retired self' = _retired self ∧
    (∃ rs', remaining_shapes (_curr_player self) self' = Val rs' ∧
            Shape.kind (Piece.shape piece) ∉ rs').
Proof.
  intros Hn Hok Hfuel Hret Hlegal.
  destruct (maybe_place_effect fuel piece self Hn Hok Hfuel Hret Hlegal)
    as (sqs & pl & self' & H1 & H2 & H3 & H4 & H5 & H6 & H7 & _).
  exists sqs, pl, self'. eauto 10.
Qed.

Lemma maybe_place_legal_effect_witness :
  ∃ sqs pl self',
    Piece.squares (sample_piece ShapeKind.TWO (Some (0, 0))) = Val sqs ∧
    _shapes_played game0 !! _curr_player game0 = Some pl ∧
    maybe_place 2 (sample_piece ShapeKind.TWO (Some (0, 0))) game0 =
    Returned true self' ∧
    (∀ q, cell_at (_grid self') q =
          if decide (q ∈ sqs)
          then Some (Some (_curr_player game0,
                           Shape.kind (Piece.shape
                             (sample_piece ShapeKind.TWO (Some (0, 0))))))
          else cell_at (_grid game0) q) ∧
    _shapes_played self' =
      <[_curr_player game0 :=
          pl ++ [Shape.kind (Piece.shape
                   (sample_piece ShapeKind.TWO (Some (0, 0))))]]>
        (_shapes_played game0) ∧
    _retired self' = _retired game0 ∧
    (∃ rs', remaining_shapes (_curr_player game0) self' = Val rs' ∧
            Shape.kind (Piece.shape
              (sample_piece ShapeKind.TWO (Some (0, 0)))) ∉ rs').
Proof.
  apply (maybe_place_legal_effect 2
           (sample_piece ShapeKind.TWO (Some (0, 0))) game0).
  - vm_compute. discriminate.
  - apply players_okb_sound. vm_compute. reflexivity.
  - vm_compute. lia.
  - simpl. apply not_elem_of_empty.
  - vm_compute. reflexivity.
Defined.

(** X16.  When the current player has not retired, [maybe_place] raises
    [ValueError] for a piece without an anchor, and for an anchored piece of
    a kind the player no longer has; the game is left as it was. *)
Theorem maybe_place_raises_unchanged
    (fuel : nat) (piece : Piece.t) (self : Blokus) :
  _curr_player self ∉ _retired self ->
  (Piece.anchor piece = None ->
   maybe_place fuel piece self =
   Raised (ValueError "Piece anchor is not set.") self) ∧
  (∀ rs, is_Some (Piece.anchor piece) ->
     remaining_shapes (_curr_player self) self = Val rs ->
     Shape.kind (Piece.shape piece) ∉ rs ->
     maybe_place fuel piece self =
     Raised (ValueError "Player does not have the specified piece.") self).
Proof.
  intros Hret. split.
  - intros Ha. unfold maybe_place. unfold bind at 1, get at 1.
    unfold bind at 1, get at 1. rewrite bool_decide_eq_true_2 by done.
    by rewrite Ha.
  - intros rs [a Ha] Hrs Hk. unfold maybe_place. unfold bind at 1, get at 1.
    unfold bind at 1, get at 1. rewrite bool_decide_eq_true_2 by done.
    rewrite Ha. unfold bind at 1, read at 1. rewrite Hrs.
    by rewrite bool_decide_eq_true_2.
Qed.

Lemma maybe_place_raises_unchanged_witness :
  maybe_place 2 (sample_piece ShapeKind.ONE None) game0 =
  Raised (ValueError "Piece anchor is not set.") game0 ∧
  maybe_place 2 (sample_piece ShapeKind.ONE (Some (1, 1))) game1 =
  Raised (ValueError "Player does not have the specified piece.") game1.
Proof.
  split.
  - apply (proj1 (maybe_place_raises_unchanged 2
                    (sample_piece ShapeKind.ONE None) game0
                    ltac:(simpl; apply not_elem_of_empty))).
    reflexivity.
  - apply (proj2 (maybe_place_raises_unchanged 2
                    (sample_piece ShapeKind.ONE (Some (1, 1))) game1
                    ltac:(apply (bool_decide_unpack _); vm_compute; exact I))
             (held game1)).
    + vm_compute. eauto.
    + vm_compute. reflexivity.
    + apply (bool_decide_unpack _). vm_compute. exact I.
Defined.

(** X17.  [retire] adds the current player to the retired ones and changes
    nothing else but the cursor, which it leaves on a player of the game:
    one who can still play, unless nobody can. *)
Theorem retire_effect (fuel : nat) (self : Blokus) :
  1 <= _num_players self ->
  players_ok self ->
  (Z.to_nat (_num_players self) <= fuel)%nat ->
  ∃ c,
    retire fuel self =
    Returned tt (with_curr_player c (retired_state self)) ∧
    1 <= c <= _num_players self ∧
    (playable (retired_state self) c ∨
     ∀ p, 1 <= p <= _num_players self -> stuck (retired_state self) p) ∧
    stuck (retired_state self) (_curr_player self).
Proof. apply retire_run. Qed.

Lemma retire_effect_witness :
  ∃ c,
    retire 2 game0 =
    Returned tt (with_curr_player c (retired_state game0)) ∧
    1 <= c <= _num_players game0 ∧
    (playable (retired_state game0) c ∨
     ∀ p, 1 <= p <= _num_players game0 -> stuck (retired_state game0) p) ∧
    stuck (retired_state game0) (_curr_player game0).
Proof.
  apply (retire_effect 2 game0).
  - vm_compute. discriminate.
  - apply players_okb_sound. vm_compute. reflexivity.
  - vm_compute. lia.
Defined.



(** X19.  One turn of a bot: with no legal move it retires; otherwise it
    places one of the legal moves, of the fewest squares among them for
    [U_Bot] and of the most for [S_Bot]. *)
Theorem bot_place_piece_spec
    (w : World) (bot : Bot) (fuel : nat) (self : Blokus)
    (rs : list ShapeKind.t) :
  world_ok w ->
  grid_ok self ->
  is_Some (_shapes_played self !! _curr_player self) ->
  catalog_keyed self ->
  remaining_shapes (_curr_player self) self = Val rs ->
  ∃ ms, available_moves (new_piece w) self = Val ms ∧
    (ms = [] -> place_piece w bot fuel self = retire fuel self) ∧
    (ms ≠ [] ->
     ∃ p, p ∈ ms ∧ legal_to_place p self = Val true ∧
          place_piece w bot fuel self =
          bind (maybe_place fuel p) (fun _ => ret tt) self ∧
          (bot = U_Bot -> ∀ q, q ∈ ms -> piece_size p <= piece_size q) ∧
          (bot = S_Bot -> ∀ q, q ∈ ms -> piece_size q <= piece_size p)).
Proof. apply place_piece_spec. Qed.

Lemma bot_place_piece_spec_witness :
  ∃ ms, available_moves (new_piece world0) game1 = Val ms ∧
    (ms = [] -> place_piece world0 S_Bot 2 game1 = retire 2 game1) ∧
    (ms ≠ [] ->
     ∃ p, p ∈ ms ∧ legal_to_place p game1 = Val true ∧
          place_piece world0 S_Bot 2 game1 =
          bind (maybe_place 2 p) (fun _ => ret tt) game1 ∧
          (S_Bot = U_Bot -> ∀ q, q ∈ ms -> piece_size p <= piece_size q) ∧
          (S_Bot = S_Bot -> ∀ q, q ∈ ms -> piece_size q <= piece_size p)).
Proof.
  apply (bot_place_piece_spec world0 S_Bot 2 game1 (held game1)).
  - exact world0_ok.
  - apply grid_okb_sound. vm_compute. reflexivity.
  - vm_compute. eauto.
  - refine (catalog_keyedb_sound (_shapes game1) _). vm_compute. reflexivity.
  - vm_compute. reflexivity.
Defined.

(** X20.  A game of [run_bot_simulation] ends: on the board of eleven with
    the two corner starts, whatever the two strategies among S, N and U,
    the loop [while not bot_blokus.game_over] is left after two turns per
    shape and two more at most, without an error, and then both players
    have retired or have no shape left. *)
Theorem bot_game_ends
    (w : World) (definitions : list (ShapeKind.t * Shape.t))
    (strategy_1 strategy_2 : string) (fuel turns : nat) :
  world_ok w ->
  is_Some (bot_of_strategy strategy_1) ->
  is_Some (bot_of_strategy strategy_2) ->
  (∀ k sh, shapes_get definitions k = Val sh -> Shape.kind sh = k) ->
  (2 <= fuel)%nat ->
  (2 * (length definitions + 1) < turns)%nat ->
  ∃ self0 self',
    Blokus_init definitions 2 11 {[ (0, 0); (10, 10) ]} = Val self0 ∧
    play w strategy_1 strategy_2 fuel turns self0 = GameOver self' ∧
    ∀ p, 1 <= p <= 2 -> stuck self' p.
Proof.
  intros Hw Hs1 Hs2 Hkeyed Hfuel Hturns.
  destruct (bot_game_runs w definitions strategy_1 strategy_2 fuel turns)
    as (self0 & self' & Hinit & Hrun & _ & Hstuck & _); try done.
  eauto.
Qed.

Lemma bot_game_ends_witness :
  ∃ self0 self',
    Blokus_init sample_definitions 2 11 {[ (0, 0); (10, 10) ]} = Val self0 ∧
    play world0 "N" "U" 2 45 self0 = GameOver self' ∧
    ∀ p, 1 <= p <= 2 -> stuck self' p.
Proof.
  apply (bot_game_ends world0 sample_definitions "N" "U" 2 45).
  - exact world0_ok.
  - vm_compute. eauto.
  - vm_compute. eauto.
  - apply catalog_keyedb_sound. vm_compute. reflexivity.
  - lia.
  - vm_compute. lia.
Defined.

(** X21.  Started without start positions, every game mode of the command
    line builds a game, with the players, the size and the start positions
    of the mode, whatever the other options say. *)
Theorem game_modes_build_a_game
    (definitions : list (ShapeKind.t * Shape.t)) (game : string)
    (num_players size : Z) :
  game ∈ game_modes ->
  ∃ self,
    run_tui_blokus definitions game num_players size ∅ = Val self ∧
    (_num_players self, _size self, _start_positions self) =
    run_tui_args game num_players size ∅.
Proof.
  unfold game_modes. rewrite !elem_of_cons.
  intros [->|[->|[->|[->|[->|[->|H]]]]]];
    [| | | | | |by apply not_elem_of_nil in H];
    unfold run_tui_blokus, run_tui_args;
    rewrite decide_True by done; simpl.
  1: destruct (num_players =? 1).
  all: eexists; split; [vm_compute; reflexivity | reflexivity].
Qed.

Lemma game_modes_build_a_game_witness :
  ∃ self,
    run_tui_blokus sample_definitions "mini" 3 14 ∅ = Val self ∧
    (_num_players self, _size self, _start_positions self) =
    run_tui_args "mini" 3 14 ∅.
Proof.
  apply (game_modes_build_a_game sample_definitions "mini" 3 14).
  apply (bool_decide_unpack _). vm_compute. exact I.
Defined.

(** X22.  [main] never ends in the error of the constructor about a start
    position off the grid: its own check of the positions comes first, and
    the positions of the game modes are on their boards. *)
Theorem main_never_reports_off_grid
    (definitions : list (ShapeKind.t * Shape.t)) (game : string)
    (num_players size : Z) (start_position : list Point) :
  main_blokus definitions game num_players size start_position ≠
  Exn (ValueError "Start position must be within grid.").
Proof.
  unfold main_blokus.
  destruct (main_check size start_position) as [[]|e] eqn:Hcheck; simpl.
  - pose proof (proj1 (main_check_passes _ _) Hcheck) as Hall.
    clear Hcheck. rename Hall into Hcheck.
    unfold run_tui_blokus, run_tui_args.
    destruct (decide (list_to_set start_position = ∅)) as [Hempty|Hne].
    + repeat (match goal with
              | |- context [String.eqb game ?m] =>
                  destruct (String.eqb game m)
              end;
              [apply Blokus_init_error_within_grid;
               intros q Hq; unfold in_bounds;
               repeat (apply elem_of_union in Hq as [Hq|Hq]);
               apply elem_of_singleton in Hq; subst q; simpl; lia|]).
      apply Blokus_init_error_within_grid. intros q Hq.
      apply Hcheck. by apply elem_of_list_to_set in Hq.
    + apply Blokus_init_error_within_grid. intros q Hq.
      apply Hcheck. by apply elem_of_list_to_set in Hq.
  - intros [= ->]. by apply (main_check_message size start_position).
Qed.

Lemma main_never_reports_off_grid_witness :
  main_blokus sample_definitions "duo" 2 14 [(3, 3); (14, 2)] ≠
  Exn (ValueError "Start position must be within grid.").
Proof.
  apply (main_never_reports_off_grid sample_definitions "duo" 2 14
           [(3, 3); (14, 2)]).
Defined.

(** X23.  With start positions given, [main] builds a game exactly when
    there are one to four players, the size is five at least, the distinct
    positions are as many as the players at least, and every position is on
    the grid. *)
Theorem main_builds_iff
    (definitions : list (ShapeKind.t * Shape.t)) (game : string)
    (num_players size : Z) (start_position : list Point) :
  start_position ≠ [] ->
  (∃ self,
     main_blokus definitions game num_players size start_position =
     Val self) ↔
  1 <= num_players <= 4 ∧ 5 <= size ∧
  num_players <=
    Z.of_nat (base.size (list_to_set start_position : gset Point)) ∧
  ∀ q, q ∈ start_position -> in_bounds size q.
Proof.
  intros Hne. unfold main_blokus, run_tui_blokus, run_tui_args.
  assert (Hset : (list_to_set start_position : gset Point) ≠ ∅).
  { destruct start_position as [|q l]; [done|]. set_solver. }
  rewrite decide_False by done.
  destruct (main_check size start_position) as [[]|e] eqn:Hcheck; simpl.
  - rewrite Blokus_init_val_iff.
    pose proof (proj1 (main_check_passes _ _) Hcheck) as Hall.
    split.
    + intros (H1 & H2 & H3 & _). done.
    + intros (H1 & H2 & H3 & H4). split; [done|]. split; [done|].
      split; [done|]. intros q Hq. apply elem_of_list_to_set in Hq.
      by apply H4.
  - split; [by intros [? ?]|]. intros (_ & _ & _ & H).
    pose proof (proj2 (main_check_passes _ _) H). congruence.
Qed.

Lemma main_builds_iff_witness :
  (∃ self,
     main_blokus sample_definitions "duo" 2 14 [(0, 0); (0, 0)] =
     Val self) ↔
  1 <= 2 <= 4 ∧ 5 <= 14 ∧
  2 <= Z.of_nat (base.size (list_to_set [(0, 0); (0, 0)] : gset Point)) ∧
  ∀ q, q ∈ [(0, 0); (0, 0)] -> in_bounds 14 q.
Proof.
  apply (main_builds_iff sample_definitions "duo" 2 14 [(0, 0); (0, 0)]).
  discriminate.
Defined.

(** X24.  The text of a grid whose player ids are single digits has a line
    for every row, between two border lines: the line of a row holds, between
    two bars, the digit of the player or a space for every cell, each
    followed by a space. *)
Theorem grid_to_string_lines (g : Grid) :
  digit_grid g ->
  str_split newline (grid_to_string g) =
  border_line g :: map line_of_row g ++ [border_line g].
Proof. apply grid_text_split. Qed.

Lemma grid_to_string_lines_witness :
  str_split newline (grid_to_string sample_grid) =
  border_line sample_grid :: map line_of_row sample_grid ++
    [border_line sample_grid].
Proof.
  apply (grid_to_string_lines sample_grid).
  repeat constructor; simpl; lia.
Defined.

(** X25.  Writing a grid whose player ids are single digits and reading it
    back gives the grid when it has no occupied cell, and raises
    [AttributeError] as soon as it has one. *)
Theorem round_trip_only_for_empty_grids (g : Grid) :
  digit_grid g ->
  string_to_grid (grid_to_string g) =
  if empty_grid g then Val g else Exn (AttributeError "One").
Proof.
  intros Hg. unfold string_to_grid.
  change (ShapeKind_getattr "One") with
    (@Exn ShapeKind.t (AttributeError "One")).
  rewrite (grid_text_lines _ g Hg). by apply lines_to_cells_rows_raising.
Qed.

Lemma round_trip_only_for_empty_grids_witness :
  string_to_grid (grid_to_string sample_grid) =
  if empty_grid sample_grid then Val sample_grid
  else Exn (AttributeError "One").
Proof.
  apply (round_trip_only_for_empty_grids sample_grid).
  repeat constructor; simpl; lia.
Defined.



(** X27.  In every game made by the constructor and changed by
    [maybe_place], [retire] and [progress_turn], [get_score] returns for a
    player of the game, unless the catalogue is empty: then it raises
    [IndexError]. *)
Theorem get_score_of_a_player (self : Blokus) (p : Z) :
  reachable self -> 1 <= p <= _num_players self ->
  if decide (_shapes self = []) then get_score p self = Exn IndexError
  else ∃ v, get_score p self = Val v.
Proof.
  intros H Hp.
  apply reachable_invariant in H as ((_ & Hok & _) & _ & _ & Hrec & _).
  destruct (Hok p Hp) as [pl Hpl].
  apply (get_score_record self p pl Hpl). by apply (Hrec p pl).
Qed.

Lemma get_score_of_a_player_witness :
  if decide (_shapes game1 = []) then get_score 1 game1 = Exn IndexError
  else ∃ v, get_score 1 game1 = Val v.
Proof.
  apply (get_score_of_a_player game1 1).
  - exact game1_reachable.
  - split; vm_compute; discriminate.
Defined.

(** X28.  In every such game with a catalogue that is not empty,
    [remaining_shapes] and [get_score] raise [KeyError] for a number that is
    not a player of the game. *)
Theorem get_score_unknown_player (self : Blokus) (p : Z) :
  reachable self -> ¬ (1 <= p <= _num_players self) -> _shapes self ≠ [] ->
  remaining_shapes p self = Exn KeyError ∧ get_score p self = Exn KeyError.
Proof.
  intros H Hp Hne.
  apply reachable_invariant in H as (_ & _ & _ & Hrec & _).
  assert (Hnone : _shapes_played self !! p = None).
  { destruct (_shapes_played self !! p) as [pl|] eqn:Hpl; [|done].
    by destruct (Hrec p pl Hpl). }
  pose proof (remaining_shapes_missing self p Hnone Hne) as Hrem.
  split; [done|]. unfold get_score. by rewrite Hrem.
Qed.

Lemma get_score_unknown_player_witness :
  remaining_shapes 3 game1 = Exn KeyError ∧ get_score 3 game1 = Exn KeyError.
Proof.
  apply (get_score_unknown_player game1 3).
  - exact game1_reachable.
  - intros [_ H]. revert H. vm_compute. intros H. by apply H.
  - vm_compute. discriminate.
Defined.

(** X29.  After the loop of a game of [run_bot_simulation], with a
    catalogue that is not empty, [winners] returns a list, not empty, of
    players among 1 and 2: the length and the first element the tally asks
    for are there. *)
Theorem bot_game_tally
    (w : World) (definitions : list (ShapeKind.t * Shape.t))
    (strategy_1 strategy_2 : string) (fuel turns : nat) :
  world_ok w ->
  is_Some (bot_of_strategy strategy_1) ->
  is_Some (bot_of_strategy strategy_2) ->
  (∀ k sh, shapes_get definitions k = Val sh -> Shape.kind sh = k) ->
  definitions ≠ [] ->
  (2 <= fuel)%nat ->
  (2 * (length definitions + 1) < turns)%nat ->
  ∃ self0 self' ws self'',
    Blokus_init definitions 2 11 {[ (0, 0); (10, 10) ]} = Val self0 ∧
    play w strategy_1 strategy_2 fuel turns self0 = GameOver self' ∧
    winners self' = Returned (Some ws) self'' ∧
    ws ≠ [] ∧ ∀ p, p ∈ ws -> p = 1 ∨ p = 2.
Proof.
  intros Hw Hs1 Hs2 Hkeyed Hne Hfuel Hturns.
  destruct (bot_game_runs w definitions strategy_1 strategy_2 fuel turns)
    as (self0 & self' & Hinit & Hrun & Hinv & Hstuck & Hshapes & Hn);
    try done.
  pose proof Hinv as ((_ & Hok & _) & ((_ & Hc) & _) & _ & Hrec & _).
  destruct (winners_when_over self') as (ws & Hws & Hnil & Hin).
  - lia.
  - done.
  - by rewrite Hn.
  - intros p Hp. destruct (Hok p Hp) as [pl Hpl].
    pose proof (get_score_record self' p pl Hpl) as Hscore.
    rewrite decide_False in Hscore by (by rewrite Hshapes).
    apply Hscore. by apply (Hrec p pl).
  - exists self0, self', ws. eexists. split; [done|]. split; [done|].
    split; [exact Hws|]. split; [done|]. intros p Hp. apply Hin in Hp. lia.
Qed.

Lemma bot_game_tally_witness :
  ∃ self0 self' ws self'',
    Blokus_init sample_definitions 2 11 {[ (0, 0); (10, 10) ]} = Val self0 ∧
    play world0 "S" "N" 2 45 self0 = GameOver self' ∧
    winners self' = Returned (Some ws) self'' ∧
    ws ≠ [] ∧ ∀ p, p ∈ ws -> p = 1 ∨ p = 2.
Proof.
  apply (bot_game_tally world0 sample_definitions "S" "N" 2 45).
  - exact world0_ok.
  - vm_compute. eauto.
  - vm_compute. eauto.
  - apply catalog_keyedb_sound. vm_compute. reflexivity.
  - discriminate.
  - lia.
  - vm_compute. lia.
Defined.
